(** * promptier: render pipeline, provenance table and lint engine

    A shallow embedding of the TypeScript sources of promptier
    ([packages/core]: prompt.ts, source-map.ts, section.ts, the three
    formatters; [packages/lint]: linter.ts, the heuristic rule
    [missingIdentity], the semantic response parser) together with the
    properties the specification states about them.

    Conventions of the embedding.
    - A JavaScript string is the list of its UTF-16 code units
      ([JsString := list N]); [js "..."] turns a literal into one.
    - A JavaScript number that the code uses as an offset, an index, a
      priority or a count is an integer of [Z]; [-1] is the "not found"
      result of [indexOf], as in the source.
    - A call that may throw (or a promise that may reject) returns an
      [Outcome]: [Returns v] or [Throws e]; [await] is sequencing.
    - A [Map] whose iteration order the code relies on is an association
      list with the update-in-place semantics of [Map.prototype.set]; a
      [Record<string, _>] or [Set<string>] that is only looked up is a
      [gmap] or [gset]. *)

From Stdlib Require Import ZArith NArith Ascii String List Lia Bool.
From Stdlib Require Import DecimalString.
From stdpp Require Import base option list gmap strings sorting.

Set Warnings "-register-all".
Open Scope Z_scope.

(* ================================================================= *)
(** * Part I: definitions *)
(* ================================================================= *)

(** ** JavaScript strings *)

Abbreviation JsString := (list N).

Definition js (s : string) : JsString :=
  map N_of_ascii (list_ascii_of_string s).

Definition ch (c : ascii) : N := N_of_ascii c.

Definition LF : N := 10%N.

(** [s.length] *)
Definition jsLength (s : JsString) : Z := Z.of_nat (length s).

Module Str.

(** [s.startsWith(pat)] at the head of [s]. *)
Fixpoint startsWith (pat s : JsString) : bool :=
  match pat, s with
  | [], _ => true
  | p :: pat', c :: s' => if N.eqb p c then startsWith pat' s' else false
  | _ :: _, [] => false
  end.

(** First [k >= pos] at which [pat] occurs in [s], where [pos] is the
    position of the head of [s] in the whole string. *)
Fixpoint indexOfFrom (pat s : JsString) (pos : nat) : option nat :=
  if startsWith pat s then Some pos
  else match s with
       | [] => None
       | _ :: s' => indexOfFrom pat s' (S pos)
       end.

(** [s.indexOf(pat, position)]: the position is clamped to
    [0 .. s.length]; the result is [-1] when there is no occurrence. *)
Definition indexOf (s pat : JsString) (position : Z) : Z :=
  let start := Nat.min (Z.to_nat position) (length s) in
  match indexOfFrom pat (drop start s) start with
  | Some k => Z.of_nat k
  | None => -1
  end.

(** Last occurrence, scanning the whole string ([s.lastIndexOf(pat)]). *)
Fixpoint lastIndexOfFrom (pat s : JsString) (pos : nat) (found : Z) : Z :=
  let found' := if startsWith pat s then Z.of_nat pos else found in
  match s with
  | [] => found'
  | _ :: s' => lastIndexOfFrom pat s' (S pos) found'
  end.

Definition lastIndexOf (s pat : JsString) : Z := lastIndexOfFrom pat s 0 (-1).

(** [s.includes(pat)] *)
Definition includes (s pat : JsString) : bool := 0 <=? indexOf s pat 0.

(** [s.slice(from, to)] for [0 <= from], [0 <= to]. *)
Definition slice (s : JsString) (from to : Z) : JsString :=
  take (Z.to_nat to - Z.to_nat from) (drop (Z.to_nat from) s).

(** White space and line terminators of ECMAScript: what [trim] strips
    and what [\s] matches. *)
Definition isWhiteSpace (c : N) : bool :=
  (N.eqb c 9 || N.eqb c 10 || N.eqb c 11 || N.eqb c 12 || N.eqb c 13 ||
   N.eqb c 32 || N.eqb c 160 || N.eqb c 5760 ||
   (N.leb 8192 c && N.leb c 8202) ||
   N.eqb c 8232 || N.eqb c 8233 || N.eqb c 8239 || N.eqb c 8287 ||
   N.eqb c 12288 || N.eqb c 65279)%N.

Fixpoint trimStart (s : JsString) : JsString :=
  match s with
  | c :: s' => if isWhiteSpace c then trimStart s' else s
  | [] => []
  end.

Definition trimEnd (s : JsString) : JsString := rev (trimStart (rev s)).

(** [s.trim()] *)
Definition trim (s : JsString) : JsString := trimEnd (trimStart s).

(** [parts.join(sep)] *)
Fixpoint join (sep : JsString) (parts : list JsString) : JsString :=
  match parts with
  | [] => []
  | [p] => p
  | p :: rest => p ++ sep ++ join sep rest
  end.

Definition isUpperAscii (c : N) : bool := (N.leb 65 c && N.leb c 90)%N.
Definition isLowerAscii (c : N) : bool := (N.leb 97 c && N.leb c 122)%N.
Definition isDigit (c : N) : bool := (N.leb 48 c && N.leb c 57)%N.

(** [\w] *)
Definition isWord (c : N) : bool :=
  isUpperAscii c || isLowerAscii c || isDigit c || N.eqb c 95.

Definition upperChar (c : N) : N := if isLowerAscii c then (c - 32)%N else c.
Definition lowerChar (c : N) : N := if isUpperAscii c then (c + 32)%N else c.

(** [toUpperCase] and [toLowerCase] on the ASCII letters; a code unit
    outside ASCII is left as it is (the Unicode case tables are not part
    of this development). *)
Definition toUpperCase (s : JsString) : JsString := map upperChar s.
Definition toLowerCase (s : JsString) : JsString := map lowerChar s.

(** [s.slice(from, to)] for any two integers: a negative index counts
    from the end, and both are clamped to the string. *)
Definition sliceAny (s : JsString) (from to : Z) : JsString :=
  let len := Z.of_nat (length s) in
  let clamp (i : Z) := if i <? 0 then Z.max (len + i) 0 else Z.min i len in
  take (Z.to_nat (clamp to) - Z.to_nat (clamp from))
    (drop (Z.to_nat (clamp from)) s).

(** [s.split(sep)] for a separator of one code unit; [cur] is the
    piece being read. *)
Fixpoint splitOnFrom (sep : N) (s cur : JsString) : list JsString :=
  match s with
  | [] => [cur]
  | c :: s' => if N.eqb c sep then cur :: splitOnFrom sep s' []
               else splitOnFrom sep s' (cur ++ [c])
  end.

Definition splitOn (sep : N) (s : JsString) : list JsString :=
  splitOnFrom sep s [].

End Str.

(** ** Sets of strings

    A [Set] keeps its members in the order they were first added;
    adding a member again changes nothing. [[...set]] is the list of
    the members in that order. *)

Module JsSet.

Definition add (s : list JsString) (x : JsString) : list JsString :=
  if bool_decide (x ∈ s) then s else s ++ [x].

(** [new Set(items)] *)
Definition ofList (items : list JsString) : list JsString :=
  fold_left add items [].

End JsSet.

(** ** Outcomes of calls that may throw *)

Inductive Outcome (A : Type) : Type :=
| Returns (a : A)
| Throws (e : JsString).
Arguments Returns {A} a.
Arguments Throws {A} e.

(** Sequencing ([await] of a call that may reject, or a call inside a
    function without [try]): the first [Throws] propagates. *)
#[global] Instance Outcome_ret : MRet Outcome := fun A a => Returns a.
#[global] Instance Outcome_bind : MBind Outcome := fun A B f o =>
  match o with
  | Returns a => f a
  | Throws e => Throws e
  end.

#[global] Instance Outcome_fmap : FMap Outcome := fun A B f o =>
  match o with
  | Returns a => Returns (f a)
  | Throws e => Throws e
  end.


(** ** Core types (types.ts) *)

Inductive SectionType :=
| TIdentity | TCapabilities | TConstraints | TContext | TDomain
| TTools | TFormat | TExamples | TCustom.

#[global] Instance SectionType_eq_dec : EqDecision SectionType.
Proof. solve_decision. Defined.

Inductive SourceType := SFragment | SDynamic | SLiteral | SGenerated.

#[global] Instance SourceType_eq_dec : EqDecision SourceType.
Proof. solve_decision. Defined.

(** [SourceMapping['output']] *)
Record Output := mkOutput {
  start : Z;
  end_ : Z;
  line : Z;
  column : Z
}.

(** [SourceMapping['source']]; an absent optional field is [None]. *)
Record Source := mkSource {
  type : SourceType;
  fragmentId : option JsString;
  fragmentVersion : option JsString;
  sectionType : option SectionType;
  sectionIndex : option Z;
  file : option JsString;
  fileLine : option Z;
  fileColumn : option Z;
  dynamicKey : option JsString
}.

Record SourceMapping := mkMapping {
  output : Output;
  source : Source
}.

#[global] Instance Output_eq_dec : EqDecision Output.
Proof. solve_decision. Defined.
#[global] Instance Source_eq_dec : EqDecision Source.
Proof. solve_decision. Defined.
#[global] Instance SourceMapping_eq_dec : EqDecision SourceMapping.
Proof. solve_decision. Defined.

(** [SourceMapData]: the plain record a source map serializes to. *)
Record SourceMapData := mkSourceMapData {
  data_version : Z;
  data_prompt : JsString;
  data_mappings : list SourceMapping
}.

(** ** SourceMap (source-map.ts) *)

Module SourceMap.

Record SourceMap := mk {
  prompt : JsString;
  mappings : list SourceMapping;
  renderedText : JsString
}.

(** [new SourceMap(promptName)] *)
Definition new (promptName : JsString) : SourceMap :=
  {| prompt := promptName; mappings := []; renderedText := [] |}.

Definition setRenderedText (sm : SourceMap) (text : JsString) : SourceMap :=
  {| prompt := prompt sm; mappings := mappings sm; renderedText := text |}.

(** [this.mappings.push(mapping)] *)
Definition addMapping (sm : SourceMap) (m : SourceMapping) : SourceMap :=
  {| prompt := prompt sm; mappings := mappings sm ++ [m];
     renderedText := renderedText sm |}.

(** The loop of [getLineColumn]: [n] code units are still to be read. *)
Fixpoint getLineColumn_loop (text : JsString) (n : nat) (l c : Z) : Z * Z :=
  match n, text with
  | S n', x :: rest =>
      if N.eqb x LF then getLineColumn_loop rest n' (l + 1) 1
      else getLineColumn_loop rest n' l (c + 1)
  | _, _ => (l, c)
  end.

Definition getLineColumn (sm : SourceMap) (offset : Z) : Z * Z :=
  getLineColumn_loop (renderedText sm) (Z.to_nat offset) 1 1.

(** The loop of [getCharOffset]: runs while [offset < text.length] and
    [currentLine < line]. *)
Fixpoint getCharOffset_loop (text : JsString) (line currentLine offset : Z) : Z :=
  match text with
  | x :: rest =>
      if currentLine <? line then
        getCharOffset_loop rest line
          (if N.eqb x LF then currentLine + 1 else currentLine) (offset + 1)
      else offset
  | [] => offset
  end.

Definition getCharOffset (sm : SourceMap) (line column : Z) : Z :=
  getCharOffset_loop (renderedText sm) line 1 0 + column - 1.

Definition getLineFromOffset (sm : SourceMap) (offset : Z) : Z :=
  fst (getLineColumn_loop (renderedText sm) (Z.to_nat offset) 1 1).

Record FragmentMappingOptions := mkFragmentOptions {
  f_outputStart : Z;
  f_outputEnd : Z;
  f_fragmentId : JsString;
  f_fragmentVersion : JsString;
  f_sectionType : SectionType;
  f_sectionIndex : Z;
  f_sourceFile : option JsString;
  f_sourceLine : option Z
}.

Record DynamicMappingOptions := mkDynamicOptions {
  d_outputStart : Z;
  d_outputEnd : Z;
  d_sectionType : SectionType;
  d_sectionIndex : Z;
  d_dynamicKey : option JsString
}.

Definition addFragmentMapping (sm : SourceMap) (o : FragmentMappingOptions)
  : SourceMap :=
  let '(l, c) := getLineColumn sm (f_outputStart o) in
  addMapping sm
    {| output := mkOutput (f_outputStart o) (f_outputEnd o) l c;
       source := {| type := SFragment;
                    fragmentId := Some (f_fragmentId o);
                    fragmentVersion := Some (f_fragmentVersion o);
                    sectionType := Some (f_sectionType o);
                    sectionIndex := Some (f_sectionIndex o);
                    file := f_sourceFile o;
                    fileLine := f_sourceLine o;
                    fileColumn := None;
                    dynamicKey := None |} |}.

Definition addDynamicMapping (sm : SourceMap) (o : DynamicMappingOptions)
  : SourceMap :=
  let '(l, c) := getLineColumn sm (d_outputStart o) in
  addMapping sm
    {| output := mkOutput (d_outputStart o) (d_outputEnd o) l c;
       source := {| type := SDynamic;
                    fragmentId := None;
                    fragmentVersion := None;
                    sectionType := Some (d_sectionType o);
                    sectionIndex := Some (d_sectionIndex o);
                    file := None;
                    fileLine := None;
                    fileColumn := None;
                    dynamicKey := d_dynamicKey o |} |}.

Definition addLiteralMapping (sm : SourceMap) (outputStart outputEnd : Z)
    (st : SectionType) (idx : Z) : SourceMap :=
  let '(l, c) := getLineColumn sm outputStart in
  addMapping sm
    {| output := mkOutput outputStart outputEnd l c;
       source := {| type := SLiteral;
                    fragmentId := None;
                    fragmentVersion := None;
                    sectionType := Some st;
                    sectionIndex := Some idx;
                    file := None;
                    fileLine := None;
                    fileColumn := None;
                    dynamicKey := None |} |}.

Definition addGeneratedMapping (sm : SourceMap) (outputStart outputEnd : Z)
    (st : option SectionType) (idx : option Z) : SourceMap :=
  let '(l, c) := getLineColumn sm outputStart in
  addMapping sm
    {| output := mkOutput outputStart outputEnd l c;
       source := {| type := SGenerated;
                    fragmentId := None;
                    fragmentVersion := None;
                    sectionType := st;
                    sectionIndex := idx;
                    file := None;
                    fileLine := None;
                    fileColumn := None;
                    dynamicKey := None |} |}.

(** [offset >= mapping.output.start && offset < mapping.output.end] *)
Definition covers (offset : Z) (m : SourceMapping) : bool :=
  (start (output m) <=? offset) && (offset <? end_ (output m)).

(** The [for ... of this.mappings] loop shared by [originAt] and
    [originAtOffset]: the first mapping that covers the offset wins;
    [None] is [null]. *)
Fixpoint firstCovering (ms : list SourceMapping) (offset : Z) : option Source :=
  match ms with
  | [] => None
  | m :: rest => if covers offset m then Some (source m)
                 else firstCovering rest offset
  end.

Definition originAtOffset (sm : SourceMap) (offset : Z) : option Source :=
  firstCovering (mappings sm) offset.

Definition originAt (sm : SourceMap) (line column : Z) : option Source :=
  firstCovering (mappings sm) (getCharOffset sm line column).

(** [m.source.fragmentId === fragmentId] *)
Definition fromFragment (fid : JsString) (m : SourceMapping) : bool :=
  bool_decide (fragmentId (source m) = Some fid).

Definition positionsFrom (sm : SourceMap) (fid : JsString) : list Output :=
  map output (List.filter (fromFragment fid) (mappings sm)).

Definition getMappingsForSection (sm : SourceMap) (st : SectionType)
  : list SourceMapping :=
  List.filter (fun m => bool_decide (sectionType (source m) = Some st))
    (mappings sm).

Definition toJSON (sm : SourceMap) : SourceMapData :=
  {| data_version := 1; data_prompt := prompt sm;
     data_mappings := mappings sm |}.

(** [fromJSON]: a fresh map (its rendered text is the empty string) to
    which the mappings of the data are added one by one. *)
Definition fromJSON (data : SourceMapData) : SourceMap :=
  fold_left addMapping (data_mappings data) (new (data_prompt data)).

(** Two mappings share no offset. *)
Definition disjoint (a b : SourceMapping) : bool :=
  (end_ (output a) <=? start (output b)) ||
  (end_ (output b) <=? start (output a)) ||
  (end_ (output a) <=? start (output a)) ||
  (end_ (output b) <=? start (output b)).

(** The ranges of a list of mappings are pairwise non-overlapping. *)
Fixpoint nonOverlapping (ms : list SourceMapping) : bool :=
  match ms with
  | [] => true
  | m :: rest => forallb (disjoint m) rest && nonOverlapping rest
  end.

(** The mappings go forward from [lo]: each starts at or after [lo]
    and at or after the end of the one before it, and none ends before
    it starts. *)
Fixpoint forwardFrom (lo : Z) (ms : list SourceMapping) : Prop :=
  match ms with
  | [] => True
  | m :: rest =>
      lo <= start (output m) /\ start (output m) <= end_ (output m) /\
      forwardFrom (end_ (output m)) rest
  end.

(** [getFragmentIds]: [mapping.source.fragmentId] is added when it is
    truthy, that is, present and not the empty string. *)
Definition getFragmentIds (sm : SourceMap) : list JsString :=
  fold_left
    (fun ids m =>
       match fragmentId (source m) with
       | Some (c :: fid) => JsSet.add ids (c :: fid)
       | _ => ids
       end)
    (mappings sm) [].

End SourceMap.

(** ** Regular expressions

    The regular expressions of the sources are values of [Re]; [rmatch]
    is the backtracking matcher of ECMAScript (section 22.2.2 of the
    language specification) in continuation-passing style: alternatives
    are tried left to right, a greedy quantifier tries one more
    iteration before it tries the rest of the pattern, a lazy one the
    other way round, and an iteration that consumes nothing is refused.
    The [i] flag is carried by the character predicates ([litCI],
    [strCI]). *)

Module Regex.

Inductive Re :=
| RChar (p : N -> bool)
| REmpty
| RSeq (a b : Re)
| RAlt (a b : Re)
| RStar (greedy : bool) (a : Re)
| RGroup (i : nat) (a : Re)
| RBol
| REol
| RWordBoundary.

(** Captures: group number, start and end offsets. *)
Definition Caps := list (nat * (nat * nat)).

(** A position in the subject: the offset, the code unit before it and
    what is left to read. *)
Record MState := mkState {
  pos : nat;
  prev : option N;
  rest : JsString
}.

Definition Cont := MState -> Caps -> option (nat * Caps).

Fixpoint groupsOf (r : Re) : list nat :=
  match r with
  | RSeq a b | RAlt a b => groupsOf a ++ groupsOf b
  | RStar _ a => groupsOf a
  | RGroup i a => i :: groupsOf a
  | _ => []
  end.

Definition clearGroups (gs : list nat) (caps : Caps) : Caps :=
  List.filter (fun c => negb (bool_decide (fst c ∈ gs))) caps.

Definition isWordAt (c : option N) : bool :=
  match c with Some x => Str.isWord x | None => false end.

(** The loop of a quantifier [a*] or [a*?]: [ma] matches one [a],
    [clear] resets the groups of [a] before each iteration, [fuel]
    bounds the iterations by the length of what is left (each must
    consume something). *)
Fixpoint starLoop (greedy : bool)
    (ma : MState -> Caps -> Cont -> option (nat * Caps))
    (clear : Caps -> Caps) (k : Cont) (fuel : nat) (st : MState) (caps : Caps)
    {struct fuel} : option (nat * Caps) :=
  let again (_ : unit) :=
    match fuel with
    | O => None
    | S fuel' =>
        ma st (clear caps)
          (fun st' caps' =>
             if Nat.eqb (pos st') (pos st) then None
             else starLoop greedy ma clear k fuel' st' caps')
    end in
  if greedy then
    match again tt with
    | Some res => Some res
    | None => k st caps
    end
  else
    match k st caps with
    | Some res => Some res
    | None => again tt
    end.

Fixpoint rmatch (r : Re) (st : MState) (caps : Caps) (k : Cont)
  : option (nat * Caps) :=
  match r with
  | RChar p =>
      match rest st with
      | c :: s' => if p c then k (mkState (S (pos st)) (Some c) s') caps
                   else None
      | [] => None
      end
  | REmpty => k st caps
  | RSeq a b => rmatch a st caps (fun st' caps' => rmatch b st' caps' k)
  | RAlt a b =>
      match rmatch a st caps k with
      | Some res => Some res
      | None => rmatch b st caps k
      end
  | RStar greedy a =>
      starLoop greedy (rmatch a) (clearGroups (groupsOf a)) k
        (length (rest st)) st caps
  | RGroup i a =>
      rmatch a st caps
        (fun st' caps' =>
           k st' ((i, (pos st, pos st')) :: clearGroups [i] caps'))
  | RBol => if Nat.eqb (pos st) 0 then k st caps else None
  | REol => match rest st with [] => k st caps | _ :: _ => None end
  | RWordBoundary =>
      if xorb (isWordAt (prev st)) (isWordAt (head (rest st)))
      then k st caps else None
  end.

(** A match: where it starts, where it ends, and its groups. *)
Record Match := mkMatch {
  m_start : nat;
  m_end : nat;
  m_caps : Caps
}.

(** The match that starts exactly at the position [st], if any. *)
Definition matchAt (r : Re) (st : MState) : option Match :=
  match rmatch r st [] (fun st' caps' => Some (pos st', caps')) with
  | Some (e, caps) => Some (mkMatch (pos st) e caps)
  | None => None
  end.

(** The first match at or after the position [st]: the search of
    [RegExp.prototype.exec]. *)
Fixpoint searchFrom (r : Re) (st : MState) (fuel : nat) : option Match :=
  match matchAt r st with
  | Some m => Some m
  | None =>
      match fuel, rest st with
      | S fuel', c :: s' => searchFrom r (mkState (S (pos st)) (Some c) s') fuel'
      | _, _ => None
      end
  end.

Definition stateAt (s : JsString) (i : nat) : MState :=
  mkState i (last (take i s)) (drop i s).

(** [re.exec(s)] with [lastIndex = from]. *)
Definition exec (r : Re) (s : JsString) (from : nat) : option Match :=
  if Nat.ltb (length s) from then None
  else searchFrom r (stateAt s from) (length s - from).

(** [re.test(s)] *)
Definition test (r : Re) (s : JsString) : bool :=
  match exec r s 0 with Some _ => true | None => false end.

(** All matches of a global regular expression, left to right; after an
    empty match the search resumes one code unit further. *)
Fixpoint matchAllFrom (r : Re) (s : JsString) (from fuel : nat) : list Match :=
  match fuel with
  | O => []
  | S fuel' =>
      match exec r s from with
      | None => []
      | Some m =>
          m :: matchAllFrom r s
                 (if Nat.eqb (m_end m) (m_start m) then S (m_end m) else m_end m)
                 fuel'
      end
  end.

(** [s.matchAll(re)] for a regular expression with the [g] flag. *)
Definition matchAll (r : Re) (s : JsString) : list Match :=
  matchAllFrom r s 0 (S (length s)).

Definition substring (s : JsString) (from to : nat) : JsString :=
  take (to - from) (drop from s).

(** [match[0]] *)
Definition matched (s : JsString) (m : Match) : JsString :=
  substring s (m_start m) (m_end m).

Fixpoint lookupCap (i : nat) (caps : Caps) : option (nat * nat) :=
  match caps with
  | [] => None
  | (j, se) :: caps' => if Nat.eqb i j then Some se else lookupCap i caps'
  end.

(** [match[i]]; [None] is [undefined]. *)
Definition group (s : JsString) (m : Match) (i : nat) : option JsString :=
  match lookupCap i (m_caps m) with
  | Some (b, e) => Some (substring s b e)
  | None => None
  end.

(** [s.replace(re, fn)] for a global [re]: the matches are collected
    first and [fn] is then called on each, left to right; the text
    between the matches is copied. An exception of [fn] propagates. *)
Fixpoint replaceLoop (s : JsString) (ms : list Match) (cur : nat)
    (fn : Match -> Outcome JsString) : Outcome JsString :=
  match ms with
  | [] => Returns (drop cur s)
  | m :: ms' =>
      rep ← fn m;
      tl ← replaceLoop s ms' (m_end m) fn;
      Returns (substring s cur (m_start m) ++ rep ++ tl)
  end.

Definition replaceAll (r : Re) (s : JsString) (fn : Match -> Outcome JsString)
  : Outcome JsString :=
  replaceLoop s (matchAll r s) 0 fn.

(** [s.replace(re, text)] for a global [re] and a replacement text
    without [$] patterns. *)
Definition replaceAllWith (r : Re) (s : JsString) (text : JsString) : JsString :=
  match replaceAll r s (fun _ => Returns text) with
  | Returns t => t
  | Throws _ => s
  end.

(** [s.split(re)] for a non-empty [s] and a [re] without groups: at
    each position [q] the pattern is tried at [q] exactly; a match that
    ends at the start [p] of the current piece is passed over. *)
Fixpoint splitLoop (r : Re) (s : JsString) (p q fuel : nat) : list JsString :=
  match fuel with
  | O => [drop p s]
  | S fuel' =>
      if Nat.leb (length s) q then [drop p s]
      else match matchAt r (stateAt s q) with
           | Some m =>
               if Nat.eqb (m_end m) p then splitLoop r s p (S q) fuel'
               else substring s p q :: splitLoop r s (m_end m) (m_end m) fuel'
           | None => splitLoop r s p (S q) fuel'
           end
  end.

Definition split (r : Re) (s : JsString) : list JsString :=
  match s with
  | [] => match matchAt r (stateAt s 0) with Some _ => [] | None => [[]] end
  | _ => splitLoop r s 0 0 (S (length s))
  end.

(** The position reached from [st] after reading the code units
    [w]. *)
Fixpoint advance (st : MState) (w : JsString) : MState :=
  match w with
  | [] => st
  | c :: w' => advance (mkState (S (pos st)) (Some c) (tail (rest st))) w'
  end.

(** No character predicate of the pattern accepts the code unit [c]. *)
Fixpoint rejects (c : N) (r : Re) : bool :=
  match r with
  | RChar p => negb (p c)
  | RSeq a b | RAlt a b => rejects c a && rejects c b
  | RStar _ a | RGroup _ a => rejects c a
  | REmpty | RBol | REol | RWordBoundary => true
  end.

(** *** Pattern constructors *)

Definition lit (c : N) : Re := RChar (N.eqb c).

(** A letter under the [i] flag. *)
Definition litCI (c : N) : Re :=
  RChar (fun x => N.eqb (Str.upperChar x) (Str.upperChar c)).

Fixpoint seqOf (rs : list Re) : Re :=
  match rs with
  | [] => REmpty
  | [r] => r
  | r :: rs' => RSeq r (seqOf rs')
  end.

Definition str (s : string) : Re := seqOf (map lit (js s)).
Definition strCI (s : string) : Re := seqOf (map litCI (js s)).

Definition star (a : Re) : Re := RStar true a.
Definition lazyStar (a : Re) : Re := RStar false a.
Definition plus (a : Re) : Re := RSeq a (RStar true a).
Definition opt (a : Re) : Re := RAlt a REmpty.

(** [\s], [\w], [[\w-]], [[\s\S]] *)
Definition space : Re := RChar Str.isWhiteSpace.
Definition word : Re := RChar Str.isWord.
Definition wordOrDash : Re := RChar (fun c => Str.isWord c || N.eqb c 45).
Definition anyChar : Re := RChar (fun _ => true).

End Regex.

(** ** JavaScript values of a render context *)

Inductive JsValue :=
| VUndefined
| VNull
| VBool (b : bool)
| VNumber (n : Z)
| VString (s : JsString)
| VBigInt (n : Z)
| VSymbol
| VFunction
| VDate (iso : JsString)
| VArray (items : list JsValue)
| VObject (props : list (JsString * JsValue)).

(** A plain object: its own properties in enumeration order. *)
Abbreviation JsObject := (list (JsString * JsValue)).

Module Js.

(** [obj[key] = v] on a plain object, and [Map.prototype.set]: an
    existing key keeps its place, a new one goes last. *)
Fixpoint assocSet {V} (key : JsString) (v : V) (l : list (JsString * V))
  : list (JsString * V) :=
  match l with
  | [] => [(key, v)]
  | (k, x) :: l' =>
      if bool_decide (k = key) then (k, v) :: l'
      else (k, x) :: assocSet key v l'
  end.

Fixpoint assocGet {V} (key : JsString) (l : list (JsString * V)) : option V :=
  match l with
  | [] => None
  | (k, x) :: l' => if bool_decide (k = key) then Some x else assocGet key l'
  end.

(** [String(n)] for an integer [n] (of magnitude below [10^21]). *)
Definition numberToString (n : Z) : JsString :=
  js (NilEmpty.string_of_int (Z.to_int n)).

Definition hexDigit (d : N) : N :=
  (if d <? 10 then 48 + d else 87 + d)%N.

(** [\uXXXX] with lower-case hexadecimal digits. *)
Definition unicodeEscape (c : N) : JsString :=
  [92; 117;
   hexDigit ((c / 4096) mod 16); hexDigit ((c / 256) mod 16);
   hexDigit ((c / 16) mod 16); hexDigit (c mod 16)]%N.

Definition isLeadSurrogate (c : N) : bool := (N.leb 55296 c && N.leb c 56319)%N.
Definition isTrailSurrogate (c : N) : bool := (N.leb 56320 c && N.leb c 57343)%N.

(** The body of [QuoteJSONString]. *)
Fixpoint quoteChars (s : JsString) : JsString :=
  match s with
  | [] => []
  | c :: s' =>
      if N.eqb c 8 then js "\b" ++ quoteChars s'
      else if N.eqb c 9 then js "\t" ++ quoteChars s'
      else if N.eqb c 10 then js "\n" ++ quoteChars s'
      else if N.eqb c 12 then js "\f" ++ quoteChars s'
      else if N.eqb c 13 then js "\r" ++ quoteChars s'
      else if N.eqb c 34 then [92; 34]%N ++ quoteChars s'
      else if N.eqb c 92 then [92; 92]%N ++ quoteChars s'
      else if N.ltb c 32 then unicodeEscape c ++ quoteChars s'
      else if isLeadSurrogate c then
        match s' with
        | d :: s'' =>
            if isTrailSurrogate d then c :: d :: quoteChars s''
            else unicodeEscape c ++ quoteChars s'
        | [] => unicodeEscape c
        end
      else if isTrailSurrogate c then unicodeEscape c ++ quoteChars s'
      else c :: quoteChars s'
  end.

Definition quoteJSONString (s : JsString) : JsString :=
  [34%N] ++ quoteChars s ++ [34%N].

(** [JSON.stringify(v)]: [Returns None] is the result [undefined];
    a [BigInt] anywhere in the value is a [TypeError]. A date
    serializes through its [toJSON] as its ISO text. *)
Fixpoint stringify (v : JsValue) : Outcome (option JsString) :=
  match v with
  | VUndefined | VSymbol | VFunction => Returns None
  | VNull => Returns (Some (js "null"))
  | VBool b => Returns (Some (if b then js "true" else js "false"))
  | VNumber n => Returns (Some (numberToString n))
  | VString s => Returns (Some (quoteJSONString s))
  | VBigInt _ => Throws (js "TypeError: Do not know how to serialize a BigInt")
  | VDate iso => Returns (Some (quoteJSONString iso))
  | VArray items =>
      parts ← (fix elements (l : list JsValue) : Outcome (list JsString) :=
                 match l with
                 | [] => Returns []
                 | x :: l' =>
                     p ← stringify x;
                     ps ← elements l';
                     Returns (default (js "null") p :: ps)
                 end) items;
      Returns (Some (js "[" ++ Str.join (js ",") parts ++ js "]"))
  | VObject props =>
      parts ← (fix members (l : JsObject) : Outcome (list JsString) :=
                 match l with
                 | [] => Returns []
                 | (k, x) :: l' =>
                     p ← stringify x;
                     ps ← members l';
                     Returns (match p with
                              | Some t => (quoteJSONString k ++ js ":" ++ t) :: ps
                              | None => ps
                              end)
                 end) props;
      Returns (Some (js "{" ++ Str.join (js ",") parts ++ js "}"))
  end.


(** [typeof v === 'object'] (for a [v] that is not [null]) *)
Definition isObjectType (v : JsValue) : bool :=
  match v with
  | VDate _ | VArray _ | VObject _ => true
  | _ => false
  end.

(** The text of a canonical array index: decimal digits without a
    leading zero. *)
Fixpoint digitsValue (s : JsString) (acc : nat) : option nat :=
  match s with
  | [] => Some acc
  | c :: s' =>
      if Str.isDigit c then digitsValue s' (10 * acc + N.to_nat (c - 48))
      else None
  end.

Definition parseIndex (s : JsString) : option nat :=
  match s with
  | [] => None
  | [c] => digitsValue [c] 0
  | c :: _ => if N.eqb c 48 then None else digitsValue s 0
  end.

(** The names every plain object inherits from [Object.prototype]. *)
Definition objectPrototypeMethods : list JsString :=
  [js "constructor"; js "hasOwnProperty"; js "isPrototypeOf";
   js "propertyIsEnumerable"; js "toLocaleString"; js "toString";
   js "valueOf"; js "__defineGetter__"; js "__defineSetter__";
   js "__lookupGetter__"; js "__lookupSetter__"].

(** [current[part]] for a [current] that is neither [null] nor
    [undefined]. Modelled: the own properties of a plain object and what
    it inherits from [Object.prototype]; the indices and the [length] of
    an array and of a string. The methods that the other values inherit
    from their prototypes are not part of this development: the lookup
    answers [undefined] for them. *)
Definition getProperty (current : JsValue) (part : JsString) : JsValue :=
  match current with
  | VObject props =>
      match assocGet part props with
      | Some v => v
      | None =>
          if bool_decide (part ∈ objectPrototypeMethods) then VFunction
          else if bool_decide (part = js "__proto__") then VObject []
          else VUndefined
      end
  | VArray items =>
      if bool_decide (part = js "length") then VNumber (Z.of_nat (length items))
      else match parseIndex part with
           | Some i => default VUndefined (items !! i)
           | None => VUndefined
           end
  | VString s =>
      if bool_decide (part = js "length") then VNumber (Z.of_nat (length s))
      else match parseIndex part with
           | Some i => match s !! i with
                       | Some c => VString [c]
                       | None => VUndefined
                       end
           | None => VUndefined
           end
  | _ => VUndefined
  end.

(** [s.split('.')] *)
Fixpoint splitDots (s : JsString) (cur : JsString) : list JsString :=
  match s with
  | [] => [cur]
  | c :: s' => if N.eqb c 46 then cur :: splitDots s' []
               else splitDots s' (cur ++ [c])
  end.

End Js.

(** ** Fragments and sections (types.ts, section.ts) *)

Module FragmentMetadata.
Record t := mk {
  description : option JsString;
  author : option JsString;
  tags : option (list JsString);
  deprecated : option bool;
  supersededBy : option JsString
}.
End FragmentMetadata.

Module FragmentDefinition.
Record t := mk {
  id : JsString;
  version : JsString;
  content : JsString;
  metadata : option FragmentMetadata.t;
  sourceFile : option JsString;
  sourceLine : option Z
}.
End FragmentDefinition.

(** The context of a render: a plain object. *)
Abbreviation RenderContext := JsObject.

(** A generator of a dynamic section: called with the context, it
    returns (or resolves to) a text, or throws (or rejects). *)
Abbreviation DynamicContent := (RenderContext -> Outcome JsString).

(** [FragmentDefinition | DynamicContent | string] *)
Inductive SectionContent :=
| CFragment (f : FragmentDefinition.t)
| CDynamic (g : DynamicContent)
| CString (s : JsString).

Module SectionConfig.
Record t := mk {
  type : SectionType;
  name : option JsString;
  priority : Z;
  cacheable : bool;
  truncatable : bool;
  maxTokens : option Z;
  content : SectionContent
}.
End SectionConfig.

Module RenderedSection.
Record t := mk {
  type : SectionType;
  name : option JsString;
  content : JsString;
  priority : Z;
  cacheable : bool;
  sourceMapping : SourceMapping
}.
End RenderedSection.

(** The text of a section type, as the string the source uses for it. *)
Definition sectionTypeName (t : SectionType) : JsString :=
  match t with
  | TIdentity => js "identity"
  | TCapabilities => js "capabilities"
  | TConstraints => js "constraints"
  | TContext => js "context"
  | TDomain => js "domain"
  | TTools => js "tools"
  | TFormat => js "format"
  | TExamples => js "examples"
  | TCustom => js "custom"
  end.

Module Sections.

Definition DEFAULT_PRIORITIES (t : SectionType) : Z :=
  match t with
  | TIdentity => 0
  | TCapabilities => 10
  | TConstraints => 20
  | TDomain => 30
  | TTools => 40
  | TContext => 50
  | TExamples => 60
  | TFormat => 70
  | TCustom => 50
  end.

Definition DEFAULT_CACHEABLE (t : SectionType) : bool :=
  match t with
  | TContext => false
  | _ => true
  end.

(** [Section.create(type, content)] without options. *)
Definition create (t : SectionType) (c : SectionContent) : SectionConfig.t :=
  SectionConfig.mk t None (DEFAULT_PRIORITIES t) (DEFAULT_CACHEABLE t) false
    None c.

Definition identity (text : JsString) : SectionConfig.t :=
  create TIdentity (CString text).
Definition constraints (text : JsString) : SectionConfig.t :=
  create TConstraints (CString text).
Definition format (text : JsString) : SectionConfig.t :=
  create TFormat (CString text).

(** [Section.context(dynamicFn)] without options. *)
Definition context (g : DynamicContent) : SectionConfig.t :=
  SectionConfig.mk TContext None (DEFAULT_PRIORITIES TContext) false false
    None (CDynamic g).

(** [Section.custom(name, content)] without options. *)
Definition custom (name : JsString) (c : SectionContent) : SectionConfig.t :=
  match c with
  | CDynamic g =>
      SectionConfig.mk TCustom (Some name) (DEFAULT_PRIORITIES TCustom) false
        false None (CDynamic g)
  | _ =>
      SectionConfig.mk TCustom (Some name) (DEFAULT_PRIORITIES TCustom)
        (DEFAULT_CACHEABLE TCustom) false None c
  end.

Definition isDynamic (s : SectionConfig.t) : bool :=
  match SectionConfig.content s with
  | CDynamic _ => true
  | _ => false
  end.

(** [Section.getFragment]: a plain text counts as the anonymous
    fragment of its section type. *)
Definition getFragment (s : SectionConfig.t) : option FragmentDefinition.t :=
  match SectionConfig.content s with
  | CDynamic _ => None
  | CString text =>
      Some (FragmentDefinition.mk
              (js "anonymous-" ++ sectionTypeName (SectionConfig.type s))
              (js "1.0.0") text None None None)
  | CFragment f => Some f
  end.

End Sections.

(** ** Model capabilities and token counts: the collaborators *)

Inductive PreferredFormat := FXml | FMarkdown | FPlain.

Module ModelConfig.
Record t := mk {
  contextWindow : Z;
  preferredFormat : PreferredFormat;
  supportsCaching : bool
}.
End ModelConfig.

(** What a render takes from outside the core: the capability lookup
    [getModelConfig(modelId)], the token counter [countTokens(text,
    modelId)] and the clock ([now] is the ISO text of [new Date()]).
    They are black boxes to the render pipeline and stay abstract. *)
Record Services := mkServices {
  getModelConfig : JsString -> ModelConfig.t;
  countTokens : JsString -> JsString -> Z;
  now : JsString
}.

(** ** Formatters (format/xml.ts, format/markdown.ts, format/plain.ts) *)

(** The [Formatter] interface. *)
Record Formatter := mkFormatter {
  format : list RenderedSection.t -> JsString;
  formatSection : RenderedSection.t -> JsString
}.

(** [section.type === 'custom' && section.name]: the name, when the
    section is custom and its name is not the empty string. *)
Definition customName (s : RenderedSection.t) : option JsString :=
  match RenderedSection.type s, RenderedSection.name s with
  | TCustom, Some (c :: n) => Some (c :: n)
  | _, _ => None
  end.

Module XmlFormatter.
Import Regex.

Definition SECTION_TAGS (t : SectionType) : JsString :=
  match t with
  | TCustom => js "section"
  | _ => sectionTypeName t
  end.

(** [[^a-z0-9_.-]] *)
Definition notTagChar : Re :=
  RChar (fun c => negb (Str.isLowerAscii c || Str.isDigit c || N.eqb c 95 ||
                        N.eqb c 46 || N.eqb c 45)).

Definition sanitizeTagName (name : JsString) : JsString :=
  let s1 := replaceAllWith notTagChar (Str.toLowerCase name) (js "-") in
  let s2 := replaceAllWith (plus (lit 45)) s1 (js "-") in
  let s3 := replaceAllWith (RAlt (RSeq RBol (lit 45)) (RSeq (lit 45) REol)) s2 [] in
  let sanitized :=
    if test (RSeq RBol (RChar (fun c => Str.isLowerAscii c || Str.isUpperAscii c
                                        || N.eqb c 95))) s3
    then s3 else js "_" ++ s3 in
  match sanitized with
  | [] => js "section"
  | _ => sanitized
  end.

Definition getTagName (s : RenderedSection.t) : JsString :=
  match customName s with
  | Some n => sanitizeTagName n
  | None => SECTION_TAGS (RenderedSection.type s)
  end.

Definition formatSection (s : RenderedSection.t) : JsString :=
  let tagName := getTagName s in
  let content := Str.trim (RenderedSection.content s) in
  match content with
  | [] => js "<" ++ tagName ++ js "></" ++ tagName ++ js ">"
  | _ =>
      if negb (Str.includes content [LF]) && (jsLength content <? 80) then
        js "<" ++ tagName ++ js ">" ++ content ++ js "</" ++ tagName ++ js ">"
      else
        js "<" ++ tagName ++ js ">" ++ [LF] ++ content ++ [LF] ++
        js "</" ++ tagName ++ js ">"
  end.

Definition format (sections : list RenderedSection.t) : JsString :=
  Str.join [LF; LF] (map formatSection sections).

Definition formatter : Formatter := mkFormatter format formatSection.

End XmlFormatter.

Module MarkdownFormatter.
Import Regex.

Definition SECTION_HEADERS (t : SectionType) : JsString :=
  match t with
  | TIdentity => js "Identity"
  | TCapabilities => js "Capabilities"
  | TConstraints => js "Constraints"
  | TContext => js "Context"
  | TDomain => js "Domain Knowledge"
  | TTools => js "Available Tools"
  | TFormat => js "Output Format"
  | TExamples => js "Examples"
  | TCustom => js "Section"
  end.

(** [[-_]] *)
Definition dashOrUnderscore : Re := RChar (fun c => N.eqb c 45 || N.eqb c 95).

Definition toTitleCase (s : JsString) : JsString :=
  let s1 := replaceAllWith dashOrUnderscore s (js " ") in
  match replaceAll (RSeq RWordBoundary word) s1
          (fun m => Returns (Str.toUpperCase (matched s1 m))) with
  | Returns t => t
  | Throws _ => s1
  end.

Definition getHeader (s : RenderedSection.t) : JsString :=
  match customName s with
  | Some n => toTitleCase n
  | None => SECTION_HEADERS (RenderedSection.type s)
  end.

Definition formatSection (headerLevel : nat) (s : RenderedSection.t) : JsString :=
  let header := getHeader s in
  let content := Str.trim (RenderedSection.content s) in
  let headerPrefix := repeat 35%N headerLevel in
  match content with
  | [] => headerPrefix ++ js " " ++ header
  | _ => headerPrefix ++ js " " ++ header ++ [LF; LF] ++ content
  end.

Definition format (headerLevel : nat) (sections : list RenderedSection.t)
  : JsString :=
  Str.join [LF; LF] (map (formatSection headerLevel) sections).

(** [createMarkdownFormatter(headerLevel)], [2] by default. *)
Definition formatter (headerLevel : nat) : Formatter :=
  mkFormatter (format headerLevel) (formatSection headerLevel).

End MarkdownFormatter.

Module PlainFormatter.
Import Regex.

Definition SECTION_LABELS (t : SectionType) : JsString :=
  match t with
  | TIdentity => js "IDENTITY"
  | TCapabilities => js "CAPABILITIES"
  | TConstraints => js "CONSTRAINTS"
  | TContext => js "CONTEXT"
  | TDomain => js "DOMAIN"
  | TTools => js "TOOLS"
  | TFormat => js "OUTPUT FORMAT"
  | TExamples => js "EXAMPLES"
  | TCustom => js "SECTION"
  end.

Definition getLabel (s : RenderedSection.t) : JsString :=
  match customName s with
  | Some n =>
      replaceAllWith MarkdownFormatter.dashOrUnderscore (Str.toUpperCase n)
        (js " ")
  | None => SECTION_LABELS (RenderedSection.type s)
  end.

Definition formatSection (includeLabels : bool) (s : RenderedSection.t)
  : JsString :=
  let content := Str.trim (RenderedSection.content s) in
  if negb includeLabels then content
  else
    let label := getLabel s in
    match content with
    | [] => js "[" ++ label ++ js "]"
    | _ => js "[" ++ label ++ js "]" ++ [LF] ++ content
    end.

Definition format (separator : JsString) (includeLabels : bool)
    (sections : list RenderedSection.t) : JsString :=
  Str.join ([LF; LF] ++ separator ++ [LF; LF])
    (map (formatSection includeLabels) sections).

(** [createPlainFormatter(options)]; the separator is ["---"] and the
    labels are included by default. *)
Definition formatter (separator : JsString) (includeLabels : bool) : Formatter :=
  mkFormatter (format separator includeLabels) (formatSection includeLabels).

End PlainFormatter.

(** [createFormatter(format)] (format/index.ts) *)
Definition createFormatter (f : PreferredFormat) : Formatter :=
  match f with
  | FXml => XmlFormatter.formatter
  | FMarkdown => MarkdownFormatter.formatter 2
  | FPlain => PlainFormatter.formatter (js "---") true
  end.

(** [getFormatterForModel(modelId)] *)
Definition getFormatterForModel (env : Services) (modelId : JsString)
  : Formatter :=
  match ModelConfig.preferredFormat (getModelConfig env modelId) with
  | FXml => XmlFormatter.formatter
  | FMarkdown => MarkdownFormatter.formatter 2
  | FPlain => PlainFormatter.formatter (js "---") true
  end.

(** ** Prompt (prompt.ts) *)

Module PromptOptions.
Record t := mk {
  maxTokens : option Z;
  cacheOptimize : option bool;
  formatForModel : option bool;
  format : option PreferredFormat
}.
(** [{}] *)
Definition empty : t := mk None None None None.
(** [{ ...a, ...b }]: a key that [b] has wins. An option is either
    absent or has a value here; a key that is present with the value
    [undefined] is not part of the embedding. *)
Definition merge (a b : t) : t :=
  mk (match maxTokens b with Some x => Some x | None => maxTokens a end)
     (match cacheOptimize b with Some x => Some x | None => cacheOptimize a end)
     (match formatForModel b with Some x => Some x | None => formatForModel a end)
     (match format b with Some x => Some x | None => format a end).

End PromptOptions.

Module FragmentReference.
Record t := mk {
  id : JsString;
  version : JsString;
  sectionType : SectionType;
  sectionIndex : Z
}.
End FragmentReference.

(** [PromptMetadata]. Its [warnings] field (the quick checks of
    [Prompt.lint] and the token percentage, which is floating-point
    arithmetic) is not part of the embedding. *)
Module PromptMetadata.
Record t := mk {
  name : JsString;
  model : JsString;
  tokenCount : Z;
  tokensBySection : gmap JsString Z;
  sourceMap : SourceMapData;
  cacheablePrefix : Z;
  cacheableTokens : Z;
  fragments : list FragmentReference.t
}.
End PromptMetadata.

Module CompiledPrompt.
Record t := mk {
  text : JsString;
  meta : PromptMetadata.t
}.
End CompiledPrompt.

Module Prompt.
Import Regex.

Record t := mk {
  name : JsString;
  model : JsString;
  sections : list SectionConfig.t;
  options : PromptOptions.t
}.

(** The placeholder pattern of [interpolate]: two opening braces, the
    key (an optional dollar sign, a word, then any number of dotted
    words) as group 1, two closing braces; global. *)
Definition placeholder : Re :=
  seqOf [str "{{";
         RGroup 1 (seqOf [opt (lit 36); plus word;
                          star (RSeq (lit 46) (plus word))]);
         str "}}"].

(** [getNestedValue(obj, path)] *)
Fixpoint walkPath (current : JsValue) (parts : list JsString) : JsValue :=
  match parts with
  | [] => current
  | part :: parts' =>
      match current with
      | VNull | VUndefined => VUndefined
      | _ => walkPath (Js.getProperty current part) parts'
      end
  end.

Definition getNestedValue (obj : JsObject) (path : JsString) : JsValue :=
  walkPath (VObject obj) (Js.splitDots path []).

(** The replacer of [interpolate]: what one placeholder becomes. *)
Definition replacePlaceholder (context : RenderContext) (content : JsString)
    (m : Match) : Outcome JsString :=
  let key := default [] (group content m 1) in
  let value := getNestedValue context key in
  match value with
  | VUndefined => Returns (matched content m)
  | VNull => Returns (js "null")
  | VString s => Returns s
  | VNumber n => Returns (Js.numberToString n)
  | VBool b => Returns (if b then js "true" else js "false")
  | _ =>
      r ← Js.stringify value;
      Returns (default (js "undefined") r)
  end.

Definition interpolate (content : JsString) (context : RenderContext)
  : Outcome JsString :=
  replaceAll placeholder content (replacePlaceholder context content).

Definition resolveContent (content : SectionContent) (context : RenderContext)
  : Outcome JsString :=
  match content with
  | CDynamic g => g context
  | CString s => interpolate s context
  | CFragment f => interpolate (FragmentDefinition.content f) context
  end.

(** One turn of the loop of [resolveSections]. *)
Definition resolveSection (i : Z) (section : SectionConfig.t)
    (context : RenderContext) : Outcome RenderedSection.t :=
  content ← resolveContent (SectionConfig.content section) context;
  let fragment := Sections.getFragment section in
  Returns
    (RenderedSection.mk (SectionConfig.type section) (SectionConfig.name section)
       content (SectionConfig.priority section) (SectionConfig.cacheable section)
       {| output := mkOutput 0 0 0 0;
          source :=
            {| type := if Sections.isDynamic section then SDynamic else SFragment;
               fragmentId := FragmentDefinition.id <$> fragment;
               fragmentVersion := FragmentDefinition.version <$> fragment;
               sectionType := Some (SectionConfig.type section);
               sectionIndex := Some i;
               file := fragment ≫= FragmentDefinition.sourceFile;
               fileLine := fragment ≫= FragmentDefinition.sourceLine;
               fileColumn := None;
               dynamicKey := None |} |}).

(** [resolveSections]: the sections are resolved one after the other,
    in their order; the first failure ends the loop. *)
Fixpoint resolveSectionsFrom (i : Z) (sections : list SectionConfig.t)
    (context : RenderContext) : Outcome (list RenderedSection.t) :=
  match sections with
  | [] => Returns []
  | section :: rest =>
      r ← resolveSection i section context;
      rs ← resolveSectionsFrom (i + 1) rest context;
      Returns (r :: rs)
  end.

Definition resolveSections (p : t) (context : RenderContext)
  : Outcome (list RenderedSection.t) :=
  resolveSectionsFrom 0 (sections p) context.

(** [Array.prototype.sort] with the comparator
    [(a, b) => a.priority - b.priority]: the sort is stable, so for
    integer priorities its result is the one of this insertion sort,
    which puts a section before the first section of the sorted rest
    whose priority is not smaller. *)
Fixpoint insertByPriority (x : RenderedSection.t) (l : list RenderedSection.t)
  : list RenderedSection.t :=
  match l with
  | [] => [x]
  | y :: l' =>
      if RenderedSection.priority x <=? RenderedSection.priority y
      then x :: y :: l'
      else y :: insertByPriority x l'
  end.

Definition sortByPriority (l : list RenderedSection.t) : list RenderedSection.t :=
  foldr insertByPriority [] l.

(** Ascending priority. *)
Definition byPriority (a b : RenderedSection.t) : Prop :=
  RenderedSection.priority a <= RenderedSection.priority b.

Definition optimizeForCaching (sections : list RenderedSection.t)
  : list RenderedSection.t :=
  let cacheable := List.filter RenderedSection.cacheable sections in
  let nonCacheable :=
    List.filter (fun s => negb (RenderedSection.cacheable s)) sections in
  sortByPriority cacheable ++ sortByPriority nonCacheable.

(** The mapping that [buildSourceMap] adds for a section found at
    [[sectionStart, sectionEnd)]. *)
Definition addSectionMapping (sm : SourceMap.SourceMap)
    (section : RenderedSection.t) (i sectionStart sectionEnd : Z)
  : SourceMap.SourceMap :=
  let src := source (RenderedSection.sourceMapping section) in
  match type src with
  | SDynamic =>
      SourceMap.addDynamicMapping sm
        (SourceMap.mkDynamicOptions sectionStart sectionEnd
           (RenderedSection.type section) i None)
  | _ =>
      match fragmentId src with
      | Some (c :: fid) =>
          SourceMap.addFragmentMapping sm
            (SourceMap.mkFragmentOptions sectionStart sectionEnd (c :: fid)
               (default (js "1.0.0") (fragmentVersion src))
               (RenderedSection.type section) i (file src) (fileLine src))
      | _ =>
          SourceMap.addLiteralMapping sm sectionStart sectionEnd
            (RenderedSection.type section) i
      end
  end.

(** The loop of [buildSourceMap]: [i] is the index of the head of
    [sections], [offset] the end of the previous match. *)
Fixpoint buildSourceMapFrom (text : JsString) (sections : list RenderedSection.t)
    (i offset : Z) (sm : SourceMap.SourceMap) : SourceMap.SourceMap :=
  match sections with
  | [] => sm
  | section :: rest =>
      let sectionStart :=
        Str.indexOf text (RenderedSection.content section) offset in
      if sectionStart =? -1 then buildSourceMapFrom text rest (i + 1) offset sm
      else
        let sectionEnd := sectionStart + jsLength (RenderedSection.content section) in
        buildSourceMapFrom text rest (i + 1) sectionEnd
          (addSectionMapping sm section i sectionStart sectionEnd)
  end.

(** The texts [cs] occur in [text] one after the other, in their
    order, without overlap. *)
Fixpoint occursInOrder (text : JsString) (cs : list JsString) : Prop :=
  match cs with
  | [] => True
  | c :: cs' => exists pre post, text = pre ++ c ++ post /\ occursInOrder post cs'
  end.

Definition buildSourceMap (p : t) (text : JsString)
    (sections : list RenderedSection.t) : SourceMap.SourceMap :=
  buildSourceMapFrom text sections 0 0
    (SourceMap.setRenderedText (SourceMap.new (name p)) text).

(** The order the sections are assembled in: the cache-aware order,
    unless the option [cacheOptimize] is [false]. *)
Definition orderSections (p : t) (resolved : list RenderedSection.t)
  : list RenderedSection.t :=
  match PromptOptions.cacheOptimize (options p) with
  | Some false => resolved
  | _ => optimizeForCaching resolved
  end.

Section WithServices.
Variable env : Services.

(** [section.name ?? section.type] *)
Definition sectionKey (s : RenderedSection.t) : JsString :=
  default (sectionTypeName (RenderedSection.type s)) (RenderedSection.name s).

Definition tokensBySectionOf (p : t) (sections : list RenderedSection.t)
  : gmap JsString Z :=
  fold_left
    (fun acc s =>
       let sectionTokens := countTokens env (RenderedSection.content s) (model p) in
       let key := sectionKey s in
       <[key := default 0 (acc !! key) + sectionTokens]> acc)
    sections ∅.

(** The loop that sums the cacheable prefix: it stops at the first
    section that is not cacheable. *)
Fixpoint cacheablePrefixOf (tokens : gmap JsString Z)
    (sections : list RenderedSection.t) (prefix toks : Z) : Z * Z :=
  match sections with
  | [] => (prefix, toks)
  | s :: rest =>
      if RenderedSection.cacheable s then
        cacheablePrefixOf tokens rest
          (prefix + jsLength (RenderedSection.content s) + 4)
          (toks + default 0 (tokens !! sectionKey s))
      else (prefix, toks)
  end.

Fixpoint fragmentReferencesFrom (i : Z) (sections : list SectionConfig.t)
  : list FragmentReference.t :=
  match sections with
  | [] => []
  | s :: rest =>
      match Sections.getFragment s with
      | Some f =>
          FragmentReference.mk (FragmentDefinition.id f)
            (FragmentDefinition.version f) (SectionConfig.type s) i
          :: fragmentReferencesFrom (i + 1) rest
      | None => fragmentReferencesFrom (i + 1) rest
      end
  end.

Definition buildMetadata (p : t) (text : JsString)
    (rendered : list RenderedSection.t) (sm : SourceMap.SourceMap)
  : PromptMetadata.t :=
  let tokenCount := countTokens env text (model p) in
  let tokensBySection := tokensBySectionOf p rendered in
  let '(cacheablePrefix, cacheableTokens) :=
    cacheablePrefixOf tokensBySection rendered 0 0 in
  PromptMetadata.mk (name p) (model p) tokenCount tokensBySection
    (SourceMap.toJSON sm) cacheablePrefix cacheableTokens
    (fragmentReferencesFrom 0 (sections p)).

(** The context of a render: the caller's, with [$model], [$now] and
    [$tokenBudget] set. *)
Definition enrich (p : t) (context : RenderContext) : RenderContext :=
  Js.assocSet (js "$tokenBudget")
    (VNumber (default (ModelConfig.contextWindow (getModelConfig env (model p)))
                (PromptOptions.maxTokens (options p))))
    (Js.assocSet (js "$now") (VDate (now env))
       (Js.assocSet (js "$model") (VString (model p)) context)).

(** The formatter a render uses. *)
Definition formatterOf (p : t) : list RenderedSection.t -> JsString :=
  match PromptOptions.formatForModel (options p) with
  | Some false =>
      fun sections => Str.join [LF; LF] (map RenderedSection.content sections)
  | _ =>
      match PromptOptions.format (options p) with
      | Some f => format (createFormatter f)
      | None => format (getFormatterForModel env (model p))
      end
  end.

(** [render(context)] *)
Definition render (p : t) (context : RenderContext)
  : Outcome CompiledPrompt.t :=
  let enrichedContext := enrich p context in
  resolvedSections ← resolveSections p enrichedContext;
  let orderedSections := orderSections p resolvedSections in
  let text := formatterOf p orderedSections in
  let sourceMap := buildSourceMap p text orderedSections in
  let meta := buildMetadata p text orderedSections sourceMap in
  Returns (CompiledPrompt.mk text meta).

End WithServices.

End Prompt.

(** ** Lint findings (types.ts) *)

Inductive LintSeverity := SevError | SevWarning | SevInfo.

#[global] Instance LintSeverity_eq_dec : EqDecision LintSeverity.
Proof. solve_decision. Defined.

(** [LintCategory]. [CatInherited name] stands for the value that the
    lookup [CATEGORY_MAP[name]] of the semantic parser yields when
    [name] is a member of [Object.prototype]: not a category, and not
    [undefined] either. *)
Inductive LintCategory :=
| CatContradiction | CatAmbiguity | CatModelMismatch | CatCacheInefficiency
| CatTokenBudget | CatOrdering | CatDuplication | CatDeprecated
| CatSecurity | CatBestPractice
| CatInherited (name : JsString).

#[global] Instance LintCategory_eq_dec : EqDecision LintCategory.
Proof. solve_decision. Defined.

Module LintWarning.
Record t := mk {
  id : JsString;
  category : LintCategory;
  severity : LintSeverity;
  message : JsString;
  position : option Output;
  fragments : option (list JsString);
  suggestion : option JsString;
  evidence : option JsString
}.

(** [warning.severity = severity] *)
Definition setSeverity (s : LintSeverity) (w : t) : t :=
  mk (id w) (category w) s (message w) (position w) (fragments w)
    (suggestion w) (evidence w).

Definition setSuggestion (x : JsString) (w : t) : t :=
  mk (id w) (category w) (severity w) (message w) (position w) (fragments w)
    (Some x) (evidence w).

Definition setEvidence (x : JsString) (w : t) : t :=
  mk (id w) (category w) (severity w) (message w) (position w) (fragments w)
    (suggestion w) (Some x).
End LintWarning.

#[global] Instance LintWarning_eq_dec : EqDecision LintWarning.t.
Proof. solve_decision. Defined.

(** ** Array searches *)

Module JsArray.

(** [array.findIndex(predicate)]: the index of the first item that
    satisfies the predicate, [-1] when none does. *)
Fixpoint findIndexFrom {A} (P : A -> bool) (l : list A) (i : Z) : Z :=
  match l with
  | [] => -1
  | x :: l' => if P x then i else findIndexFrom P l' (i + 1)
  end.

Definition findIndex {A} (P : A -> bool) (l : list A) : Z :=
  findIndexFrom P l 0.

(** The loop [for (let i = array.length - 1; i >= 0; i--)] that
    returns the first index it meets whose item satisfies the
    predicate, and [-1] after the loop: [back] holds the items from
    index [i] down to the first. *)
Fixpoint findLastIndexFrom {A} (P : A -> bool) (back : list A) (i : Z) : Z :=
  match back with
  | [] => -1
  | x :: back' => if P x then i else findLastIndexFrom P back' (i - 1)
  end.

Definition findLastIndex {A} (P : A -> bool) (l : list A) : Z :=
  findLastIndexFrom P (rev l) (Z.of_nat (length l) - 1).

End JsArray.

(** A section that is not cacheable stands before one that is. *)
Definition dynamicBeforeCacheable (sections : list SectionConfig.t) : Prop :=
  exists pre a mid b post,
    sections = pre ++ a :: mid ++ b :: post /\
    SectionConfig.cacheable a = false /\ SectionConfig.cacheable b = true.

(** ** The other methods of the class [Prompt] (prompt.ts) *)

Module PromptApi.

(** The argument of [extend]. *)
Record Extension := mkExtension {
  ext_name : option JsString;
  ext_sections : option (list SectionConfig.t);
  ext_options : option PromptOptions.t
}.

(** [extend(config)] *)
Definition extend (p : Prompt.t) (config : Extension) : Prompt.t :=
  Prompt.mk
    (default (Prompt.name p ++ js "-extended") (ext_name config))
    (Prompt.model p)
    (Prompt.sections p ++ default [] (ext_sections config))
    (PromptOptions.merge (Prompt.options p)
       (default PromptOptions.empty (ext_options config))).

(** [override(overrides)]: [overrides[section.type] ?? section] for
    each section. *)
Definition override (p : Prompt.t)
    (overrides : SectionType -> option SectionConfig.t) : Prompt.t :=
  Prompt.mk (Prompt.name p) (Prompt.model p)
    (map (fun section => default section (overrides (SectionConfig.type section)))
       (Prompt.sections p))
    (Prompt.options p).

(** The id that [dependencies] pushes for a section: the id of its
    fragment, when it has a fragment and the id is not empty. *)
Definition dependencyOf (section : SectionConfig.t) : option JsString :=
  match Sections.getFragment section with
  | Some f =>
      match FragmentDefinition.id f with
      | [] => None
      | id => Some id
      end
  | None => None
  end.

(** [dependencies()] *)
Definition dependencies (p : Prompt.t) : list JsString :=
  JsSet.ofList (omap dependencyOf (Prompt.sections p)).

(** What the loop over the sections of [lint] pushes for one section:
    a finding when its fragment is marked as deprecated. *)
Definition deprecatedWarning (section : SectionConfig.t) : list LintWarning.t :=
  match Sections.getFragment section with
  | Some f =>
      match FragmentDefinition.metadata f with
      | Some md =>
          match FragmentMetadata.deprecated md with
          | Some true =>
              [LintWarning.mk (js "deprecated-fragment") CatDeprecated SevWarning
                 (js "Fragment '" ++ FragmentDefinition.id f ++ js "' is deprecated.")
                 None (Some [FragmentDefinition.id f])
                 (match FragmentMetadata.supersededBy md with
                  | Some (c :: s) => Some (js "Use '" ++ (c :: s) ++ js "' instead.")
                  | _ => None
                  end)
                 None]
          | _ => []
          end
      | None => []
      end
  | None => []
  end.

(** [lint()]: the quick validation of a prompt, without rendering. *)
Definition lint (p : Prompt.t) : list LintWarning.t :=
  let sections := Prompt.sections p in
  let hasIdentity :=
    existsb (fun s => bool_decide (SectionConfig.type s = TIdentity)) sections in
  let missing :=
    if negb hasIdentity then
      [LintWarning.mk (js "missing-identity") CatBestPractice SevWarning
         (js "No identity section. Agent may lack consistent persona.")
         None None None None]
    else [] in
  let formatIndex :=
    JsArray.findIndex (fun s => bool_decide (SectionConfig.type s = TFormat))
      sections in
  let formatNotLast :=
    if negb (formatIndex =? -1) &&
       negb (formatIndex =? Z.of_nat (length sections) - 1) then
      [LintWarning.mk (js "format-not-last") CatOrdering SevInfo
         (js "Output format instructions work best at the end.")
         None None None None]
    else [] in
  let deprecated := flat_map deprecatedWarning sections in
  let firstDynamicIdx :=
    JsArray.findIndex (fun s => negb (SectionConfig.cacheable s)) sections in
  let lastCacheableIdx := JsArray.findLastIndex SectionConfig.cacheable sections in
  let dynamicBeforeStatic :=
    if negb (firstDynamicIdx =? -1) && negb (lastCacheableIdx =? -1) &&
       (firstDynamicIdx <? lastCacheableIdx) then
      [LintWarning.mk (js "dynamic-before-static") CatCacheInefficiency SevWarning
         (js "Dynamic content before static content reduces cache efficiency.")
         None None None None]
    else [] in
  missing ++ formatNotLast ++ deprecated ++ dynamicBeforeStatic.

End PromptApi.

(** ** JSON.parse

    The grammar of ECMA-404, as [JSON.parse] reads it: a lexer that
    reads the text one code unit at a time, then a pushdown automaton
    over the tokens. [None] is the [SyntaxError]. *)

Inductive Json :=
| JNull
| JBool (b : bool)
| JNumber (lexeme : JsString)
| JString (s : JsString)
| JArray (items : list Json)
| JObject (members : list (JsString * Json)).

Module JSON.
Import Regex.

Inductive Token :=
| TLBrace | TRBrace | TLBracket | TRBracket | TColon | TComma
| TString (s : JsString)
| TNumber (lexeme : JsString)
| TTrue | TFalse | TNull.

Inductive LexMode :=
| LDefault
| LString (acc : JsString)
| LEscape (acc : JsString)
| LUnicode (acc : JsString) (digits : list N)
| LNumber (lexeme : JsString)
| LLiteral (letters : JsString).

(** Space, tab, line feed, carriage return. *)
Definition isJsonWs (c : N) : bool :=
  (N.eqb c 32 || N.eqb c 9 || N.eqb c 10 || N.eqb c 13)%N.

Definition hexValue (c : N) : option N :=
  if Str.isDigit c then Some (c - 48)%N
  else if (N.leb 97 c && N.leb c 102)%N then Some (c - 87)%N
  else if (N.leb 65 c && N.leb c 70)%N then Some (c - 55)%N
  else None.

(** The number grammar: an optional minus, an integer without a leading
    zero, an optional fraction, an optional exponent. *)
Definition digit : Re := RChar Str.isDigit.
Definition numberRe : Re :=
  seqOf [RBol; opt (lit 45);
         RAlt (lit 48) (RSeq (RChar (fun c => (N.leb 49 c && N.leb c 57)%N))
                             (star digit));
         opt (RSeq (lit 46) (plus digit));
         opt (seqOf [RChar (fun c => N.eqb c 101 || N.eqb c 69);
                     opt (RChar (fun c => N.eqb c 43 || N.eqb c 45));
                     plus digit]);
         REol].

Definition isNumberChar (c : N) : bool :=
  Str.isDigit c || N.eqb c 43 || N.eqb c 45 || N.eqb c 46 || N.eqb c 101 ||
  N.eqb c 69.

Definition finishNumber (lexeme : JsString) : option Token :=
  if test numberRe lexeme then Some (TNumber lexeme) else None.

Definition finishLiteral (letters : JsString) : option Token :=
  if bool_decide (letters = js "true") then Some TTrue
  else if bool_decide (letters = js "false") then Some TFalse
  else if bool_decide (letters = js "null") then Some TNull
  else None.

(** What a code unit does outside a string, a number and a literal:
    the tokens it yields and the mode it leaves the lexer in. *)
Definition lexDefault (c : N) : option (list Token * LexMode) :=
  if isJsonWs c then Some ([], LDefault)
  else if N.eqb c 123 then Some ([TLBrace], LDefault)
  else if N.eqb c 125 then Some ([TRBrace], LDefault)
  else if N.eqb c 91 then Some ([TLBracket], LDefault)
  else if N.eqb c 93 then Some ([TRBracket], LDefault)
  else if N.eqb c 58 then Some ([TColon], LDefault)
  else if N.eqb c 44 then Some ([TComma], LDefault)
  else if N.eqb c 34 then Some ([], LString [])
  else if N.eqb c 45 || Str.isDigit c then Some ([], LNumber [c])
  else if Str.isLowerAscii c then Some ([], LLiteral [c])
  else None.

Definition escapeChar (c : N) : option N :=
  if N.eqb c 34 then Some 34%N
  else if N.eqb c 92 then Some 92%N
  else if N.eqb c 47 then Some 47%N
  else if N.eqb c 98 then Some 8%N
  else if N.eqb c 102 then Some 12%N
  else if N.eqb c 110 then Some 10%N
  else if N.eqb c 114 then Some 13%N
  else if N.eqb c 116 then Some 9%N
  else None.

Definition lexStep (mode : LexMode) (c : N) : option (list Token * LexMode) :=
  match mode with
  | LDefault => lexDefault c
  | LString acc =>
      if N.eqb c 34 then Some ([TString acc], LDefault)
      else if N.eqb c 92 then Some ([], LEscape acc)
      else if N.ltb c 32 then None
      else Some ([], LString (acc ++ [c]))
  | LEscape acc =>
      if N.eqb c 117 then Some ([], LUnicode acc [])
      else match escapeChar c with
           | Some x => Some ([], LString (acc ++ [x]))
           | None => None
           end
  | LUnicode acc digits =>
      match hexValue c with
      | None => None
      | Some d =>
          match digits with
          | [d1; d2; d3] =>
              Some ([], LString (acc ++ [(d1 * 4096 + d2 * 256 + d3 * 16 + d)%N]))
          | _ => Some ([], LUnicode acc (digits ++ [d]))
          end
      end
  | LNumber lexeme =>
      if isNumberChar c then Some ([], LNumber (lexeme ++ [c]))
      else match finishNumber lexeme, lexDefault c with
           | Some t, Some (ts, mode') => Some (t :: ts, mode')
           | _, _ => None
           end
  | LLiteral letters =>
      if Str.isLowerAscii c then Some ([], LLiteral (letters ++ [c]))
      else match finishLiteral letters, lexDefault c with
           | Some t, Some (ts, mode') => Some (t :: ts, mode')
           | _, _ => None
           end
  end.

Definition lexEnd (mode : LexMode) : option (list Token) :=
  match mode with
  | LDefault => Some []
  | LNumber lexeme => t ← finishNumber lexeme; Some [t]
  | LLiteral letters => t ← finishLiteral letters; Some [t]
  | _ => None
  end.

Fixpoint lex (mode : LexMode) (s : JsString) : option (list Token) :=
  match s with
  | [] => lexEnd mode
  | c :: s' =>
      '(ts, mode') ← lexStep mode c;
      rest ← lex mode' s';
      Some (ts ++ rest)
  end.

(** A container under construction: an array with its items so far
    (last first), or an object with its members so far and the key
    whose value is being read. *)
Inductive Frame :=
| FArray (itemsRev : list Json)
| FObject (members : list (JsString * Json)) (key : JsString).

Inductive ParseState :=
| PValue (stack : list Frame)
| PValueOrClose (stack : list Frame)
| PKeyOrClose (stack : list Frame)
| PKey (members : list (JsString * Json)) (stack : list Frame)
| PColon (members : list (JsString * Json)) (key : JsString) (stack : list Frame)
| PAfter (v : Json) (stack : list Frame).

(** A value starts with the token [t]. *)
Definition startValue (t : Token) (stack : list Frame) : option ParseState :=
  match t with
  | TLBracket => Some (PValueOrClose stack)
  | TLBrace => Some (PKeyOrClose stack)
  | TString s => Some (PAfter (JString s) stack)
  | TNumber n => Some (PAfter (JNumber n) stack)
  | TTrue => Some (PAfter (JBool true) stack)
  | TFalse => Some (PAfter (JBool false) stack)
  | TNull => Some (PAfter JNull stack)
  | _ => None
  end.

Definition parseStep (st : ParseState) (t : Token) : option ParseState :=
  match st with
  | PValue stack => startValue t stack
  | PValueOrClose stack =>
      match t with
      | TRBracket => Some (PAfter (JArray []) stack)
      | _ => startValue t (FArray [] :: stack)
      end
  | PKeyOrClose stack =>
      match t with
      | TRBrace => Some (PAfter (JObject []) stack)
      | TString k => Some (PColon [] k stack)
      | _ => None
      end
  | PKey members stack =>
      match t with
      | TString k => Some (PColon members k stack)
      | _ => None
      end
  | PColon members key stack =>
      match t with
      | TColon => Some (PValue (FObject members key :: stack))
      | _ => None
      end
  | PAfter v (FArray itemsRev :: stack) =>
      match t with
      | TComma => Some (PValue (FArray (v :: itemsRev) :: stack))
      | TRBracket => Some (PAfter (JArray (rev (v :: itemsRev))) stack)
      | _ => None
      end
  | PAfter v (FObject members key :: stack) =>
      match t with
      | TComma => Some (PKey (Js.assocSet key v members) stack)
      | TRBrace => Some (PAfter (JObject (Js.assocSet key v members)) stack)
      | _ => None
      end
  | PAfter _ [] => None
  end.

Fixpoint parseTokens (st : ParseState) (ts : list Token) : option Json :=
  match ts with
  | [] => match st with
          | PAfter v [] => Some v
          | _ => None
          end
  | t :: ts' => st' ← parseStep st t; parseTokens st' ts'
  end.

(** [JSON.parse(text)] *)
Definition parse (text : JsString) : option Json :=
  ts ← lex LDefault text; parseTokens (PValue []) ts.

End JSON.

(** ** The semantic response parser (rules/semantic/parser.ts) *)

Module SemanticParser.
Import Regex.

(** [CATEGORY_MAP[id] ?? 'best-practice']: the table is an object
    literal, so the lookup also finds what it inherits from
    [Object.prototype]. *)
Definition categoryOf (id : JsString) : LintCategory :=
  if bool_decide (id = js "semantic-contradiction") then CatContradiction
  else if bool_decide (id = js "semantic-ambiguity") then CatAmbiguity
  else if bool_decide (id = js "semantic-injection-risk") then CatSecurity
  else if bool_decide (id = js "semantic-verbosity") then CatTokenBudget
  else if bool_decide (id = js "semantic-missing-practice") then CatBestPractice
  else if bool_decide (id = js "semantic-scope-creep") then CatBestPractice
  else if bool_decide (id ∈ Js.objectPrototypeMethods) then CatInherited id
  else if bool_decide (id = js "__proto__") then CatInherited id
  else CatBestPractice.

(** [VALID_SEVERITIES] *)
Definition severityOf (v : option Json) : LintSeverity :=
  match v with
  | Some (JString s) =>
      if bool_decide (s = js "error") then SevError
      else if bool_decide (s = js "warning") then SevWarning
      else SevInfo
  | _ => SevInfo
  end.

(** The fence pattern of strategy 2: three backquotes, an optional
    [json], white space, the shortest text up to the next three
    backquotes as group 1. *)
Definition fenceRe : Re :=
  seqOf [str "```"; opt (str "json"); star space;
         RGroup 1 (lazyStar anyChar); str "```"].

(** [tryParse]: the three strategies in their order; each [JSON.parse]
    sits in a [try] whose [catch] goes on to the next strategy. The
    result [null] of the last line is [JNull]. *)
Definition tryParse (raw : JsString) : Json :=
  let trimmed := Str.trim raw in
  match JSON.parse trimmed with
  | Some v => v
  | None =>
      let fromFence :=
        match exec fenceRe trimmed 0 with
        | Some m => JSON.parse (Str.trim (default [] (group trimmed m 1)))
        | None => None
        end in
      match fromFence with
      | Some v => v
      | None =>
          let firstBracket := Str.indexOf trimmed (js "[") 0 in
          let lastBracket := Str.lastIndexOf trimmed (js "]") in
          let fromBrackets :=
            if negb (firstBracket =? -1) && (firstBracket <? lastBracket)
            then JSON.parse (Str.slice trimmed firstBracket (lastBracket + 1))
            else None in
          match fromBrackets with
          | Some v => v
          | None => JNull
          end
      end
  end.

Definition parseErrorWarning : LintWarning.t :=
  LintWarning.mk (js "semantic-parse-error") CatBestPractice SevInfo
    (js "LLM linter returned unparseable response. Raw output available in debug mode.")
    None None None None.

(** A field of an item that holds a string. *)
Definition stringField (members : list (JsString * Json)) (key : string)
  : option JsString :=
  match Js.assocGet (js key) members with
  | Some (JString s) => Some s
  | _ => None
  end.

(** One turn of the loop over the parsed array: the finding an item
    yields, if any. Only an object with a non-empty string [id] and a
    non-empty string [message] yields one. *)
Definition findingOf (item : Json) : option LintWarning.t :=
  match item with
  | JObject members =>
      match stringField members "id", stringField members "message" with
      | Some (c :: id'), Some (d :: message') =>
          let id := c :: id' in
          let w0 :=
            LintWarning.mk id (categoryOf id)
              (severityOf (Js.assocGet (js "severity") members))
              (d :: message') None None None None in
          let w1 := match stringField members "suggestion" with
                    | Some x => LintWarning.setSuggestion x w0
                    | None => w0
                    end in
          Some (match stringField members "evidence" with
                | Some x => LintWarning.setEvidence x w1
                | None => w1
                end)
      | _, _ => None
      end
  | _ => None
  end.

Definition parseSemanticResponse (raw : JsString) : list LintWarning.t :=
  match tryParse raw with
  | JArray items => omap findingOf items
  | _ => [parseErrorWarning]
  end.

End SemanticParser.

(** ** Lint rules and the linter (types.ts, linter.ts) *)

(** ['error' | 'warning' | 'info' | 'off'] *)
Inductive RuleSeverity := RError | RWarning | RInfo | ROff.

#[global] Instance RuleSeverity_eq_dec : EqDecision RuleSeverity.
Proof. solve_decision. Defined.

Abbreviation RuleOptions := JsObject.

(** A severity, or a severity with the options of the rule. *)
Inductive RuleConfig :=
| RCSeverity (s : RuleSeverity)
| RCTuple (s : RuleSeverity) (o : RuleOptions).

Definition ofLintSeverity (s : LintSeverity) : RuleSeverity :=
  match s with
  | SevError => RError
  | SevWarning => RWarning
  | SevInfo => RInfo
  end.

Module LintContext.
Record t := mk {
  prompt : Prompt.t;
  text : JsString;
  sections : list SectionConfig.t;
  modelId : JsString;
  modelConfig : ModelConfig.t;
  tokenCount : Z;
  options : option RuleOptions
}.

(** [{ ...context, options }] *)
Definition withOptions (c : t) (o : RuleOptions) : t :=
  mk (prompt c) (text c) (sections c) (modelId c) (modelConfig c)
    (tokenCount c) (Some o).
End LintContext.

Module LintRule.
(** [check] returns its findings, or throws; an asynchronous check
    resolves to them, or rejects. *)
Record t := mk {
  id : JsString;
  category : LintCategory;
  defaultSeverity : LintSeverity;
  description : JsString;
  check : LintContext.t -> Outcome (list LintWarning.t)
}.
End LintRule.

(** The [LlmClient] interface (llm/client.ts). *)
Module LlmClient.
Record t := mk {
  generate : JsString -> option JsString -> Outcome JsString;
  healthCheck : Outcome (bool * option JsString);
  modelName : JsString
}.
End LlmClient.

Module LlmConfig.
Record t := mk {
  enabled : option bool;
  provider : option JsString;
  model : option JsString;
  host : option JsString;
  timeout : option Z;
  client : option LlmClient.t
}.
End LlmConfig.

Module LinterConfig.
Record t := mk {
  rules : option (gmap JsString RuleConfig);
  llm : option LlmConfig.t;
  custom : option (list LintRule.t)
}.
(** [{}] *)
Definition empty : t := mk None None None.
End LinterConfig.

Module LintStats.
Record t := mk {
  rulesChecked : Z;
  timeMs : Z;
  llmCalls : Z
}.
End LintStats.

Module LintResult.
Record t := mk {
  passed : bool;
  errors : list LintWarning.t;
  warnings : list LintWarning.t;
  info : list LintWarning.t;
  stats : LintStats.t
}.
End LintResult.

(** The semantic rule (rules/semantic/semantic-rules.ts): one call of
    [client.generate] for one run of its check. [systemPrompt] is the
    rendered text of the linter's own prompt. *)
Definition createSemanticRule (systemPrompt : JsString) (client : LlmClient.t)
  : LintRule.t :=
  LintRule.mk (js "semantic-analysis") CatBestPractice SevWarning
    (js "LLM-powered semantic analysis of prompt quality")
    (fun ctx =>
       let sectionTypes :=
         Str.join (js ", ")
           (map (fun s => sectionTypeName (SectionConfig.type s))
              (LintContext.sections ctx)) in
       let userPrompt :=
         Str.join [LF]
           [js "Target model: " ++ LintContext.modelId ctx;
            js "Sections: " ++
              (match sectionTypes with [] => js "none" | _ => sectionTypes end);
            js "Token count: " ++ Js.numberToString (LintContext.tokenCount ctx);
            [];
            js "=== SYSTEM PROMPT TO ANALYZE ===";
            LintContext.text ctx;
            js "=== END ==="] in
       raw ← LlmClient.generate client userPrompt (Some systemPrompt);
       Returns (SemanticParser.parseSemanticResponse raw)).

(** *** The heuristic rules (rules/heuristic/index.ts)

    The identifiers, categories, default severities and the order of
    the eleven built-in rules are those of the source. The check of
    [missingIdentity] is embedded; the checks of the other ten, about
    which nothing is stated here, are a parameter [checks], so that
    what is proved holds whatever they return or throw. *)

Module HeuristicRules.

(** [getPosition(text, offset)]: the lines of the text before the
    offset are counted, and the last of them measured. *)
Definition getPosition (text : JsString) (offset : Z) : Z * Z :=
  let lines := Str.splitOn LF (Str.sliceAny text 0 offset) in
  (Z.of_nat (length lines), Z.of_nat (length (List.last lines [])) + 1).

Definition missingIdentity : LintRule.t :=
  LintRule.mk (js "missing-identity") CatBestPractice SevWarning
    (js "Warns when no identity section is defined")
    (fun ctx =>
       let hasIdentity :=
         existsb (fun s => bool_decide (SectionConfig.type s = TIdentity))
           (LintContext.sections ctx) in
       if negb hasIdentity then
         Returns
           [LintWarning.mk (js "missing-identity") CatBestPractice SevWarning
              (js "No identity section. Agent may lack consistent persona.")
              None None
              (Some (js "Add an identity section to define who the agent is."))
              None]
       else Returns []).

(** The pattern of [hasXmlTags]: an opening angle bracket, a letter,
    any number of letters, digits and hyphens, a closing angle bracket;
    with the [i] flag. *)
Definition isAsciiLetter (c : N) : bool :=
  Str.isUpperAscii c || Str.isLowerAscii c.

(** [[a-z0-9-]] under the [i] flag. *)
Definition isTagNameChar (c : N) : bool :=
  isAsciiLetter c || Str.isDigit c || N.eqb c 45.

Definition xmlTag : Regex.Re :=
  Regex.seqOf
    [Regex.lit 60; Regex.RChar isAsciiLetter;
     Regex.star (Regex.RChar isTagNameChar);
     Regex.lit 62].

Definition hasXmlTags (text : JsString) : bool := Regex.test xmlTag text.

(** The check of [xmlTagsWithGpt]. *)
Definition xmlTagsWithGptCheck (ctx : LintContext.t) : list LintWarning.t :=
  if Str.startsWith (js "gpt") (LintContext.modelId ctx) &&
     hasXmlTags (LintContext.text ctx) then
    [LintWarning.mk (js "xml-tags-with-gpt") CatModelMismatch SevWarning
       (js "XML tags detected but targeting GPT model. Consider using markdown headers instead.")
       None None
       (Some (js "Switch to markdown formatting or change model to Claude."))
       None]
  else [].

(** The check of [dynamicBeforeStatic]. *)
Definition dynamicBeforeStaticCheck (ctx : LintContext.t) : list LintWarning.t :=
  let firstDynamicIdx :=
    JsArray.findIndex (fun s => negb (SectionConfig.cacheable s))
      (LintContext.sections ctx) in
  let lastCacheableIdx :=
    JsArray.findLastIndex SectionConfig.cacheable (LintContext.sections ctx) in
  if negb (firstDynamicIdx =? -1) && negb (lastCacheableIdx =? -1) &&
     (firstDynamicIdx <? lastCacheableIdx) then
    [LintWarning.mk (js "dynamic-before-static") CatCacheInefficiency SevWarning
       (js "Dynamic content before static content reduces cache efficiency.")
       None None
       (Some (js "Reorder sections to put static content first, or enable cacheOptimize option."))
       None]
  else [].

(** The check of [formatNotLast]. *)
Definition formatNotLastCheck (ctx : LintContext.t) : list LintWarning.t :=
  let formatIdx :=
    JsArray.findIndex (fun s => bool_decide (SectionConfig.type s = TFormat))
      (LintContext.sections ctx) in
  if negb (formatIdx =? -1) &&
     negb (formatIdx =? Z.of_nat (length (LintContext.sections ctx)) - 1) then
    [LintWarning.mk (js "format-not-last") CatOrdering SevInfo
       (js "Output format instructions work best at the end.")
       None None
       (Some (js "Move the format section to be the last section."))
       None]
  else [].

(** The text that [emptySections] and [userInputInSystem] read from a
    section: its string, the content of its fragment, or the empty
    string when the content is a function. *)
Definition staticContent (section : SectionConfig.t) : JsString :=
  match SectionConfig.content section with
  | CString s => s
  | CFragment f => FragmentDefinition.content f
  | CDynamic _ => []
  end.

(** The check of [emptySections]: one finding for each section that is
    not dynamic and whose text is blank. *)
Definition emptySectionsCheck (ctx : LintContext.t) : list LintWarning.t :=
  flat_map
    (fun section =>
       if negb (Sections.isDynamic section) &&
          bool_decide (Str.trim (staticContent section) = []) then
         [LintWarning.mk (js "empty-sections") CatBestPractice SevWarning
            (js "Empty " ++ sectionTypeName (SectionConfig.type section) ++
             js " section.")
            None None (Some (js "Remove empty sections or add content.")) None]
       else [])
    (LintContext.sections ctx).

(** The checks of the built-in rules: those of the source for the rules
    embedded above, [others] for the rest. *)
Definition sourceChecks
    (others : JsString -> LintContext.t -> Outcome (list LintWarning.t))
    (id : JsString) : LintContext.t -> Outcome (list LintWarning.t) :=
  if bool_decide (id = js "xml-tags-with-gpt") then
    fun ctx => Returns (xmlTagsWithGptCheck ctx)
  else if bool_decide (id = js "dynamic-before-static") then
    fun ctx => Returns (dynamicBeforeStaticCheck ctx)
  else if bool_decide (id = js "format-not-last") then
    fun ctx => Returns (formatNotLastCheck ctx)
  else if bool_decide (id = js "empty-sections") then
    fun ctx => Returns (emptySectionsCheck ctx)
  else others id.

Section Checks.
Variable checks : JsString -> LintContext.t -> Outcome (list LintWarning.t).

Definition builtin (id : string) (c : LintCategory) (s : LintSeverity)
    (description : string) : LintRule.t :=
  LintRule.mk (js id) c s (js description) (checks (js id)).

Definition tokenLimitExceeded : LintRule.t :=
  builtin "token-limit-exceeded" CatTokenBudget SevError
    "Checks if the prompt exceeds the model context window".
Definition tokenLimitWarning : LintRule.t :=
  builtin "token-limit-warning" CatTokenBudget SevWarning
    "Warns when prompt is approaching the context window limit".
Definition xmlTagsWithGpt : LintRule.t :=
  builtin "xml-tags-with-gpt" CatModelMismatch SevWarning
    "Warns when using XML tags with GPT models".
Definition markdownWithClaude : LintRule.t :=
  builtin "markdown-with-claude" CatModelMismatch SevInfo
    "Suggests using XML tags instead of markdown for Claude".
Definition dynamicBeforeStatic : LintRule.t :=
  builtin "dynamic-before-static" CatCacheInefficiency SevWarning
    "Warns when dynamic content appears before static content".
Definition formatNotLast : LintRule.t :=
  builtin "format-not-last" CatOrdering SevInfo
    "Suggests placing format section at the end".
Definition duplicateInstructions : LintRule.t :=
  builtin "duplicate-instructions" CatDuplication SevWarning
    "Detects duplicate sentences in the prompt".
Definition userInputInSystem : LintRule.t :=
  builtin "user-input-in-system" CatSecurity SevError
    "Detects potential user input markers in non-context sections".
Definition emptySections : LintRule.t :=
  builtin "empty-sections" CatBestPractice SevWarning
    "Warns about empty sections".
Definition conflictingPatterns : LintRule.t :=
  builtin "conflicting-patterns" CatContradiction SevWarning
    "Detects potentially conflicting instruction patterns".

Definition heuristicRules : list LintRule.t :=
  [tokenLimitExceeded; tokenLimitWarning; xmlTagsWithGpt; markdownWithClaude;
   dynamicBeforeStatic; missingIdentity; formatNotLast; duplicateInstructions;
   userInputInSystem; emptySections; conflictingPatterns].

End Checks.
End HeuristicRules.

Module Linter.
Import Regex.

(** [parseRuleConfig] *)
Definition parseRuleConfig (config : RuleConfig)
  : RuleSeverity * option RuleOptions :=
  match config with
  | RCTuple s o => (s, Some o)
  | RCSeverity s => (s, None)
  end.

(** The four directive patterns of [parseIgnoredRules], all with the
    [i] flag. In the two list patterns group 1 is the list: an
    identifier of word characters and hyphens, then any number of
    identifiers each after a comma with optional white space around
    it. *)
Definition ignoreAllXml : Re :=
  seqOf [str "<!--"; star space; strCI "promptier-ignore-all"; star space;
         str "-->"].
Definition ignoreAllBracket : Re :=
  seqOf [str "["; strCI "promptier-ignore-all"; str "]"].
Definition commaSeparator : Re := seqOf [star space; lit 44; star space].
Definition ruleIdList : Re :=
  RSeq (plus wordOrDash) (star (RSeq commaSeparator (plus wordOrDash))).
Definition ignoreXml : Re :=
  seqOf [str "<!--"; star space; strCI "promptier-ignore"; plus space;
         RGroup 1 ruleIdList; star space; str "-->"].
Definition ignoreBracket : Re :=
  seqOf [str "["; strCI "promptier-ignore"; str ":"; star space;
         RGroup 1 ruleIdList; str "]"].

(** The rule identifiers of one match: [match[1].split(...)], each
    trimmed. *)
Definition idsOfMatch (text : JsString) (m : Match) : list JsString :=
  map Str.trim (split commaSeparator (default [] (group text m 1))).

Definition addAll (ids : list JsString) (ignored : gset JsString)
  : gset JsString :=
  fold_left (fun acc r => {[r]} ∪ acc) ids ignored.

Definition parseIgnoredRules (text : JsString) : gset JsString :=
  if test ignoreAllXml text || test ignoreAllBracket text then {[js "*"]}
  else
    let afterXml :=
      fold_left (fun acc m => addAll (idsOfMatch text m) acc)
        (matchAll ignoreXml text) ∅ in
    fold_left (fun acc m => addAll (idsOfMatch text m) acc)
      (matchAll ignoreBracket text) afterXml.

(** *** The documented syntax of the directives

    What it means for a text to contain a directive, stated on the
    text itself: [<!-- promptier-ignore id, id -->] and
    [[promptier-ignore: id, id]] name the rules of their list,
    [<!-- promptier-ignore-all -->] and [[promptier-ignore-all]] name
    all rules; the keyword is read without regard to case. *)












(** A linter: the registry of rules in registration order, and the
    configuration of each rule. *)
Record t := mk {
  rules : list (JsString * LintRule.t);
  ruleConfig : gmap JsString RuleConfig
}.

(** [this.rules.set(rule.id, rule)] and [this.ruleConfig.set(rule.id,
    config.rules?.[rule.id] ?? rule.defaultSeverity)] *)
Definition register (configured : gmap JsString RuleConfig) (L : t)
    (rule : LintRule.t) : t :=
  mk (Js.assocSet (LintRule.id rule) rule (rules L))
     (<[LintRule.id rule :=
          default (RCSeverity (ofLintSeverity (LintRule.defaultSeverity rule)))
            (configured !! LintRule.id rule)]> (ruleConfig L)).

(** [addRule(rule, severity?)] *)
Definition addRule (L : t) (rule : LintRule.t) (severity : option RuleConfig)
  : t :=
  mk (Js.assocSet (LintRule.id rule) rule (rules L))
     (<[LintRule.id rule :=
          default (RCSeverity (ofLintSeverity (LintRule.defaultSeverity rule)))
            severity]> (ruleConfig L)).

Definition configureRule (L : t) (ruleId : JsString) (severity : RuleConfig) : t :=
  mk (rules L) (<[ruleId := severity]> (ruleConfig L)).

Definition disableRule (L : t) (ruleId : JsString) : t :=
  mk (rules L) (<[ruleId := RCSeverity ROff]> (ruleConfig L)).

Definition getRuleIds (L : t) : list JsString := map fst (rules L).

(** The severity a finding is given: the configured one. *)
Definition applySeverity (severity : RuleSeverity) (w : LintWarning.t)
  : LintWarning.t :=
  match severity with
  | RError => LintWarning.setSeverity SevError w
  | RWarning => LintWarning.setSeverity SevWarning w
  | RInfo => LintWarning.setSeverity SevInfo w
  | ROff => w
  end.

(** The state of the rule loop of [lint]: the findings so far, the
    count of rules run, and the rules whose failure was written to the
    console. *)
Record Run := mkRun {
  allWarnings : list LintWarning.t;
  rulesChecked : Z;
  failed : list JsString
}.

(** The severity a configuration gives to findings. *)
Definition toLintSeverity (s : RuleSeverity) : option LintSeverity :=
  match s with
  | RError => Some SevError
  | RWarning => Some SevWarning
  | RInfo => Some SevInfo
  | ROff => None
  end.


Definition hasSeverity (s : LintSeverity) (w : LintWarning.t) : bool :=
  bool_decide (LintWarning.severity w = s).

Section WithEnv.
Variable env : Services.
Variable checks : JsString -> LintContext.t -> Outcome (list LintWarning.t).
(** The milliseconds between the two readings of the clock. *)
Variable elapsed : Z.

(** [new Linter(config)]: the built-in rules, then the custom rules,
    then every entry of [config.rules]. The [llm] entry of the
    configuration is not read. *)
Definition new (config : LinterConfig.t) : t :=
  let configured := default ∅ (LinterConfig.rules config) in
  let L1 :=
    fold_left (register configured) (HeuristicRules.heuristicRules checks)
      (mk [] ∅) in
  let L2 :=
    fold_left (register configured) (default [] (LinterConfig.custom config)) L1 in
  mk (rules L2) (configured ∪ ruleConfig L2).

(** One turn of the loop over [this.rules]. *)
Definition runRule (L : t) (ignoreAll : bool) (ignoredRules : gset JsString)
    (context : LintContext.t) (st : Run) (entry : JsString * LintRule.t) : Run :=
  let '(ruleId, rule) := entry in
  match ruleConfig L !! ruleId with
  | None => st
  | Some rc =>
      let '(severity, options) := parseRuleConfig rc in
      if bool_decide (severity = ROff) then st
      else if ignoreAll || bool_decide (ruleId ∈ ignoredRules) then st
      else
        let ruleContext :=
          match options with
          | Some o => LintContext.withOptions context o
          | None => context
          end in
        match LintRule.check rule ruleContext with
        | Returns warnings =>
            mkRun (allWarnings st ++ map (applySeverity severity) warnings)
              (rulesChecked st + 1) (failed st)
        | Throws _ =>
            mkRun (allWarnings st) (rulesChecked st + 1) (failed st ++ [ruleId])
        end
  end.

(** What one entry of the registry adds to the findings of a run: the
    findings of its check under the configured severity, when the rule
    is configured, not [off], not ignored, and its check returns. *)
Definition findingsOf (L : t) (ignoreAll : bool) (ignoredRules : gset JsString)
    (context : LintContext.t) (entry : JsString * LintRule.t)
  : list LintWarning.t :=
  match ruleConfig L !! entry.1 with
  | None => []
  | Some rc =>
      if bool_decide ((parseRuleConfig rc).1 = ROff) then []
      else if ignoreAll || bool_decide (entry.1 ∈ ignoredRules) then []
      else
        match LintRule.check entry.2
                (match (parseRuleConfig rc).2 with
                 | Some o => LintContext.withOptions context o
                 | None => context
                 end) with
        | Returns warnings => map (applySeverity (parseRuleConfig rc).1) warnings
        | Throws _ => []
        end
  end.

Definition contextOf (p : Prompt.t) (r : CompiledPrompt.t) : LintContext.t :=
  LintContext.mk p (CompiledPrompt.text r) (Prompt.sections p) (Prompt.model p)
    (getModelConfig env (Prompt.model p))
    (PromptMetadata.tokenCount (CompiledPrompt.meta r)) None.

(** The rule loop of [lint] on a rendered prompt. *)
Definition runRules (L : t) (p : Prompt.t) (r : CompiledPrompt.t) : Run :=
  let ignoredRules := parseIgnoredRules (CompiledPrompt.text r) in
  let ignoreAll := bool_decide (js "*" ∈ ignoredRules) in
  fold_left (runRule L ignoreAll ignoredRules (contextOf p r)) (rules L)
    (mkRun [] 0 []).

Definition resultOf (run : Run) : LintResult.t :=
  let errors := List.filter (hasSeverity SevError) (allWarnings run) in
  let warnings := List.filter (hasSeverity SevWarning) (allWarnings run) in
  let info := List.filter (hasSeverity SevInfo) (allWarnings run) in
  let llmCalls := 0 in
  LintResult.mk (bool_decide (length errors = 0%nat)) errors warnings info
    (LintStats.mk (rulesChecked run) elapsed llmCalls).

(** [linter.lint(prompt)]: the prompt is rendered with the empty
    context, outside of any [try]; the rules then run on the result. *)
Definition lint (L : t) (p : Prompt.t) : Outcome LintResult.t :=
  r ← Prompt.render env p [];
  Returns (resultOf (runRules L p r)).

End WithEnv.
End Linter.

(** The quick [lint(prompt)] of linter.ts: a linter with the default
    configuration; errors, then warnings, then infos. *)
Definition quickLint (env : Services)
    (checks : JsString -> LintContext.t -> Outcome (list LintWarning.t))
    (elapsed : Z) (p : Prompt.t) : Outcome (list LintWarning.t) :=
  result ← Linter.lint env elapsed (Linter.new checks LinterConfig.empty) p;
  Returns (LintResult.errors result ++ LintResult.warnings result ++
           LintResult.info result).

(** ** The blame command (cli/commands/blame.ts) *)

Module BlameCommand.

(** The loop of [getEndLine]. *)
Fixpoint getEndLine_loop (text : JsString) (n : nat) (line : Z) : Z :=
  match n, text with
  | S n', x :: rest =>
      getEndLine_loop rest n' (if N.eqb x LF then line + 1 else line)
  | _, _ => line
  end.

Definition getEndLine (text : JsString) (offset : Z) : Z :=
  getEndLine_loop text (Z.to_nat offset) 1.

(** The source map the command queries: the one of the render's
    metadata, restored, with the rendered text set on it. *)
Definition restore (r : CompiledPrompt.t) : SourceMap.SourceMap :=
  SourceMap.setRenderedText
    (SourceMap.fromJSON (PromptMetadata.sourceMap (CompiledPrompt.meta r)))
    (CompiledPrompt.text r).

(** Blame for a line: [sourceMap.originAt(line, 1)]. *)
Definition blameLine (r : CompiledPrompt.t) (line : Z) : option Source :=
  SourceMap.originAt (restore r) line 1.

(** Blame for a fragment: [sourceMap.positionsFrom(fragment)]. *)
Definition blameFragment (r : CompiledPrompt.t) (fragment : JsString)
  : list Output :=
  SourceMap.positionsFrom (restore r) fragment.

End BlameCommand.

(** The code units of an XML name as the sanitizer sees them:
    [[a-z0-9_.-]]. *)
Definition isTagChar (c : N) : bool :=
  Str.isLowerAscii c || Str.isDigit c || N.eqb c 95 || N.eqb c 46 || N.eqb c 45.

(** ** Model configurations (models/index.ts) *)

Module Models.
Import Regex.

Inductive ModelFamily := Claude | Gpt | Gemini | Unknown.

#[global] Instance ModelFamily_eq_dec : EqDecision ModelFamily.
Proof. solve_decision. Defined.

(** [MODEL_PATTERNS], in the order of its keys; each pattern is an
    alternation of words, with the [i] flag. *)
Definition MODEL_PATTERNS : list (ModelFamily * Re) :=
  [(Claude, RAlt (strCI "claude") (strCI "anthropic"));
   (Gpt, RAlt (strCI "gpt")
           (RAlt (strCI "openai") (RAlt (strCI "o1-") (strCI "o3-"))));
   (Gemini, RAlt (strCI "gemini") (strCI "google"))].

(** The loop of [detectModelFamily] over the entries. *)
Fixpoint detectFrom (patterns : list (ModelFamily * Re)) (modelId : JsString)
  : ModelFamily :=
  match patterns with
  | [] => Unknown
  | (family, pattern) :: rest =>
      if test pattern modelId then family else detectFrom rest modelId
  end.

Definition detectModelFamily (modelId : JsString) : ModelFamily :=
  detectFrom MODEL_PATTERNS modelId.

Inductive Tokenizer := Cl100kBase | O200kBase | CustomTokenizer.

(** A number written with a fraction, kept as it is written:
    [mantissa] times ten to the [exponent]. It is never computed
    with here. *)
Record Decimal := mkDecimal {
  mantissa : Z;
  exponent : Z
}.

Record CacheConfig := mkCacheConfig {
  minPrefixTokens : Z;
  costMultiplier : Decimal
}.

(** [Omit<ModelConfig, 'id'>] *)
Record Settings := mkSettings {
  contextWindow : Z;
  preferredFormat : PreferredFormat;
  supportsSystemPrompt : bool;
  supportsCaching : bool;
  cacheConfig : option CacheConfig;
  tokenizer : Tokenizer;
  customTokenizer : option (JsString -> Z)
}.

(** [ModelConfig]: [{ id, ...settings }]. *)
Record Config := mkConfig {
  id : JsString;
  settings : Settings
}.

Definition familyDefaults (family : ModelFamily) : Settings :=
  match family with
  | Claude =>
      mkSettings 200000 FXml true true
        (Some (mkCacheConfig 1024 (mkDecimal 1 (-1)))) Cl100kBase None
  | Gpt => mkSettings 128000 FMarkdown true false None O200kBase None
  | Gemini => mkSettings 1000000 FMarkdown true false None Cl100kBase None
  | Unknown => mkSettings 8192 FPlain true false None Cl100kBase None
  end.

(** [{ ...settings, tokenizer }] and [{ ...settings, contextWindow }] *)
Definition withTokenizer (s : Settings) (t : Tokenizer) : Settings :=
  mkSettings (contextWindow s) (preferredFormat s) (supportsSystemPrompt s)
    (supportsCaching s) (cacheConfig s) t (customTokenizer s).

Definition withContextWindow (s : Settings) (w : Z) : Settings :=
  mkSettings w (preferredFormat s) (supportsSystemPrompt s)
    (supportsCaching s) (cacheConfig s) (tokenizer s) (customTokenizer s).

Definition builtin (modelId : string) (s : Settings)
  : JsString * Config :=
  (js modelId, mkConfig (js modelId) s).

(** The built-in table [models]. *)
Definition models : list (JsString * Config) :=
  [builtin "claude-opus-4-20250514" (familyDefaults Claude);
   builtin "claude-sonnet-4-20250514" (familyDefaults Claude);
   builtin "claude-haiku-3-20250514" (familyDefaults Claude);
   builtin "gpt-4o" (familyDefaults Gpt);
   builtin "gpt-4o-mini" (familyDefaults Gpt);
   builtin "gpt-4-turbo" (withTokenizer (familyDefaults Gpt) Cl100kBase);
   builtin "gemini-1.5-pro" (withContextWindow (familyDefaults Gemini) 2000000);
   builtin "gemini-1.5-flash" (familyDefaults Gemini)].

(** The registry [customModels], a [Map]. *)
Definition Registry := list (JsString * Config).

(** What [getModelConfig] returns: a configuration, or, for an id that
    names a member of [Object.prototype], that member ([modelId in
    models] also finds what the table inherits). *)
Inductive Lookup :=
| Found (c : Config)
| Inherited (name : JsString).

(** [modelId in models] *)
Definition inModels (modelId : JsString) : bool :=
  bool_decide (is_Some (Js.assocGet modelId models)) ||
  bool_decide (modelId ∈ Js.objectPrototypeMethods) ||
  bool_decide (modelId = js "__proto__").

(** [getModelConfig(modelId)] *)
Definition getModelConfig (customModels : Registry) (modelId : JsString)
  : Lookup :=
  if inModels modelId then
    match Js.assocGet modelId models with
    | Some c => Found c
    | None => Inherited modelId
    end
  else
    match Js.assocGet modelId customModels with
    | Some customConfig => Found customConfig
    | None => Found (mkConfig modelId (familyDefaults (detectModelFamily modelId)))
    end.

(** [registerModel(modelId, config)] *)
Definition registerModel (customModels : Registry) (modelId : JsString)
    (config : Settings) : Registry :=
  Js.assocSet modelId (mkConfig modelId config) customModels.

(** [isKnownModelFamily(modelId)] *)
Definition isKnownModelFamily (modelId : JsString) : bool :=
  negb (bool_decide (detectModelFamily modelId = Unknown)).

(** The id holds the word, in any case of its letters. *)
Definition mentions (modelId : JsString) (word : string) : Prop :=
  exists pre kw post,
    modelId = pre ++ kw ++ post /\
    Str.toUpperCase kw = Str.toUpperCase (js word).

End Models.

(** ** Counting and limiting tokens (tokens.ts) *)

Module Tokens.

Section WithEncodings.
(** [encoding.encode(text).length] for the two encodings that
    [getEncoding] hands out (or, when the tokenizer library cannot be
    loaded, the estimate that stands in for both): black boxes. *)
Variable cl100k : JsString -> Z.
Variable o200k : JsString -> Z.

(** [getEncoding(tokenizer)]: anything but [o200k_base] gets the
    [cl100k_base] encoding. [None] is a tokenizer that is
    [undefined]. *)
Definition getEncoding (tokenizer : option Models.Tokenizer) : JsString -> Z :=
  match tokenizer with
  | Some Models.O200kBase => o200k
  | _ => cl100k
  end.

(** [config.tokenizer] of what [getModelConfig] returned. *)
Definition tokenizerOf (config : Models.Lookup) : option Models.Tokenizer :=
  match config with
  | Models.Found c => Some (Models.tokenizer (Models.settings c))
  | Models.Inherited _ => None
  end.

(** [countTokens(text, modelId)] *)
Definition countTokens (customModels : Models.Registry) (text modelId : JsString)
  : Z :=
  let config := Models.getModelConfig customModels modelId in
  match config with
  | Models.Found c =>
      match Models.tokenizer (Models.settings c),
            Models.customTokenizer (Models.settings c) with
      | Models.CustomTokenizer, Some customTokenizer => customTokenizer text
      | _, _ => getEncoding (tokenizerOf config) text
      end
  | Models.Inherited _ => getEncoding (tokenizerOf config) text
  end.

(** The binary search of [truncateToTokenLimit]; [fuel] bounds the
    number of tests of the loop condition. *)
Fixpoint searchLoop (encode : JsString -> Z) (text : JsString)
    (maxTokens low high : Z) (fuel : nat) : option Z :=
  match fuel with
  | O => None
  | S fuel' =>
      if low <? high then
        let mid := (low + high + 1) / 2 in
        let truncated := Str.slice text 0 mid in
        let truncatedTokens := encode truncated in
        if truncatedTokens <=? maxTokens
        then searchLoop encode text maxTokens mid high fuel'
        else searchLoop encode text maxTokens low (mid - 1) fuel'
      else Some low
  end.

(** The loop that looks for a clean break: [i] goes down from [low],
    [steps] turns are left. A line feed ends the loop; a space is
    taken only while the break point is still [low]. *)
Fixpoint breakLoop (text : JsString) (low i : Z) (steps : nat) (breakPoint : Z)
  : Z :=
  match steps with
  | O => breakPoint
  | S steps' =>
      let c := text !! Z.to_nat i in
      if bool_decide (c = Some LF) then i
      else if bool_decide (c = Some 32%N) && (breakPoint =? low)
           then breakLoop text low (i - 1) steps' i
           else breakLoop text low (i - 1) steps' breakPoint
  end.

Definition findBreakPoint (text : JsString) (low : Z) : Z :=
  breakLoop text low low (Z.to_nat (low - Z.max 0 (low - 100) + 1)) low.

(** [truncateToTokenLimit(text, maxTokens, modelId)]; [None] stands
    for a search that is not over after as many turns as the text has
    code units, and one more. *)
Definition truncateToTokenLimit (customModels : Models.Registry)
    (text : JsString) (maxTokens : Z) (modelId : JsString) : option JsString :=
  let config := Models.getModelConfig customModels modelId in
  let encode := getEncoding (tokenizerOf config) in
  if encode text <=? maxTokens then Some text
  else
    match searchLoop encode text maxTokens 0 (Z.of_nat (length text))
            (S (length text)) with
    | Some low =>
        let breakPoint := findBreakPoint text low in
        Some (Str.trim (Str.slice text 0 breakPoint) ++ [LF] ++ js "[truncated]")
    | None => None
    end.

End WithEncodings.

End Tokens.
(** ** Duplicate sentences (rules/heuristic) *)

Module Duplicates.
Import Regex.

(** [[.!?]+] *)
Definition sentenceEnd : Re :=
  plus (RChar (fun c => N.eqb c 46 || N.eqb c 33 || N.eqb c 63)).

(** The sentences that count: the pieces between the marks, trimmed
    and in lower case, that are longer than 20 code units. *)
Definition sentencesOf (text : JsString) : list JsString :=
  List.filter (fun s => 20 <? jsLength s)
    (map (fun s => Str.toLowerCase (Str.trim s)) (split sentenceEnd text)).

(** [seen.get(sentence) ?? 0] *)
Definition counted (seen : list (JsString * Z)) (sentence : JsString) : Z :=
  default 0 (Js.assocGet sentence seen).

(** The loop over the sentences: [seen] counts each sentence, and a
    sentence is pushed when its count becomes 2. *)
Fixpoint duplicatesFrom (sentences : list JsString)
    (seen : list (JsString * Z)) : list JsString :=
  match sentences with
  | [] => []
  | sentence :: rest =>
      let count := counted seen sentence + 1 in
      let seen' := Js.assocSet sentence count seen in
      if count =? 2 then sentence :: duplicatesFrom rest seen'
      else duplicatesFrom rest seen'
  end.

(** [findDuplicateSentences(text)] *)
Definition findDuplicateSentences (text : JsString) : list JsString :=
  duplicatesFrom (sentencesOf text) [].

(** How often a sentence occurs in a list. *)
Definition occurrences (s : JsString) (sentences : list JsString) : Z :=
  Z.of_nat (length (List.filter (fun x => bool_decide (x = s)) sentences)).

End Duplicates.

(** ** Fragments (fragment.ts) *)

Module Fragment.
Import Regex.

(** [Fragment.define(id, content)] for a content that is a string. *)
Definition define (id content : JsString) : FragmentDefinition.t :=
  FragmentDefinition.mk id (js "1.0.0") (Str.trim content) None None None.

(** The pattern of a template variable: two opening braces, a word as
    group 1, two closing braces; global. *)
Definition variable : Re :=
  seqOf [str "{{"; RGroup 1 (plus word); str "}}"].

(** [getVariables()] *)
Definition getVariables (f : FragmentDefinition.t) : list JsString :=
  let content := FragmentDefinition.content f in
  JsSet.ofList
    (map (fun m => default [] (group content m 1)) (matchAll variable content)).

(** [isDeprecated()] *)
Definition isDeprecated (f : FragmentDefinition.t) : bool :=
  match FragmentDefinition.metadata f with
  | Some md => bool_decide (FragmentMetadata.deprecated md = Some true)
  | None => false
  end.

(** [f.metadata?.tags || []] *)
Definition tagsOf (f : FragmentDefinition.t) : list JsString :=
  default [] (FragmentDefinition.metadata f ≫= FragmentMetadata.tags).

(** [Fragment.compose(id, fragments, separator)] *)
Definition compose (id : JsString) (fragments : list FragmentDefinition.t)
    (separator : JsString) : FragmentDefinition.t :=
  FragmentDefinition.mk id (js "1.0.0")
    (Str.join separator (map FragmentDefinition.content fragments))
    (Some (FragmentMetadata.mk
             (Some (js "Composed from: " ++
                    Str.join (js ", ") (map FragmentDefinition.id fragments)))
             None (Some (JsSet.ofList (flat_map tagsOf fragments))) None None))
    None None.

End Fragment.

(** ** Sample inputs *)

(** A source map with the text [ab\ncd] and one mapping for its second
    line. *)
Definition twoLineMap : SourceMap.SourceMap :=
  SourceMap.addLiteralMapping
    (SourceMap.setRenderedText (SourceMap.new (js "p")) (js "ab" ++ [LF] ++ js "cd"))
    3 5 TFormat 1.

(** Collaborators for the examples: every model prefers XML and has a
    window of 200000 tokens; a token is four code units. *)
Definition sampleServices : Services :=
  mkServices (fun _ => ModelConfig.mk 200000 FXml true)
    (fun text _ => (jsLength text + 3) / 4)
    (js "2026-01-01T00:00:00.000Z").

(** Built-in checks that find nothing. *)
Definition quietChecks (id : JsString) (ctx : LintContext.t)
  : Outcome (list LintWarning.t) := Returns [].

Definition sampleModel : JsString := js "claude-sonnet-4-20250514".

(** Two sections with the same text. *)
Definition twiceHelpful : Prompt.t :=
  Prompt.mk (js "test") sampleModel
    [Sections.identity (js "Be helpful."); Sections.format (js "Be helpful.")]
    PromptOptions.empty.

(** Two sections with an empty text. *)
Definition twoEmpty : Prompt.t :=
  Prompt.mk (js "test") sampleModel
    [Sections.identity []; Sections.format []] PromptOptions.empty.

(** The prompt of the linter tests: an identity and a format. *)
Definition helpfulAssistant : Prompt.t :=
  Prompt.mk (js "test") sampleModel
    [Sections.identity (js "You are a helpful assistant.");
     Sections.format (js "Respond clearly.")]
    PromptOptions.empty.

(** A prompt without an identity section. *)
Definition formatOnly : Prompt.t :=
  Prompt.mk (js "test-agent") sampleModel
    [Sections.format (js "Respond in JSON.")] PromptOptions.empty.


(** A section whose text has blanks on both sides. *)
Definition paddedHelpful : Prompt.t :=
  Prompt.mk (js "test") sampleModel
    [Sections.identity (js "  Be helpful.  "); Sections.format (js "Respond clearly.")]
    PromptOptions.empty.







(** A client that answers with the empty array. *)
Definition sampleClient : LlmClient.t :=
  LlmClient.mk (fun _ _ => Returns (js "[]")) (Returns (true, None))
    (js "llama3.2:3b").

(** [{ llm: { enabled: true, client } }] *)
Definition llmEnabledConfig : LinterConfig.t :=
  LinterConfig.mk None
    (Some (LlmConfig.mk (Some true) None None None None (Some sampleClient)))
    None.

(** [{ rules: { 'missing-identity': 'error' } }] *)
Definition missingIdentityIsError : LinterConfig.t :=
  LinterConfig.mk (Some {[ js "missing-identity" := RCSeverity RError ]})
    None None.



(** A fragment, and a prompt whose identity is that fragment. *)
Definition greeting : FragmentDefinition.t :=
  FragmentDefinition.mk (js "greeting") (js "2.0.0") (js "You greet people.")
    None None None.

Definition greetingPrompt : Prompt.t :=
  Prompt.mk (js "test") sampleModel
    [Sections.create TIdentity (CFragment greeting);
     Sections.format (js "Respond clearly.")]
    PromptOptions.empty.

(** [{ identity: Section.identity('You are terse.') }], the argument
    of an [override]. *)
Definition terseIdentity (t : SectionType) : option SectionConfig.t :=
  match t with
  | TIdentity => Some (Sections.identity (js "You are terse."))
  | _ => None
  end.

(** A response whose only finding has the id [constructor]: a JSON
    array with one object, with the members [id] and [message]. *)
Definition constructorResponse : JsString :=
  js "[{" ++ Js.quoteJSONString (js "id") ++ js ":" ++
  Js.quoteJSONString (js "constructor") ++ js "," ++
  Js.quoteJSONString (js "message") ++ js ":" ++
  Js.quoteJSONString (js "m") ++ js "}]".

(** An encoding that counts four code units as a token, as the
    estimate of [getEncoding] does. *)
Definition fourPerToken (text : JsString) : Z := (jsLength text + 3) / 4.
(** A text that says one sentence three times. *)
Definition saysItThrice : JsString :=
  js "Always answer in complete sentences. Be kind! Always answer in complete sentences? always answer in complete sentences.".

(* ================================================================= *)
(** Two fragments with a variable each, one of them used twice. *)
Definition askName : FragmentDefinition.t :=
  Fragment.define (js "ask-name") (js "Greet {{name}}, then thank {{name}}. ").

Definition askTopic : FragmentDefinition.t :=
  Fragment.define (js "ask-topic") (js "Talk about {{topic}} only.").

(** * Part II: properties *)
(* ================================================================= *)

Section SourceMapFacts.
Import SourceMap.

Lemma covers_spec offset m :
  covers offset m = true <->
  start (output m) <= offset < end_ (output m).
Proof. unfold covers. rewrite andb_true_iff, Z.leb_le, Z.ltb_lt. tauto. Qed.

Lemma firstCovering_None ms offset :
  firstCovering ms offset = None <->
  Forall (fun m => covers offset m = false) ms.
Proof.
  induction ms as [|m ms IH]; simpl.
  - split; [constructor | reflexivity].
  - destruct (covers offset m) eqn:E.
    + split; [discriminate | inversion 1; congruence].
    + rewrite IH. split; [by constructor | by inversion 1].
Qed.

Lemma disjoint_covers a b offset :
  disjoint a b = true -> covers offset a = true -> covers offset b = false.
Proof.
  unfold disjoint. rewrite !orb_true_iff, !Z.leb_le.
  intros Hd Ha%covers_spec.
  destruct (covers offset b) eqn:Hb; [|done].
  apply covers_spec in Hb. lia.
Qed.

Lemma disjoint_sym a b : disjoint a b = disjoint b a.
Proof. unfold disjoint. destruct (_ <=? _), (_ <=? _), (_ <=? _), (_ <=? _); done. Qed.

Lemma firstCovering_member ms m offset :
  nonOverlapping ms = true -> m ∈ ms -> covers offset m = true ->
  firstCovering ms offset = Some (source m).
Proof.
  induction ms as [|m0 ms IH]; simpl; intros Hno Hin Hc.
  - by apply elem_of_nil in Hin.
  - apply andb_true_iff in Hno as [Hall Hno].
    rewrite forallb_forall in Hall.
    apply elem_of_cons in Hin as [->|Hin].
    + by rewrite Hc.
    + destruct (covers offset m0) eqn:E.
      * assert (covers offset m = false) as Hf.
        { eapply disjoint_covers; [|exact E].
          apply Hall. by apply list_elem_of_In. }
        congruence.
      * by apply IH.
Qed.

(** [C2] On a source map whose ranges are pairwise non-overlapping,
    [originAtOffset] returns the origin of the mapping whose half-open
    range [[start, end)] holds the offset, and [null] for an offset that
    no range holds. *)
Theorem originAtOffset_correct (sm : SourceMap.SourceMap) :
  nonOverlapping (mappings sm) = true ->
  (forall m offset, m ∈ mappings sm ->
     start (output m) <= offset < end_ (output m) ->
     originAtOffset sm offset = Some (source m)) /\
  (forall offset,
     (forall m, m ∈ mappings sm ->
        ~ (start (output m) <= offset < end_ (output m))) ->
     originAtOffset sm offset = None).
Proof.
  intros Hno. split.
  - intros m offset Hin Hr. unfold originAtOffset.
    apply firstCovering_member; [done..|]. by apply covers_spec.
  - intros offset Hout. unfold originAtOffset.
    apply firstCovering_None, Forall_forall. intros m Hin.
    destruct (covers offset m) eqn:E; [|done].
    apply covers_spec in E. by destruct (Hout m Hin).
Qed.

Lemma originAtOffset_correct_witness :
  nonOverlapping (mappings twoLineMap) = true /\
  originAtOffset twoLineMap 3 =
    Some (mkSource SLiteral None None (Some TFormat) (Some 1) None None None None) /\
  originAtOffset twoLineMap 2 = None.
Proof.
  split; [reflexivity|].
  destruct (originAtOffset_correct twoLineMap eq_refl) as [Hin Hout].
  split.
  - apply (Hin (mkMapping (mkOutput 3 5 2 1)
        (mkSource SLiteral None None (Some TFormat) (Some 1) None None None None)));
      [|simpl; lia].
    vm_compute. apply list_elem_of_here.
  - apply Hout. intros m Hm. vm_compute in Hm.
    apply list_elem_of_singleton in Hm as ->. simpl. lia.
Defined.

Lemma mappings_fold_addMapping l sm :
  mappings (fold_left addMapping l sm) = mappings sm ++ l.
Proof.
  revert sm. induction l as [|m l IH]; intros sm; simpl.
  - by rewrite app_nil_r.
  - rewrite IH. simpl. by rewrite <- app_assoc.
Qed.

Lemma prompt_fold_addMapping l sm :
  prompt (fold_left addMapping l sm) = prompt sm.
Proof. revert sm. induction l as [|m l IH]; intros sm; simpl; [done|]. by rewrite IH. Qed.

Lemma renderedText_fold_addMapping l sm :
  renderedText (fold_left addMapping l sm) = renderedText sm.
Proof. revert sm. induction l as [|m l IH]; intros sm; simpl; [done|]. by rewrite IH. Qed.

Lemma mappings_roundtrip sm : mappings (fromJSON (toJSON sm)) = mappings sm.
Proof. unfold fromJSON, toJSON. simpl. by rewrite mappings_fold_addMapping. Qed.

(** The restored map has no rendered text: [fromJSON] starts from a
    fresh [SourceMap] and the serialized record carries none. *)
Lemma renderedText_roundtrip sm : renderedText (fromJSON (toJSON sm)) = [].
Proof. unfold fromJSON, toJSON. simpl. by rewrite renderedText_fold_addMapping. Qed.

(** Without a text the line plays no part in [getCharOffset]: the
    restored map answers [originAt(line, column)] at offset
    [column - 1]. *)
Lemma originAt_roundtrip_no_text sm l c :
  originAt (fromJSON (toJSON sm)) l c = originAtOffset sm (c - 1).
Proof.
  unfold originAt, originAtOffset, getCharOffset.
  rewrite renderedText_roundtrip, mappings_roundtrip. simpl.
  f_equal.
Qed.

(** [C4], as stated, fails for [originAt]: line 2, column 1 of
    [twoLineMap] lies in its mapping, and the round-tripped map answers
    [null]. *)
Lemma roundtrip_originAt_counterexample :
  originAt twoLineMap 2 1 <> originAt (fromJSON (toJSON twoLineMap)) 2 1.
Proof. vm_compute. discriminate. Qed.

(** [C4] (amended) [fromJSON (toJSON sm)] keeps the subject name and the
    mappings in their order; [originAtOffset] answers the same at every
    offset and [positionsFrom] returns the same positions for every
    fragment id; [originAt] answers the same at every line and column
    once the rendered text has been set again on the restored map. *)
Theorem roundtrip_preserves_queries (sm : SourceMap.SourceMap) :
  let sm' := fromJSON (toJSON sm) in
  prompt sm' = prompt sm /\
  mappings sm' = mappings sm /\
  (forall offset, originAtOffset sm' offset = originAtOffset sm offset) /\
  (forall fid, positionsFrom sm' fid = positionsFrom sm fid) /\
  (forall l c,
     originAt (setRenderedText sm' (renderedText sm)) l c = originAt sm l c).
Proof.
  simpl. pose proof (mappings_roundtrip sm) as Hm.
  repeat split.
  - unfold fromJSON, toJSON. simpl. by rewrite prompt_fold_addMapping.
  - done.
  - intros offset. unfold originAtOffset. by rewrite Hm.
  - intros fid. unfold positionsFrom. by rewrite Hm.
  - intros l c. unfold originAt, getCharOffset. simpl. by rewrite Hm.
Qed.

End SourceMapFacts.

(** ** Strings *)

Section StrFacts.
Import Str.

Lemma startsWith_spec pat s :
  startsWith pat s = true <-> exists rest, s = pat ++ rest.
Proof.
  revert s. induction pat as [|p pat IH]; intros s; simpl.
  - split; [eauto | done].
  - destruct s as [|c s].
    + split; [done | intros [rest H]; discriminate].
    + destruct (N.eqb_spec p c) as [->|Hne].
      * rewrite IH. split; intros [rest H]; exists rest; [by rewrite H | by inversion H].
      * split; [done | intros [rest H]; inversion H; done].
Qed.

Lemma startsWith_length pat s :
  startsWith pat s = true -> (length pat <= length s)%nat.
Proof.
  intros [rest ->]%startsWith_spec. rewrite length_app. lia.
Qed.

Lemma indexOfFrom_Some pat s pos k :
  indexOfFrom pat s pos = Some k ->
  exists j, k = (pos + j)%nat /\ (j <= length s)%nat /\
            startsWith pat (drop j s) = true /\
            forall j', (j' < j)%nat -> startsWith pat (drop j' s) = false.
Proof.
  revert pos. induction s as [|c s IH]; intros pos; simpl.
  - destruct (startsWith pat []) eqn:E; [|done].
    intros [= <-]. exists 0%nat. repeat split; [lia | lia | done | lia].
  - destruct (startsWith pat (c :: s)) eqn:E.
    + intros [= <-]. exists 0%nat. repeat split; [lia | simpl; lia | done | lia].
    + intros (j & -> & Hj & Hs & Hmin)%IH.
      exists (S j). repeat split; [lia | simpl; lia | done |].
      intros [|j'] Hlt; [done|]. simpl. apply Hmin. lia.
Qed.

Lemma indexOfFrom_None pat s pos :
  indexOfFrom pat s pos = None ->
  forall j, startsWith pat (drop j s) = false.
Proof.
  revert pos. induction s as [|c s IH]; intros pos; simpl.
  - destruct (startsWith pat []) eqn:E; [done|]. intros _ j.
    by rewrite drop_nil.
  - destruct (startsWith pat (c :: s)) eqn:E; [done|].
    intros H [|j]; [done|]. simpl. by eapply IH.
Qed.

(** What a successful [indexOf] says: the occurrence lies at or after
    the cursor, inside the text, and spells the pattern. *)
Lemma indexOf_found text pat offset k :
  0 <= offset <= jsLength text ->
  indexOf text pat offset = k -> k <> -1 ->
  offset <= k /\ k + jsLength pat <= jsLength text /\
  exists pre post, text = pre ++ pat ++ post /\ jsLength pre = k.
Proof.
  unfold indexOf, jsLength. intros Hoff Hk Hne.
  replace (Z.to_nat offset `min` length text)%nat with (Z.to_nat offset) in Hk by lia.
  destruct (indexOfFrom _ _ _) as [n|] eqn:E; [|lia]. subst k.
  apply indexOfFrom_Some in E as (j & -> & Hj & Hs & _).
  rewrite length_drop in Hj.
  pose proof (startsWith_length _ _ Hs) as Hl.
  rewrite drop_drop, length_drop in Hl.
  apply startsWith_spec in Hs as [post Hpost].
  rewrite drop_drop in Hpost.
  split; [lia|]. split; [lia|].
  exists (take (Z.to_nat offset + j) text), post. split.
  - by rewrite <- Hpost, take_drop.
  - rewrite length_take. lia.
Qed.


Lemma indexOf_range text pat offset :
  indexOf text pat offset = -1 \/ 0 <= indexOf text pat offset.
Proof. unfold indexOf. destruct (indexOfFrom _ _ _); lia. Qed.

End StrFacts.

(** ** The cache-aware order *)

Section OrderFacts.
Import Prompt.

Lemma insertByPriority_perm x l : insertByPriority x l ≡ₚ x :: l.
Proof.
  induction l as [|y l IH]; simpl; [done|].
  destruct (_ <=? _); [done|]. rewrite IH. apply Permutation_swap.
Qed.

Lemma sortByPriority_perm l : sortByPriority l ≡ₚ l.
Proof.
  induction l as [|x l IH]; simpl; [done|].
  by rewrite insertByPriority_perm, IH.
Qed.

Lemma insertByPriority_sorted x l :
  StronglySorted byPriority l -> StronglySorted byPriority (insertByPriority x l).
Proof.
  induction 1 as [|y l Hs IH Hall]; simpl.
  - repeat constructor.
  - destruct (Z.leb_spec (RenderedSection.priority x) (RenderedSection.priority y)).
    + constructor; [by constructor|]. constructor; [done|].
      eapply Forall_impl; [exact Hall|]. unfold byPriority. intros; simpl in *; lia.
    + constructor; [done|]. rewrite insertByPriority_perm.
      constructor; [unfold byPriority; lia | done].
Qed.

Lemma sortByPriority_sorted l : StronglySorted byPriority (sortByPriority l).
Proof.
  induction l as [|x l IH]; simpl; [constructor|].
  by apply insertByPriority_sorted.
Qed.

Lemma insertByPriority_filter (P : RenderedSection.t -> bool) x l :
  (forall y, P y = true ->
     RenderedSection.priority y = RenderedSection.priority x \/ P x = false) ->
  List.filter P (insertByPriority x l) = List.filter P (x :: l).
Proof.
  intros HP. induction l as [|y l IH]; simpl; [done|].
  destruct (Z.leb_spec (RenderedSection.priority x) (RenderedSection.priority y));
    [done|].
  simpl. rewrite IH. simpl.
  destruct (P y) eqn:Ey, (P x) eqn:Ex; try done.
  destruct (HP y Ey); [lia | done].
Qed.

(** The sort is stable: the sections of one priority keep their order. *)
Lemma sortByPriority_stable (P : RenderedSection.t -> bool) p l :
  (forall s, P s = true -> RenderedSection.priority s = p) ->
  List.filter P (sortByPriority l) = List.filter P l.
Proof.
  intros HP. induction l as [|x l IH]; simpl; [done|].
  rewrite insertByPriority_filter.
  - simpl. by rewrite IH.
  - intros y Hy. destruct (P x) eqn:Ex; [left | by right].
    by rewrite (HP _ Hy), (HP _ Ex).
Qed.

Lemma sortByPriority_id l :
  StronglySorted byPriority l -> sortByPriority l = l.
Proof.
  induction 1 as [|x l Hs IH Hall]; simpl; [done|].
  rewrite IH. destruct l as [|y l]; simpl; [done|].
  apply Forall_cons in Hall as [Hxy _]. unfold byPriority in Hxy.
  destruct (Z.leb_spec (RenderedSection.priority x) (RenderedSection.priority y));
    [done | lia].
Qed.

Lemma filter_all {A} (P : A -> bool) l :
  Forall (fun s => P s = true) l -> List.filter P l = l.
Proof. induction 1 as [|x l Hx _ IH]; simpl; [done|]. by rewrite Hx, IH. Qed.

Lemma filter_none {A} (P : A -> bool) l :
  Forall (fun s => P s = false) l -> List.filter P l = [].
Proof. induction 1 as [|x l Hx _ IH]; simpl; [done|]. by rewrite Hx. Qed.

Lemma Forall_filter_true {A} (P : A -> bool) l :
  Forall (fun s => P s = true) (List.filter P l).
Proof.
  apply Forall_forall. intros s Hs%list_elem_of_In%filter_In. tauto.
Qed.

Lemma filter_filter_sub {A} (P Q : A -> bool) l :
  (forall s, P s = true -> Q s = true) ->
  List.filter P (List.filter Q l) = List.filter P l.
Proof.
  intros H. induction l as [|x l IH]; simpl; [done|].
  destruct (Q x) eqn:Eq; simpl; rewrite IH; [done|].
  destruct (P x) eqn:Ep; [|done]. rewrite (H _ Ep) in Eq. done.
Qed.

Lemma filter_filter_excl {A} (P Q : A -> bool) l :
  (forall s, P s = true -> Q s = false) ->
  List.filter P (List.filter Q l) = [].
Proof.
  intros H. induction l as [|x l IH]; simpl; [done|].
  destruct (Q x) eqn:Eq; simpl; [|done].
  destruct (P x) eqn:Ep; [|done]. rewrite (H _ Ep) in Eq. done.
Qed.

Lemma filter_partition_perm {A} (P : A -> bool) l :
  List.filter P l ++ List.filter (fun s => negb (P s)) l ≡ₚ l.
Proof.
  induction l as [|x l IH]; simpl; [done|].
  destruct (P x); simpl.
  - by rewrite IH.
  - by rewrite <- Permutation_middle, IH.
Qed.

(** [C3] [optimizeForCaching] returns the cacheable sections, stably
    sorted by ascending priority, followed by the non-cacheable
    sections, stably sorted by ascending priority: its result is a
    permutation of its argument that splits into a cacheable front and
    a non-cacheable back, each in ascending priority, in which the
    sections of equal priority and equal cacheability keep the order
    they came in; and applied to its own result it returns it
    unchanged. *)
Theorem optimizeForCaching_spec (sections : list RenderedSection.t) :
  let ordered := optimizeForCaching sections in
  ordered ≡ₚ sections /\
  (exists front back,
     ordered = front ++ back /\
     Forall (fun s => RenderedSection.cacheable s = true) front /\
     Forall (fun s => RenderedSection.cacheable s = false) back /\
     StronglySorted byPriority front /\ StronglySorted byPriority back) /\
  (forall (c : bool) (p : Z),
     List.filter (fun s => bool_decide (RenderedSection.cacheable s = c) &&
                           bool_decide (RenderedSection.priority s = p)) ordered =
     List.filter (fun s => bool_decide (RenderedSection.cacheable s = c) &&
                           bool_decide (RenderedSection.priority s = p)) sections) /\
  optimizeForCaching ordered = ordered.
Proof.
  simpl. unfold optimizeForCaching.
  set (notC := fun s => negb (RenderedSection.cacheable s)).
  set (isC := RenderedSection.cacheable).
  set (cs := List.filter isC sections).
  set (ns := List.filter notC sections).
  assert (Forall (fun s => isC s = true) (sortByPriority cs)) as Hc.
  { rewrite sortByPriority_perm. apply Forall_filter_true. }
  assert (Forall (fun s => notC s = true) (sortByPriority ns)) as Hn.
  { rewrite sortByPriority_perm. apply Forall_filter_true. }
  assert (Forall (fun s => notC s = false) (sortByPriority cs)) as Hc'.
  { eapply Forall_impl; [exact Hc|]. unfold notC, isC. by intros s ->. }
  assert (Forall (fun s => isC s = false) (sortByPriority ns)) as Hn'.
  { eapply Forall_impl; [exact Hn|]. unfold notC, isC. intros s.
    by destruct (RenderedSection.cacheable s). }
  split; [|split; [|split]].
  - rewrite !sortByPriority_perm. apply filter_partition_perm.
  - exists (sortByPriority cs), (sortByPriority ns).
    repeat split; auto using sortByPriority_sorted.
  - intros c p.
    set (P := fun s => bool_decide (RenderedSection.cacheable s = c) &&
                       bool_decide (RenderedSection.priority s = p)).
    assert (forall s, P s = true -> RenderedSection.priority s = p) as HPp.
    { intros s [_ H]%andb_true_iff. by apply bool_decide_eq_true in H. }
    assert (forall s, P s = true -> RenderedSection.cacheable s = c) as HPc.
    { intros s [H _]%andb_true_iff. by apply bool_decide_eq_true in H. }
    rewrite List.filter_app, !(sortByPriority_stable P p) by done.
    unfold cs, ns. destruct c.
    + rewrite (filter_filter_sub P isC), (filter_filter_excl P notC).
      * apply app_nil_r.
      * intros s Hs. unfold notC. by rewrite (HPc s Hs).
      * intros s Hs. unfold isC. by rewrite (HPc s Hs).
    + rewrite (filter_filter_excl P isC), (filter_filter_sub P notC).
      * done.
      * intros s Hs. unfold notC. by rewrite (HPc s Hs).
      * intros s Hs. unfold isC. by rewrite (HPc s Hs).
  - rewrite !List.filter_app.
    rewrite (filter_all isC (sortByPriority cs)), (filter_none isC (sortByPriority ns)),
      (filter_none notC (sortByPriority cs)), (filter_all notC (sortByPriority ns))
      by done.
    rewrite app_nil_r. simpl.
    by rewrite (sortByPriority_id (sortByPriority cs)),
      (sortByPriority_id (sortByPriority ns)) by apply sortByPriority_sorted.
Qed.

End OrderFacts.

(** ** Outcomes *)

Lemma bind_Returns_inv {A B} (o : Outcome A) (f : A -> Outcome B) b :
  o ≫= f = Returns b -> exists a, o = Returns a /\ f a = Returns b.
Proof. destruct o as [a|e]; simpl; [eauto | discriminate]. Qed.

Lemma bind_Throws_inv {A B} (o : Outcome A) (f : A -> Outcome B) e :
  o ≫= f = Throws e ->
  o = Throws e \/ exists a, o = Returns a /\ f a = Throws e.
Proof. destruct o as [a|e']; simpl; [eauto | intros [= ->]; by left]. Qed.

(** ** The provenance table of a render *)

Section BuildFacts.

Lemma forwardFrom_weaken lo lo' ms :
  lo' <= lo -> SourceMap.forwardFrom lo ms -> SourceMap.forwardFrom lo' ms.
Proof. destruct ms as [|m ms]; simpl; [done|]. intros ? (? & ? & ?). repeat split; [lia|done..]. Qed.

Lemma forwardFrom_Forall lo ms :
  SourceMap.forwardFrom lo ms ->
  Forall (fun m => lo <= start (output m) <= end_ (output m)) ms.
Proof.
  revert lo. induction ms as [|m ms IH]; intros lo; simpl; [constructor|].
  intros (Hlo & Hse & Hrest). constructor; [lia|].
  eapply Forall_impl; [apply (IH _ Hrest)|]. simpl. intros; lia.
Qed.

Lemma forwardFrom_nonOverlapping lo ms :
  SourceMap.forwardFrom lo ms -> SourceMap.nonOverlapping ms = true.
Proof.
  revert lo. induction ms as [|m ms IH]; intros lo; simpl; [done|].
  intros (Hlo & Hse & Hrest). apply andb_true_iff. split; [|by eapply IH].
  apply forallb_forall. intros b Hb%list_elem_of_In.
  pose proof (forwardFrom_Forall _ _ Hrest) as Hall.
  eapply Forall_forall in Hall; [|exact Hb]. simpl in Hall.
  unfold SourceMap.disjoint. rewrite !orb_true_iff, !Z.leb_le. lia.
Qed.

Lemma forwardFrom_lookup lo ms i j a b :
  SourceMap.forwardFrom lo ms -> (i < j)%nat ->
  ms !! i = Some a -> ms !! j = Some b ->
  lo <= start (output a) <= end_ (output a) /\
  end_ (output a) <= start (output b) <= end_ (output b).
Proof.
  revert lo i j. induction ms as [|m ms IH]; intros lo i j; simpl; [done|].
  intros (Hlo & Hse & Hrest) Hij Ha Hb.
  destruct j as [|j]; [lia|]. simpl in Hb.
  destruct i as [|i]; simpl in Ha.
  - injection Ha as <-. split; [lia|].
    pose proof (forwardFrom_Forall _ _ Hrest) as Hall.
    eapply Forall_forall in Hall; [|by eapply list_elem_of_lookup_2]. done.
  - destruct (IH (end_ (output m)) i j Hrest ltac:(lia) Ha Hb) as [H1 H2].
    split; [lia | done].
Qed.

Lemma addSectionMapping_spec sm s i a b :
  exists m,
    SourceMap.mappings (Prompt.addSectionMapping sm s i a b) =
      SourceMap.mappings sm ++ [m] /\
    start (output m) = a /\ end_ (output m) = b /\
    sectionIndex (source m) = Some i /\
    SourceMap.renderedText (Prompt.addSectionMapping sm s i a b) =
      SourceMap.renderedText sm /\
    SourceMap.prompt (Prompt.addSectionMapping sm s i a b) = SourceMap.prompt sm.
Proof.
  unfold Prompt.addSectionMapping.
  destruct (type _); [destruct (fragmentId _) as [[|c fid]|] | |
                      destruct (fragmentId _) as [[|c fid]|] |
                      destruct (fragmentId _) as [[|c fid]|]];
    unfold SourceMap.addFragmentMapping, SourceMap.addDynamicMapping,
      SourceMap.addLiteralMapping;
    simpl; destruct (SourceMap.getLineColumn sm a) as [l c'];
    eexists; simpl; repeat split.
Qed.

(** What the loop of [buildSourceMap] adds: mappings that go forward
    from the cursor and stay inside the text; each carries the index of
    a section and covers an occurrence of the resolved text of that
    section. *)
Lemma buildSourceMapFrom_spec text secs :
  forall i offset sm,
    0 <= offset <= jsLength text ->
    exists added,
      SourceMap.mappings (Prompt.buildSourceMapFrom text secs i offset sm) =
        SourceMap.mappings sm ++ added /\
      SourceMap.forwardFrom offset added /\
      Forall (fun m => end_ (output m) <= jsLength text) added /\
      Forall (fun m => exists (j : nat) s pre post,
                secs !! j = Some s /\
                sectionIndex (source m) = Some (i + Z.of_nat j) /\
                text = pre ++ RenderedSection.content s ++ post /\
                jsLength pre = start (output m) /\
                end_ (output m) =
                  start (output m) + jsLength (RenderedSection.content s)) added.
Proof.
  induction secs as [|s secs IH]; intros i offset sm Hoff; simpl.
  - exists []. rewrite app_nil_r. repeat split; constructor.
  - pose proof (indexOf_range text (RenderedSection.content s) offset) as Hr.
    destruct (Z.eqb_spec (Str.indexOf text (RenderedSection.content s) offset) (-1))
      as [Hnf|Hf].
    + destruct (IH (i + 1) offset sm Hoff) as (added & Hm & Hfw & Hin & Hocc).
      exists added. repeat split; [done..|].
      eapply Forall_impl; [exact Hocc|]. simpl.
      intros m (j & s' & pre & post & Hj & Hi & Ht & Hp & He).
      exists (S j), s', pre, post. repeat split; [done | | done..].
      rewrite Hi. f_equal. lia.
    + set (k := Str.indexOf text (RenderedSection.content s) offset) in *.
      destruct (indexOf_found text (RenderedSection.content s) offset k Hoff eq_refl Hf)
        as (Hk & Hke & pre & post & Ht & Hp).
      destruct (addSectionMapping_spec sm s i k (k + jsLength (RenderedSection.content s)))
        as (m & Hm & Hms & Hme & Hmi & _).
      destruct (IH (i + 1) (k + jsLength (RenderedSection.content s))
                  (Prompt.addSectionMapping sm s i k
                     (k + jsLength (RenderedSection.content s))))
        as (added & Ha & Hfw & Hin & Hocc).
      { unfold jsLength in *. lia. }
      exists (m :: added). rewrite Ha, Hm, <- app_assoc. simpl.
      repeat split.
      * lia.
      * unfold jsLength in *. lia.
      * by rewrite Hme.
      * constructor; [lia | done].
      * constructor.
        -- exists 0%nat, s, pre, post. simpl. repeat split; [|done|lia|lia].
           rewrite Hmi. f_equal. lia.
        -- eapply Forall_impl; [exact Hocc|]. simpl.
           intros m' (j & s' & pre' & post' & Hj & Hi & Ht' & Hp' & He').
           exists (S j), s', pre', post'. repeat split; [done | | done..].
           rewrite Hi. f_equal. lia.
Qed.

Lemma render_inv env p ctx r :
  Prompt.render env p ctx = Returns r ->
  exists resolved,
    Prompt.resolveSections p (Prompt.enrich env p ctx) = Returns resolved /\
    let ordered := Prompt.orderSections p resolved in
    let text := Prompt.formatterOf env p ordered in
    CompiledPrompt.text r = text /\
    data_mappings (PromptMetadata.sourceMap (CompiledPrompt.meta r)) =
      SourceMap.mappings (Prompt.buildSourceMap p text ordered).
Proof.
  unfold Prompt.render. intros (resolved & Hres & Hr)%bind_Returns_inv.
  exists resolved. split; [done|]. injection Hr as <-. simpl.
  split; [done|]. unfold Prompt.buildMetadata.
  by destruct (Prompt.cacheablePrefixOf _ _ _ _).
Qed.

End BuildFacts.

Section RenderFacts.

(** [C1], as stated, fails on the start order: two sections with an
    empty text are both mapped to the empty range at offset 0, so the
    second start is not greater than the first. *)
Lemma render_starts_not_strict_counterexample :
  exists r a b,
    Prompt.render sampleServices twoEmpty [] = Returns r /\
    data_mappings (PromptMetadata.sourceMap (CompiledPrompt.meta r)) = [a; b] /\
    ~ (start (output a) < start (output b)).
Proof.
  eexists _, _, _. split; [vm_compute; reflexivity|].
  split; [reflexivity|]. vm_compute. discriminate.
Qed.

(** [C1] (amended) In the provenance table of every render the ranges
    are pairwise non-overlapping and go forward: a mapping starts at or
    after the end of every mapping before it, so the starts never
    decrease, and the start is strictly greater than that of an earlier
    mapping whose range is not empty; every range lies inside the
    text. Two sections with the same non-empty text that are both
    mapped therefore get two different ranges, the second after the
    first. *)
Theorem render_provenance_forward (env : Services) (p : Prompt.t)
    (ctx : RenderContext) (r : CompiledPrompt.t) :
  Prompt.render env p ctx = Returns r ->
  let ms := data_mappings (PromptMetadata.sourceMap (CompiledPrompt.meta r)) in
  SourceMap.nonOverlapping ms = true /\
  (forall (i j : nat) a b,
     (i < j)%nat -> ms !! i = Some a -> ms !! j = Some b ->
     end_ (output a) <= start (output b) /\
     start (output a) <= start (output b) /\
     (start (output a) < end_ (output a) ->
      start (output a) < start (output b))) /\
  (forall m, m ∈ ms ->
     0 <= start (output m) <= end_ (output m) /\
     end_ (output m) <= jsLength (CompiledPrompt.text r)).
Proof.
  intros (resolved & _ & Ht & Hm)%render_inv. simpl in *.
  rewrite Hm, Ht. unfold Prompt.buildSourceMap.
  set (text := Prompt.formatterOf env p (Prompt.orderSections p resolved)).
  destruct (buildSourceMapFrom_spec text (Prompt.orderSections p resolved) 0 0
              (SourceMap.setRenderedText (SourceMap.new (Prompt.name p)) text))
    as (added & -> & Hfw & Hin & _).
  { unfold jsLength. lia. }
  simpl. split; [|split].
  - by eapply forwardFrom_nonOverlapping.
  - intros i j a b Hij Ha Hb.
    destruct (forwardFrom_lookup _ _ _ _ _ _ Hfw Hij Ha Hb). lia.
  - intros m Hmem.
    pose proof (forwardFrom_Forall _ _ Hfw) as Hall.
    eapply Forall_forall in Hall; [|exact Hmem].
    eapply Forall_forall in Hin; [|exact Hmem]. simpl in *. lia.
Qed.

Lemma render_provenance_forward_witness :
  match Prompt.render sampleServices twiceHelpful [] with
  | Returns r =>
      let ms := data_mappings (PromptMetadata.sourceMap (CompiledPrompt.meta r)) in
      SourceMap.nonOverlapping ms = true /\
      (forall (i j : nat) a b,
         (i < j)%nat -> ms !! i = Some a -> ms !! j = Some b ->
         end_ (output a) <= start (output b) /\
         start (output a) <= start (output b) /\
         (start (output a) < end_ (output a) ->
          start (output a) < start (output b))) /\
      (forall m, m ∈ ms ->
         0 <= start (output m) <= end_ (output m) /\
         end_ (output m) <= jsLength (CompiledPrompt.text r))
  | Throws _ => False
  end.
Proof.
  destruct (Prompt.render sampleServices twiceHelpful []) as [r|e] eqn:E.
  - exact (render_provenance_forward sampleServices twiceHelpful [] r E).
  - vm_compute in E. discriminate.
Defined.

(** The scenario of the specification: the two sections with the text
    [Be helpful.] get the ranges [[10, 21)] and [[42, 53)] of the XML
    text, one for each occurrence. *)
Example twiceHelpful_ranges :
  (fun r => map (fun m => (start (output m), end_ (output m)))
              (data_mappings (PromptMetadata.sourceMap (CompiledPrompt.meta r))))
    <$> Prompt.render sampleServices twiceHelpful []
  = Returns [(10, 21); (42, 53)].
Proof. vm_compute. reflexivity. Qed.

End RenderFacts.

(** ** Sections that survive the formatter are all mapped *)

Section MappedFacts.

(** [indexOf] finds the first occurrence at or after the cursor. *)
Lemma indexOf_first text pat offset pre post :
  0 <= offset <= jsLength pre ->
  text = pre ++ pat ++ post ->
  offset <= Str.indexOf text pat offset <= jsLength pre.
Proof.
  unfold Str.indexOf, jsLength. intros Hoff ->.
  rewrite !length_app.
  replace (Z.to_nat offset `min` (length pre + (length pat + length post)))%nat
    with (Z.to_nat offset) by lia.
  assert (Str.startsWith pat
            (drop (length pre - Z.to_nat offset)
               (drop (Z.to_nat offset) (pre ++ pat ++ post))) = true) as Hocc.
  { rewrite drop_drop.
    replace (Z.to_nat offset + (length pre - Z.to_nat offset))%nat
      with (length pre) by lia.
    rewrite drop_app_length. apply startsWith_spec. eauto. }
  destruct (Str.indexOfFrom _ _ _) as [n|] eqn:E.
  - apply indexOfFrom_Some in E as (j & -> & _ & _ & Hmin).
    destruct (decide (length pre - Z.to_nat offset < j)%nat) as [Hlt|Hge].
    + rewrite (Hmin _ Hlt) in Hocc. done.
    + lia.
  - rewrite (indexOfFrom_None _ _ _ E) in Hocc. done.
Qed.

Lemma occursInOrder_prefix x text cs :
  Prompt.occursInOrder text cs -> Prompt.occursInOrder (x ++ text) cs.
Proof.
  destruct cs as [|c cs]; simpl; [done|].
  intros (pre & post & -> & H). exists (x ++ pre), post.
  by rewrite <- app_assoc.
Qed.

Lemma join_occursInOrder sep (fs : RenderedSection.t -> JsString) secs :
  Forall (fun s => exists pre post,
            fs s = pre ++ RenderedSection.content s ++ post) secs ->
  Prompt.occursInOrder (Str.join sep (map fs secs))
    (map RenderedSection.content secs).
Proof.
  induction 1 as [|s secs (pre & post & Hs) _ IH]; [done|].
  destruct secs as [|s' secs].
  - simpl. exists pre, post. by rewrite Hs.
  - change (Str.join sep (map fs (s :: s' :: secs)))
      with (fs s ++ sep ++ Str.join sep (map fs (s' :: secs))).
    cbn [map Prompt.occursInOrder].
    exists pre, (post ++ sep ++ Str.join sep (map fs (s' :: secs))).
    split; [by rewrite Hs, <- !app_assoc|].
    rewrite app_assoc. exact (occursInOrder_prefix (post ++ sep) _ _ IH).
Qed.

(** When the resolved texts occur in the text after the cursor, in the
    order of the sections, the loop maps every section: the forward
    search takes the first occurrence of each and so leaves room for
    the ones that follow. *)
Lemma buildSourceMapFrom_all_mapped text secs :
  forall i offset sm,
    0 <= offset <= jsLength text ->
    Prompt.occursInOrder (drop (Z.to_nat offset) text)
      (map RenderedSection.content secs) ->
    exists added,
      SourceMap.mappings (Prompt.buildSourceMapFrom text secs i offset sm) =
        SourceMap.mappings sm ++ added /\
      length added = length secs /\
      forall (j : nat) m, added !! j = Some m ->
        exists s, secs !! j = Some s /\
          sectionIndex (source m) = Some (i + Z.of_nat j) /\
          end_ (output m) - start (output m) =
            jsLength (RenderedSection.content s).
Proof.
  induction secs as [|s secs IH]; intros i offset sm Hoff Hocc.
  - exists []. simpl. rewrite app_nil_r. split; [done|]. split; [done|].
    intros j m Hj. by rewrite lookup_nil in Hj.
  - cbn [map Prompt.occursInOrder] in Hocc.
    destruct Hocc as (pre & post & Hd & Hrest).
    assert (text = (take (Z.to_nat offset) text ++ pre) ++
                   RenderedSection.content s ++ post) as Ht.
    { rewrite <- app_assoc, <- Hd. by rewrite take_drop. }
    assert (jsLength (take (Z.to_nat offset) text ++ pre) = offset + jsLength pre)
      as Hlen.
    { unfold jsLength in *. rewrite length_app, length_take. lia. }
    assert (0 <= offset <= jsLength (take (Z.to_nat offset) text ++ pre)) as Hpre.
    { rewrite Hlen. unfold jsLength. lia. }
    pose proof (indexOf_first text (RenderedSection.content s) offset _ _ Hpre Ht)
      as Hk.
    rewrite Hlen in Hk.
    simpl.
    set (k := Str.indexOf text (RenderedSection.content s) offset) in *.
    destruct (Z.eqb_spec k (-1)) as [Hnf|_]; [lia|].
    destruct (addSectionMapping_spec sm s i k (k + jsLength (RenderedSection.content s)))
      as (m & Hm & Hms & Hme & Hmi & _).
    assert (jsLength text = offset + jsLength pre +
              jsLength (RenderedSection.content s) + jsLength post) as Htl.
    { rewrite Ht at 1. unfold jsLength in *. rewrite !length_app in *. lia. }
    destruct (IH (i + 1) (k + jsLength (RenderedSection.content s))
                (Prompt.addSectionMapping sm s i k
                   (k + jsLength (RenderedSection.content s))))
      as (added & Ha & Hall & Hall').
    { unfold jsLength in *. lia. }
    { set (e := Z.to_nat (k + jsLength (RenderedSection.content s))).
      set (full := (Z.to_nat (offset + jsLength pre +
                      jsLength (RenderedSection.content s)))).
      assert (drop full text = post) as Hpost.
      { rewrite Ht, !app_assoc. apply drop_app_length'.
        unfold full, jsLength in *. rewrite !length_app in *.
        rewrite length_take. lia. }
      assert (drop (full - e) (drop e text) = post) as Hpost'.
      { rewrite drop_drop.
        replace (e + (full - e))%nat with full
          by (unfold e, full, jsLength in *; lia).
        done. }
      rewrite <- (take_drop (full - e) (drop e text)), Hpost'.
      by apply occursInOrder_prefix. }
    exists (m :: added). rewrite Ha, Hm, <- app_assoc.
    split; [done|]. split; [simpl; lia|].
    intros [|j] m' Hj; simpl in Hj.
    + injection Hj as <-. exists s. split; [done|].
      rewrite Hmi, Hme, Hms. split; [f_equal; lia | lia].
    + destruct (Hall' j m' Hj) as (s' & Hs' & Hi' & He').
      exists s'. split; [done|]. split; [|done].
      rewrite Hi'. f_equal. lia.
Qed.

End MappedFacts.

Section FormatterFacts.

Lemma optimizeForCaching_perm l : Prompt.optimizeForCaching l ≡ₚ l.
Proof.
  unfold Prompt.optimizeForCaching. rewrite !sortByPriority_perm.
  apply filter_partition_perm.
Qed.

Lemma orderSections_perm p l : Prompt.orderSections p l ≡ₚ l.
Proof.
  unfold Prompt.orderSections.
  destruct (PromptOptions.cacheOptimize _) as [[|]|];
    auto using optimizeForCaching_perm.
Qed.

(** Each built-in formatter writes the trimmed text of a section
    between a decoration of its own. *)
Lemma builtin_formatSection_trimmed fmt s :
  exists pre post,
    formatSection (createFormatter fmt) s =
    pre ++ Str.trim (RenderedSection.content s) ++ post.
Proof.
  destruct fmt; cbn [createFormatter formatSection XmlFormatter.formatter
    MarkdownFormatter.formatter PlainFormatter.formatter].
  - unfold XmlFormatter.formatSection.
    destruct (Str.trim (RenderedSection.content s)) as [|c t] eqn:E.
    + eexists _, _. cbn [app]. reflexivity.
    + destruct (_ && _).
      * exists (js "<" ++ XmlFormatter.getTagName s ++ js ">"),
          (js "</" ++ XmlFormatter.getTagName s ++ js ">").
        by rewrite <- !app_assoc.
      * exists (js "<" ++ XmlFormatter.getTagName s ++ js ">" ++ [LF]),
          ([LF] ++ js "</" ++ XmlFormatter.getTagName s ++ js ">").
        by rewrite <- !app_assoc.
  - unfold MarkdownFormatter.formatSection.
    destruct (Str.trim (RenderedSection.content s)) as [|c t] eqn:E.
    + eexists _, []. by rewrite !app_nil_r.
    + exists (repeat 35%N 2 ++ js " " ++ MarkdownFormatter.getHeader s ++ [LF; LF]), [].
      by rewrite <- !app_assoc, app_nil_r.
  - unfold PlainFormatter.formatSection. cbn [negb].
    destruct (Str.trim (RenderedSection.content s)) as [|c t] eqn:E.
    + eexists _, []. by rewrite !app_nil_r.
    + exists (js "[" ++ PlainFormatter.getLabel s ++ js "]" ++ [LF]), [].
      by rewrite <- !app_assoc, app_nil_r.
Qed.

Lemma createFormatter_format fmt secs :
  format (createFormatter fmt) secs =
  Str.join (match fmt with
            | FPlain => [LF; LF] ++ js "---" ++ [LF; LF]
            | _ => [LF; LF]
            end)
    (map (formatSection (createFormatter fmt)) secs).
Proof. by destruct fmt. Qed.

(** The text of a render is the join of what the formatter writes for
    each section, and the formatter writes either the resolved text
    itself (with [formatForModel: false]) or its trimmed form between a
    decoration. *)
Lemma formatterOf_shape env p :
  exists sep fs,
    (forall secs, Prompt.formatterOf env p secs = Str.join sep (map fs secs)) /\
    ((forall s, fs s = RenderedSection.content s) \/
     (forall s, exists pre post,
        fs s = pre ++ Str.trim (RenderedSection.content s) ++ post)).
Proof.
  unfold Prompt.formatterOf.
  destruct (PromptOptions.formatForModel _) as [[|]|].
  2: { exists [LF; LF], RenderedSection.content. split; [done | by left]. }
  all: destruct (PromptOptions.format _) as [f|].
  all: try (eexists _, _; split;
            [apply createFormatter_format
            | right; apply builtin_formatSection_trimmed]).
  all: unfold getFormatterForModel;
    destruct (ModelConfig.preferredFormat _).
  all: first [ exists [LF; LF], (formatSection (createFormatter FXml))
             | exists [LF; LF], (formatSection (createFormatter FMarkdown))
             | exists ([LF; LF] ++ js "---" ++ [LF; LF]),
                 (formatSection (createFormatter FPlain)) ];
    (split; [done | right; apply builtin_formatSection_trimmed]).
Qed.

End FormatterFacts.

Section TrimFacts.






(** The padded section of [paddedHelpful] is the one without a mapping:
    the table of the render holds the mapping of the other section
    only. *)
Example paddedHelpful_mappings :
  (fun r => map (fun m => (sectionIndex (source m), start (output m), end_ (output m)))
              (data_mappings (PromptMetadata.sourceMap (CompiledPrompt.meta r))))
    <$> Prompt.render sampleServices paddedHelpful []
  = Returns [(Some 1, 42, 58)].
Proof. vm_compute. reflexivity. Qed.

(** When no resolved text has white space at its ends, every section
    is mapped: the table has one mapping for each section, in the order
    of assembly. *)
Theorem render_maps_every_section (env : Services) (p : Prompt.t)
    (ctx : RenderContext) (r : CompiledPrompt.t)
    (resolved : list RenderedSection.t) :
  Prompt.render env p ctx = Returns r ->
  Prompt.resolveSections p (Prompt.enrich env p ctx) = Returns resolved ->
  Forall (fun s => Str.trim (RenderedSection.content s) = RenderedSection.content s)
    resolved ->
  let ms := data_mappings (PromptMetadata.sourceMap (CompiledPrompt.meta r)) in
  length ms = length resolved /\
  forall (j : nat) m, ms !! j = Some m ->
    exists s, Prompt.orderSections p resolved !! j = Some s /\
      sectionIndex (source m) = Some (Z.of_nat j) /\
      end_ (output m) - start (output m) = jsLength (RenderedSection.content s).
Proof.
  intros (resolved' & Hres & Ht & Hm)%render_inv Hres' Htrim.
  rewrite Hres' in Hres. injection Hres as <-. simpl in *.
  rewrite Hm. unfold Prompt.buildSourceMap.
  set (ordered := Prompt.orderSections p resolved).
  assert (Forall (fun s => Str.trim (RenderedSection.content s) =
                           RenderedSection.content s) ordered) as Htrim'.
  { unfold ordered. by rewrite orderSections_perm. }
  destruct (formatterOf_shape env p) as (sep & fs & Hfmt & Hfs).
  assert (Prompt.occursInOrder (Prompt.formatterOf env p ordered)
            (map RenderedSection.content ordered)) as Hocc.
  { rewrite Hfmt. apply join_occursInOrder.
    eapply Forall_impl; [exact Htrim'|]. simpl. intros s Hs.
    destruct Hfs as [Hraw|Hdec].
    - exists [], []. by rewrite Hraw, app_nil_r.
    - destruct (Hdec s) as (pre & post & Hx). exists pre, post. by rewrite Hx, Hs. }
  destruct (buildSourceMapFrom_all_mapped (Prompt.formatterOf env p ordered) ordered 0 0
              (SourceMap.setRenderedText (SourceMap.new (Prompt.name p))
                 (Prompt.formatterOf env p ordered)))
    as (added & -> & Hlen & Hall).
  { unfold jsLength. lia. }
  { by rewrite drop_0. }
  simpl. split.
  - rewrite Hlen. unfold ordered. by rewrite orderSections_perm.
  - intros j m Hj. destruct (Hall j m Hj) as (s & Hs & Hi & He).
    exists s. by rewrite Z.add_0_l in Hi.
Qed.

End TrimFacts.

(** ** What makes a render raise *)

Section RaiseFacts.







Lemma replaceLoop_returns s ms fn : forall cur,
  (forall m, exists t, fn m = Returns t) ->
  exists t, Regex.replaceLoop s ms cur fn = Returns t.
Proof.
  induction ms as [|m ms IH]; intros cur Hfn; simpl; [eauto|].
  destruct (Hfn m) as [rep ->]. destruct (IH (Regex.m_end m) Hfn) as [tl ->].
  simpl. eauto.
Qed.






End RaiseFacts.

(** ** The rule loop of the linter *)

Section LinterFacts.
Variable env : Services.
Variable elapsed : Z.

Lemma runRule_allWarnings L ia ign ctx st entry :
  Linter.allWarnings (Linter.runRule L ia ign ctx st entry) =
  Linter.allWarnings st ++ Linter.findingsOf L ia ign ctx entry.
Proof.
  destruct entry as [ruleId rule]. unfold Linter.runRule, Linter.findingsOf. simpl.
  destruct (Linter.ruleConfig L !! ruleId) as [rc|]; [|by rewrite app_nil_r].
  destruct (Linter.parseRuleConfig rc) as [severity options]. simpl.
  case_bool_decide; [by rewrite app_nil_r|].
  destruct (ia || _); [by rewrite app_nil_r|].
  destruct (LintRule.check rule _); simpl; [done | by rewrite app_nil_r].
Qed.

Lemma fold_runRule_allWarnings L ia ign ctx rules : forall st,
  Linter.allWarnings (fold_left (Linter.runRule L ia ign ctx) rules st) =
  Linter.allWarnings st ++ flat_map (Linter.findingsOf L ia ign ctx) rules.
Proof.
  induction rules as [|entry rules IH]; intros st; simpl.
  - by rewrite app_nil_r.
  - by rewrite IH, runRule_allWarnings, <- app_assoc.
Qed.

(** The findings of a run are the findings of each entry of the
    registry, in registration order: what one rule adds does not depend
    on the other rules. *)
Lemma runRules_allWarnings L p r :
  Linter.allWarnings (Linter.runRules env L p r) =
  flat_map
    (Linter.findingsOf L
       (bool_decide (js "*" ∈ Linter.parseIgnoredRules (CompiledPrompt.text r)))
       (Linter.parseIgnoredRules (CompiledPrompt.text r))
       (Linter.contextOf env p r))
    (Linter.rules L).
Proof. unfold Linter.runRules. by rewrite fold_runRule_allWarnings. Qed.



End LinterFacts.

(** ** The exception contract *)

Section ContractFacts.




End ContractFacts.

(** ** Semantic analysis and the call count *)

Section LlmFacts.

(** The constructor does not read the [llm] entry: the linter is the
    same with and without it, and its registry holds the built-in and
    the custom rules only. *)
Lemma new_ignores_llm checks config :
  Linter.new checks config =
  Linter.new checks
    (LinterConfig.mk (LinterConfig.rules config) None (LinterConfig.custom config)).
Proof. reflexivity. Qed.

(** Whatever the configuration and the prompt, the call count of a
    result is 0. *)
Lemma lint_llmCalls_zero env checks elapsed config p result :
  Linter.lint env elapsed (Linter.new checks config) p = Returns result ->
  LintStats.llmCalls (LintResult.stats result) = 0.
Proof.
  unfold Linter.lint. intros (r & _ & [= <-])%bind_Returns_inv. reflexivity.
Qed.

(** [C5] The linter with semantic analysis enabled and a working client,
    on the prompt of the linter tests: the heuristic rules find no
    error, and the run reports 0 calls (the tests of the repository
    expect 1). *)
Example lint_llm_enabled_no_call :
  (fun result => (LintResult.passed result,
                  length (LintResult.errors result),
                  LintStats.llmCalls (LintResult.stats result)))
    <$> Linter.lint sampleServices 0 (Linter.new quietChecks llmEnabledConfig)
          helpfulAssistant
  = Returns (true, 0%nat, 0).
Proof. vm_compute. reflexivity. Qed.

End LlmFacts.

(** ** Configured severities *)

Section SeverityFacts.

Lemma applySeverity_severity sev s w :
  Linter.toLintSeverity sev = Some s ->
  LintWarning.severity (Linter.applySeverity sev w) = s.
Proof. destruct sev; simpl; intros [= <-]; reflexivity. Qed.








End SeverityFacts.

(** ** The semantic response parser *)

Section ParserFacts.
Import SemanticParser.



(** When the client answers, the check of the semantic rule returns:
    a malformed answer does not make it raise. *)
Lemma semanticRule_check systemPrompt client ctx :
  (forall user system, exists raw,
     LlmClient.generate client user system = Returns raw) ->
  exists warnings,
    LintRule.check (createSemanticRule systemPrompt client) ctx = Returns warnings.
Proof.
  intros Hgen. unfold createSemanticRule. cbn [LintRule.check].
  match goal with
  | |- context [LlmClient.generate client ?u ?s] =>
      destruct (Hgen u s) as [raw ->]
  end.
  simpl. eauto.
Qed.

End ParserFacts.

(** ** The matcher on texts of a known shape *)

Section EngineFacts.
Import Regex.

Lemma clearGroups_nil caps : clearGroups [] caps = caps.
Proof.
  unfold clearGroups. induction caps as [|c caps IH]; [done|].
  cbn [List.filter]. rewrite bool_decide_eq_false_2 by apply not_elem_of_nil.
  cbn [negb]. by rewrite IH.
Qed.

Lemma advance_app st w1 w2 :
  advance st (w1 ++ w2) = advance (advance st w1) w2.
Proof. revert st. induction w1 as [|c w1 IH]; intros st; simpl; [done | apply IH]. Qed.

Lemma rest_advance st w tl :
  rest st = w ++ tl -> rest (advance st w) = tl.
Proof.
  revert st. induction w as [|c w IH]; intros st H; simpl; [done|].
  apply IH. simpl. by rewrite H.
Qed.

Lemma pos_advance st w : pos (advance st w) = (pos st + length w)%nat.
Proof.
  revert st. induction w as [|c w IH]; intros st; simpl; [lia|].
  rewrite IH. simpl. lia.
Qed.

(** One character. *)
Lemma rmatch_RChar P st caps k c tl :
  rest st = c :: tl -> P c = true ->
  rmatch (RChar P) st caps k = k (advance st [c]) caps.
Proof. intros H HP. simpl. by rewrite H, HP. Qed.

Lemma rmatch_RChar_fail P st caps k :
  match rest st with [] => True | c :: _ => P c = false end ->
  rmatch (RChar P) st caps k = None.
Proof. simpl. destruct (rest st) as [|c tl]; [done|]. by intros ->. Qed.

(** A sequence of characters, each under its own predicate. *)
Lemma rmatch_seqOf_chars (f : N -> Re) (P : N -> N -> bool) cs :
  (forall c, f c = RChar (P c)) ->
  forall w st caps k tl,
    rest st = w ++ tl ->
    Forall2 (fun c x => P c x = true) cs w ->
    rmatch (seqOf (map f cs)) st caps k = k (advance st w) caps.
Proof.
  intros Hf. induction cs as [|c cs IH]; intros w st caps k tl Hrest Hall.
  - apply Forall2_nil_inv_l in Hall as ->. done.
  - apply Forall2_cons_inv_l in Hall as (x & w' & Hx & Hall & ->).
    destruct cs as [|c' cs].
    + apply Forall2_nil_inv_l in Hall as ->. simpl. rewrite Hf.
      by eapply rmatch_RChar.
    + change (seqOf (map f (c :: c' :: cs)))
        with (RSeq (f c) (seqOf (map f (c' :: cs)))).
      cbn [rmatch]. rewrite Hf.
      rewrite (rmatch_RChar _ _ _ _ x (w' ++ tl)) by done.
      rewrite (IH w' _ caps k tl); [done | | done].
      simpl. by rewrite Hrest.
Qed.

Lemma rmatch_str s st caps k tl :
  rest st = js s ++ tl ->
  rmatch (str s) st caps k = k (advance st (js s)) caps.
Proof.
  intros H. unfold str. eapply (rmatch_seqOf_chars lit N.eqb); [done | exact H |].
  clear H. induction (js s); constructor; [apply N.eqb_refl | done].
Qed.

Lemma rmatch_strCI s w st caps k tl :
  rest st = w ++ tl ->
  Str.toUpperCase w = Str.toUpperCase (js s) ->
  rmatch (strCI s) st caps k = k (advance st w) caps.
Proof.
  intros H Hup. unfold strCI.
  eapply (rmatch_seqOf_chars litCI
            (fun c x => N.eqb (Str.upperChar x) (Str.upperChar c)));
    [done | exact H |].
  unfold Str.toUpperCase in Hup. clear H. revert w Hup.
  induction (js s) as [|c cs IH]; intros [|x w] Hup; try discriminate.
  - constructor.
  - injection Hup as Hx Hw. constructor; [by apply N.eqb_eq | by apply IH].
Qed.

Lemma starLoop_greedy_S ma clear k fuel st caps :
  starLoop true ma clear k (S fuel) st caps =
  match ma st (clear caps)
          (fun st' caps' =>
             if Nat.eqb (pos st') (pos st) then None
             else starLoop true ma clear k fuel st' caps') with
  | Some res => Some res
  | None => k st caps
  end.
Proof. reflexivity. Qed.

Lemma starLoop_greedy_O ma clear k st caps :
  starLoop true ma clear k 0 st caps = k st caps.
Proof. reflexivity. Qed.

Lemma advance_cons st c w tl :
  rest st = c :: tl -> advance st (c :: w) = advance (advance st [c]) w.
Proof. done. Qed.

(** A greedy run over a character class takes the whole run when the
    rest of the pattern then matches. *)
Lemma starLoop_class_greedy P k res tl :
  match tl with [] => True | c :: _ => P c = false end ->
  forall w fuel st caps,
    rest st = w ++ tl -> forallb P w = true -> (length w <= fuel)%nat ->
    k (advance st w) caps = Some res ->
    starLoop true (rmatch (RChar P)) (clearGroups []) k fuel st caps = Some res.
Proof.
  intros Htl. induction w as [|c w IH]; intros fuel st caps Hrest Hall Hfuel Hk.
  - simpl in Hrest, Hk. destruct fuel as [|fuel]; [done|].
    rewrite starLoop_greedy_S, rmatch_RChar_fail; [done|].
    by rewrite Hrest.
  - destruct fuel as [|fuel]; [simpl in Hfuel; lia|].
    simpl in Hall. apply andb_true_iff in Hall as [Hc Hall].
    rewrite starLoop_greedy_S, clearGroups_nil.
    rewrite (rmatch_RChar P st caps _ c (w ++ tl)) by done.
    cbn [advance pos]. rewrite (proj2 (Nat.eqb_neq _ _)) by lia.
    rewrite (IH fuel _ caps); [done | | done | simpl in Hfuel; lia | done].
    simpl. by rewrite Hrest.
Qed.

Lemma rmatch_star_class P k res st caps w tl :
  rest st = w ++ tl -> forallb P w = true ->
  match tl with [] => True | c :: _ => P c = false end ->
  k (advance st w) caps = Some res ->
  rmatch (star (RChar P)) st caps k = Some res.
Proof.
  intros Hrest Hall Htl Hk. unfold star. cbn [rmatch groupsOf].
  eapply starLoop_class_greedy; eauto.
  rewrite Hrest, length_app. lia.
Qed.



End EngineFacts.

(** ** The search for matches *)

Section SearchFacts.
Import Regex.

Lemma rest_advance_1 st c tl :
  rest st = c :: tl -> rest (advance st [c]) = tl.
Proof. intros H. simpl. by rewrite H. Qed.

Lemma starLoop_lazy_S ma clear k fuel st caps :
  starLoop false ma clear k (S fuel) st caps =
  match k st caps with
  | Some res => Some res
  | None =>
      ma st (clear caps)
        (fun st' caps' =>
           if Nat.eqb (pos st') (pos st) then None
           else starLoop false ma clear k fuel st' caps')
  end.
Proof. reflexivity. Qed.

Lemma starLoop_lazy_O ma clear k st caps :
  starLoop false ma clear k 0 st caps = k st caps.
Proof. simpl. by destruct (k st caps). Qed.

(** What a successful match has read: some code units [w] of the
    subject, none of them a code unit that every character predicate
    of the pattern rejects; the rest of the pattern went on from
    there. *)
Lemma rmatch_consumed r :
  forall st caps k res,
    rmatch r st caps k = Some res ->
    exists w caps',
      rest st = w ++ rest (advance st w) /\
      (forall c, rejects c r = true -> c ∉ w) /\
      k (advance st w) caps' = Some res.
Proof.
  induction r as [P| |a IHa b IHb|a IHa b IHb|g a IHa|i a IHa| | |];
    intros st caps k res H.
  - simpl in H. destruct (rest st) as [|x tl] eqn:E; [done|].
    destruct (P x) eqn:EP; [|done].
    exists [x], caps. simpl. rewrite E. simpl. repeat split; [|done].
    intros c Hc [->|Hin]%elem_of_cons; [|by apply elem_of_nil in Hin].
    simpl in Hc. by rewrite EP in Hc.
  - exists [], caps. simpl. repeat split; [|done].
    intros c _ Hin. by apply elem_of_nil in Hin.
  - simpl in H. apply IHa in H as (w1 & caps1 & Hr1 & Hc1 & H).
    apply IHb in H as (w2 & caps2 & Hr2 & Hc2 & H).
    exists (w1 ++ w2), caps2. rewrite advance_app. repeat split; [|  |done].
    + by rewrite Hr1 at 1; rewrite Hr2 at 1; rewrite app_assoc.
    + intros c [Ha Hb]%andb_true_iff [Hin|Hin]%elem_of_app;
        [by eapply Hc1 | by eapply Hc2].
  - simpl in H. destruct (rmatch a st caps k) as [res'|] eqn:E.
    + injection H as <-. apply IHa in E as (w & caps' & Hr & Hc & Hk).
      exists w, caps'. repeat split; [done | | done].
      intros c [Ha _]%andb_true_iff. by apply Hc.
    + apply IHb in H as (w & caps' & Hr & Hc & Hk).
      exists w, caps'. repeat split; [done | | done].
      intros c [_ Hb]%andb_true_iff. by apply Hc.
  - simpl in H. revert H. generalize (length (rest st)) as fuel.
    intros fuel. revert st caps.
    induction fuel as [|fuel IHf]; intros st caps H.
    + assert (k st caps = Some res) as Hk.
      { destruct g; [by rewrite starLoop_greedy_O in H
                    | by rewrite starLoop_lazy_O in H]. }
      exists [], caps. simpl. repeat split; [|done].
      intros c _ Hin. by apply elem_of_nil in Hin.
    + assert (k st caps = Some res \/
              rmatch a st (clearGroups (groupsOf a) caps)
                (fun st' caps' =>
                   if Nat.eqb (pos st') (pos st) then None
                   else starLoop g (rmatch a) (clearGroups (groupsOf a)) k
                          fuel st' caps') = Some res) as [Hk|Hit].
      { destruct g.
        - rewrite starLoop_greedy_S in H.
          destruct (rmatch a st _ _) as [res'|]; [right; congruence | by left].
        - rewrite starLoop_lazy_S in H.
          destruct (k st caps) as [res'|]; [left; congruence | by right]. }
      * exists [], caps. simpl. repeat split; [|done].
        intros c _ Hin. by apply elem_of_nil in Hin.
      * apply IHa in Hit as (w1 & caps1 & Hr1 & Hc1 & Hit).
        destruct (Nat.eqb _ _); [done|].
        apply IHf in Hit as (w2 & caps2 & Hr2 & Hc2 & Hk).
        exists (w1 ++ w2), caps2. rewrite advance_app. repeat split; [| |done].
        -- by rewrite Hr1 at 1; rewrite Hr2 at 1; rewrite app_assoc.
        -- intros c Hc [Hin|Hin]%elem_of_app; [by eapply Hc1 | by eapply Hc2].
  - simpl in H. apply IHa in H as (w & caps' & Hr & Hc & Hk).
    eexists w, _. repeat split; [done | done | exact Hk].
  - simpl in H. destruct (Nat.eqb _ _); [|done].
    exists [], caps. simpl. repeat split; [|done].
    intros c _ Hin. by apply elem_of_nil in Hin.
  - simpl in H. destruct (rest st) eqn:E; [|done].
    exists [], caps. simpl. rewrite E. repeat split; [|done].
    intros c _ Hin. by apply elem_of_nil in Hin.
  - simpl in H. destruct (xorb _ _); [|done].
    exists [], caps. simpl. repeat split; [|done].
    intros c _ Hin. by apply elem_of_nil in Hin.
Qed.

(** A match found at a position starts there and ends where what it
    read ends. *)
Lemma matchAt_consumed r st m :
  matchAt r st = Some m ->
  m_start m = pos st /\
  exists w,
    rest st = w ++ rest (advance st w) /\
    (forall c, rejects c r = true -> c ∉ w) /\
    m_end m = (pos st + length w)%nat.
Proof.
  unfold matchAt.
  destruct (rmatch r st [] _) as [[e caps]|] eqn:E; [|done].
  intros [= <-]. simpl. split; [done|].
  apply rmatch_consumed in E as (w & caps' & Hr & Hc & [= <- _]).
  exists w. by rewrite pos_advance.
Qed.

Lemma drop_cons_inv {A} (s : list A) q c tl :
  drop q s = c :: tl -> s !! q = Some c /\ tl = drop (S q) s.
Proof.
  revert q. induction s as [|x s IH]; intros [|q] H; simpl in *; try done.
  - injection H as -> ->. by rewrite drop_0.
  - by apply IH.
Qed.

Lemma stateAt_rest s q : rest (stateAt s q) = drop q s.
Proof. done. Qed.

Lemma stateAt_S s q c :
  s !! q = Some c ->
  mkState (S q) (Some c) (drop (S q) s) = stateAt s (S q).
Proof.
  intros H. unfold stateAt. f_equal.
  rewrite (take_S_r _ _ _ H). by rewrite last_snoc.
Qed.

(** The search finds the match at the first position that has one. *)
Lemma searchFrom_found r s m p : forall fuel q,
  (q <= p)%nat -> (p <= length s)%nat -> (q + fuel = length s)%nat ->
  matchAt r (stateAt s p) = Some m ->
  (forall q', (q <= q' < p)%nat -> matchAt r (stateAt s q') = None) ->
  searchFrom r (stateAt s q) fuel = Some m.
Proof.
  induction fuel as [|fuel IH]; intros q Hq Hp Hf Hm Hnone.
  - assert (q = p) as -> by lia. simpl. by rewrite Hm.
  - simpl. destruct (decide (q = p)) as [->|Hne].
    + by rewrite Hm.
    + rewrite Hnone by lia.
      destruct (drop q s) as [|c tl] eqn:E.
      { apply (f_equal length) in E. rewrite length_drop in E. simpl in E. lia. }
      apply drop_cons_inv in E as [Hc ->].
      rewrite (stateAt_S _ _ _ Hc).
      apply IH; [lia | lia | lia | done |]. intros q' Hq'. apply Hnone. lia.
Qed.

Lemma searchFrom_sound r s m : forall fuel q,
  (q + fuel = length s)%nat ->
  searchFrom r (stateAt s q) fuel = Some m ->
  exists p, (q <= p <= length s)%nat /\
    matchAt r (stateAt s p) = Some m /\
    forall q', (q <= q' < p)%nat -> matchAt r (stateAt s q') = None.
Proof.
  induction fuel as [|fuel IH]; intros q Hf H.
  - simpl in H. destruct (matchAt r (stateAt s q)) eqn:E; [|done].
    injection H as ->. exists q. repeat split; [lia | lia | done | lia].
  - simpl in H. destruct (matchAt r (stateAt s q)) eqn:E.
    + injection H as ->. exists q. repeat split; [lia | lia | done | lia].
    + destruct (drop q s) as [|c tl] eqn:Ed; [done|].
      apply drop_cons_inv in Ed as [Hc ->].
      rewrite (stateAt_S _ _ _ Hc) in H.
      apply IH in H as (p & Hp & Hm & Hnone); [|lia].
      exists p. repeat split; [lia | lia | done |].
      intros q' Hq'. destruct (decide (q' = q)) as [->|]; [done|].
      apply Hnone. lia.
Qed.

Lemma exec_found r s m p from :
  (from <= p)%nat -> (p <= length s)%nat ->
  matchAt r (stateAt s p) = Some m ->
  (forall q', (from <= q' < p)%nat -> matchAt r (stateAt s q') = None) ->
  exec r s from = Some m.
Proof.
  intros Hfrom Hp Hm Hnone. unfold exec.
  rewrite (proj2 (Nat.ltb_ge _ _)) by lia.
  eapply searchFrom_found; eauto. lia.
Qed.

Lemma exec_sound r s m from :
  exec r s from = Some m ->
  exists p, (from <= p <= length s)%nat /\
    matchAt r (stateAt s p) = Some m /\
    forall q', (from <= q' < p)%nat -> matchAt r (stateAt s q') = None.
Proof.
  unfold exec. destruct (Nat.ltb_spec (length s) from); [done|].
  apply searchFrom_sound. lia.
Qed.

(** A position with a match makes [test] true. *)
Lemma test_true r s p m :
  (p <= length s)%nat -> matchAt r (stateAt s p) = Some m -> test r s = true.
Proof.
  intros Hp Hm. unfold test.
  destruct (exec r s 0) as [m'|] eqn:E; [done|].
  unfold exec in E. simpl in E. rewrite Nat.sub_0_r in E.
  assert (exists fuel q, (q + fuel = length s)%nat /\ (q <= p)%nat /\
            searchFrom r (stateAt s q) fuel = None) as (fuel & q & Hf & Hq & Hs).
  { exists (length s), 0%nat. repeat split; [lia | exact E]. }
  clear E. revert q Hf Hq Hs.
  induction fuel as [|fuel IH]; intros q Hf Hq Hs.
  - assert (q = p) as -> by lia. simpl in Hs. by rewrite Hm in Hs.
  - simpl in Hs. destruct (matchAt r (stateAt s q)) eqn:E; [done|].
    destruct (decide (q = p)) as [->|Hne]; [congruence|].
    destruct (drop q s) as [|c tl] eqn:Ed.
    { apply (f_equal length) in Ed. rewrite length_drop in Ed. simpl in Ed. lia. }
    apply drop_cons_inv in Ed as [Hc ->].
    rewrite (stateAt_S _ _ _ Hc) in Hs.
    apply (IH (S q)); [lia | lia | done].
Qed.

(** The list of all matches holds the match at a position [p] when no
    match that starts before [p] reaches beyond [p]. *)
Lemma matchAll_contains r s p m :
  (p <= length s)%nat ->
  matchAt r (stateAt s p) = Some m ->
  (forall q m', (q < p)%nat -> matchAt r (stateAt s q) = Some m' ->
     (m_end m' <= p)%nat) ->
  m ∈ matchAll r s.
Proof.
  intros Hp Hm Hbefore. unfold matchAll.
  assert (forall fuel from,
            (from <= p)%nat -> (p - from < fuel)%nat ->
            m ∈ matchAllFrom r s from fuel) as H.
  { induction fuel as [|fuel IH]; intros from Hfrom Hfuel; [lia|].
    simpl. destruct (exec r s from) as [m'|] eqn:E.
    - apply exec_sound in E as (q & Hq & Hm' & Hnone).
      destruct (decide (q = p)) as [->|Hne].
      + rewrite Hm in Hm'. injection Hm' as <-. apply list_elem_of_here.
      + assert (q < p)%nat as Hlt.
        { destruct (decide (p < q)%nat); [|lia].
          rewrite Hnone in Hm by lia. done. }
        pose proof (Hbefore q m' Hlt Hm') as Hend.
        apply matchAt_consumed in Hm' as (Hstart & w & _ & _ & Hend').
        simpl in Hstart, Hend'.
        apply elem_of_cons; right. apply IH.
        * destruct (Nat.eqb_spec (m_end m') (m_start m')); lia.
        * destruct (Nat.eqb_spec (m_end m') (m_start m')); lia.
    - assert (exec r s from = Some m) as E'; [|congruence].
      destruct (exec r s from) eqn:E''; [done|]. exfalso.
      assert (test_like : exists q, (from <= q <= p)%nat /\
                matchAt r (stateAt s q) = Some m) by (exists p; split; [lia | done]).
      clear -E'' test_like Hp.
      destruct test_like as (q & Hq & Hmq).
      unfold exec in E''. rewrite (proj2 (Nat.ltb_ge _ _)) in E'' by lia.
      assert (exists fuel q0, (q0 + fuel = length s)%nat /\ (q0 <= q)%nat /\
                searchFrom r (stateAt s q0) fuel = None) as (fuel & q0 & Hf & Hq0 & Hs).
      { exists (length s - from)%nat, from. repeat split; [lia | lia | done]. }
      clear E''. revert q0 Hf Hq0 Hs.
      induction fuel as [|fuel IH]; intros q0 Hf Hq0 Hs.
      + assert (q0 = q) as -> by lia. simpl in Hs. by rewrite Hmq in Hs.
      + simpl in Hs. destruct (matchAt r (stateAt s q0)) eqn:E; [done|].
        destruct (decide (q0 = q)) as [->|Hne]; [congruence|].
        destruct (drop q0 s) as [|c tl] eqn:Ed.
        { apply (f_equal length) in Ed. rewrite length_drop in Ed. simpl in Ed. lia. }
        apply drop_cons_inv in Ed as [Hc ->].
        rewrite (stateAt_S _ _ _ Hc) in Hs.
        apply (IH (S q0)); [lia | lia | done]. }
  apply H; lia.
Qed.

End SearchFacts.

(** ** Inline ignore directives *)

Section DirectiveFacts.
Import Regex Linter.

Lemma rmatch_RSeq a b st caps k :
  rmatch (RSeq a b) st caps k =
  rmatch a st caps (fun st' caps' => rmatch b st' caps' k).
Proof. reflexivity. Qed.


Lemma rmatch_RGroup i a st caps k :
  rmatch (RGroup i a) st caps k =
  rmatch a st caps
    (fun st' caps' => k st' ((i, (pos st, pos st')) :: clearGroups [i] caps')).
Proof. reflexivity. Qed.



Lemma isWhiteSpace_not_comma c : Str.isWhiteSpace c = true -> c <> 44%N.
Proof. intros H ->. discriminate. Qed.



(** One or more characters of a class, taken greedily. *)
Lemma rmatch_plus_class P k res st caps w tl :
  rest st = w ++ tl -> w <> [] -> forallb P w = true ->
  match tl with [] => True | c :: _ => P c = false end ->
  k (advance st w) caps = Some res ->
  rmatch (plus (RChar P)) st caps k = Some res.
Proof.
  intros Hrest Hne Hall Htl Hk. destruct w as [|c w]; [done|].
  simpl in Hall. apply andb_true_iff in Hall as [Hc Hall].
  unfold plus. rewrite rmatch_RSeq.
  rewrite (rmatch_RChar P st caps _ c (w ++ tl)) by done.
  eapply (rmatch_star_class P k res _ caps w tl); [|done|done|done].
  simpl. by rewrite Hrest.
Qed.










Lemma stateAt_after pre tl :
  rest (stateAt (pre ++ tl) (length pre)) = tl.
Proof. simpl. by rewrite drop_app_length. Qed.

Lemma substring_middle (a b c : JsString) i j :
  i = length a -> j = (i + length b)%nat ->
  substring (a ++ b ++ c) i j = b.
Proof.
  intros -> ->. unfold substring.
  rewrite drop_app_length, take_app_length'; [done | lia].
Qed.


Lemma rmatch_lits_none cs : forall st caps k,
  Str.startsWith cs (rest st) = false ->
  rmatch (seqOf (map lit cs)) st caps k = None.
Proof.
  induction cs as [|c cs IH]; intros st caps k H; [done|].
  destruct cs as [|c' cs].
  - cbn [map seqOf]. unfold lit. apply rmatch_RChar_fail.
    destruct (rest st) as [|x tl]; [done|]. cbn [Str.startsWith] in H.
    by destruct (N.eqb c x).
  - change (seqOf (map lit (c :: c' :: cs)))
      with (RSeq (lit c) (seqOf (map lit (c' :: cs)))).
    rewrite rmatch_RSeq. unfold lit at 1.
    destruct (rest st) as [|x tl] eqn:E.
    { apply rmatch_RChar_fail. by rewrite E. }
    cbn [Str.startsWith] in H. destruct (N.eqb c x) eqn:Ex.
    + rewrite (rmatch_RChar _ _ _ _ x tl) by done.
      apply IH. simpl. by rewrite E.
    + apply rmatch_RChar_fail. by rewrite E.
Qed.

Lemma rmatch_str_none s st caps k :
  Str.startsWith (js s) (rest st) = false -> rmatch (str s) st caps k = None.
Proof. apply rmatch_lits_none. Qed.










Lemma lookup_after_prefix (pre tl : JsString) c :
  (pre ++ c :: tl) !! length pre = Some c.
Proof. by rewrite list_lookup_middle. Qed.























End DirectiveFacts.

(** ** Lines, columns and offsets *)

Section PositionFacts.
Import SourceMap.

Lemma getLineColumn_loop_line_ge text : forall n l c,
  l <= fst (getLineColumn_loop text n l c).
Proof.
  induction text as [|x text IH]; intros [|n] l c; simpl; try lia.
  destruct (N.eqb x LF).
  - specialize (IH n (l + 1) 1). lia.
  - apply IH.
Qed.

Lemma getLineColumn_loop_column_ge text : forall n l c,
  1 <= c -> 1 <= snd (getLineColumn_loop text n l c).
Proof.
  induction text as [|x text IH]; intros [|n] l c Hc; simpl; try lia.
  destruct (N.eqb x LF); apply IH; lia.
Qed.

Lemma getCharOffset_loop_stay text l off :
  getCharOffset_loop text l l off = off.
Proof. destruct text; simpl; [done|]. by rewrite Z.ltb_irrefl. Qed.

(** The two loops are inverse to each other on the offsets of the
    text. *)
Lemma getCharOffset_getLineColumn_loop text : forall n l c off,
  (n <= length text)%nat ->
  getCharOffset_loop text (fst (getLineColumn_loop text n l c)) l off +
    snd (getLineColumn_loop text n l c) - 1 =
  off + Z.of_nat n +
    (if fst (getLineColumn_loop text n l c) =? l then c - 1 else 0).
Proof.
  induction text as [|x text IH]; intros n l c off Hn.
  - destruct n; [|simpl in Hn; lia]. simpl. rewrite Z.eqb_refl. lia.
  - destruct n as [|n].
    + cbn [getLineColumn_loop fst snd]. rewrite getCharOffset_loop_stay, Z.eqb_refl. lia.
    + cbn [getLineColumn_loop]. simpl in Hn.
      destruct (N.eqb x LF) eqn:Ex.
      * pose proof (getLineColumn_loop_line_ge text n (l + 1) 1) as Hge.
        specialize (IH n (l + 1) 1 (off + 1) ltac:(lia)).
        set (L := fst (getLineColumn_loop text n (l + 1) 1)) in *.
        set (C := snd (getLineColumn_loop text n (l + 1) 1)) in *.
        cbn [getCharOffset_loop]. rewrite Ex.
        rewrite (proj2 (Z.ltb_lt l L)) by lia.
        rewrite (proj2 (Z.eqb_neq L l)) by lia.
        destruct (Z.eqb_spec L (l + 1)); lia.
      * pose proof (getLineColumn_loop_line_ge text n l (c + 1)) as Hge.
        specialize (IH n l (c + 1) (off + 1) ltac:(lia)) as IH1.
        specialize (IH n l (c + 1) off ltac:(lia)) as IH0.
        set (L := fst (getLineColumn_loop text n l (c + 1))) in *.
        set (C := snd (getLineColumn_loop text n l (c + 1))) in *.
        cbn [getCharOffset_loop]. rewrite Ex.
        destruct (Z.eqb_spec L l) as [->|Hne].
        -- rewrite Z.ltb_irrefl. rewrite getCharOffset_loop_stay in IH0. lia.
        -- rewrite (proj2 (Z.ltb_lt l L)) by lia. lia.
Qed.

Lemma getCharOffset_getLineColumn_eq sm offset :
  0 <= offset <= jsLength (renderedText sm) ->
  getCharOffset sm (fst (getLineColumn sm offset)) (snd (getLineColumn sm offset)) =
  offset.
Proof.
  intros Hoff. unfold getCharOffset, getLineColumn, jsLength in *.
  pose proof (getCharOffset_getLineColumn_loop (renderedText sm)
                (Z.to_nat offset) 1 1 0 ltac:(lia)) as H.
  destruct (_ =? 1); lia.
Qed.

(** [X1] For an offset of the rendered text (the end included), the
    line and column that [getLineColumn] gives are at least 1, and
    [getCharOffset] takes them back to the offset: [originAt] at that
    line and column answers what [originAtOffset] answers at the
    offset. *)
Theorem getCharOffset_getLineColumn (sm : SourceMap.SourceMap) (offset : Z) :
  0 <= offset <= jsLength (renderedText sm) ->
  1 <= fst (getLineColumn sm offset) /\
  1 <= snd (getLineColumn sm offset) /\
  getCharOffset sm (fst (getLineColumn sm offset)) (snd (getLineColumn sm offset)) =
    offset /\
  originAt sm (fst (getLineColumn sm offset)) (snd (getLineColumn sm offset)) =
    originAtOffset sm offset.
Proof.
  intros Hoff. split; [|split; [|split]].
  - apply getLineColumn_loop_line_ge.
  - by apply getLineColumn_loop_column_ge.
  - by apply getCharOffset_getLineColumn_eq.
  - unfold originAt, originAtOffset. by rewrite getCharOffset_getLineColumn_eq.
Qed.

Lemma getCharOffset_getLineColumn_witness :
  getLineColumn twoLineMap 4 = (2, 2) /\
  getCharOffset twoLineMap 2 2 = 4 /\
  originAt twoLineMap 2 2 = originAtOffset twoLineMap 4.
Proof.
  destruct (getCharOffset_getLineColumn twoLineMap 4) as (_ & _ & H & Ho).
  { vm_compute. split; discriminate. }
  split; [reflexivity|]. split; [exact H | exact Ho].
Defined.

Lemma splitOnFrom_nonempty sep s : forall cur, Str.splitOnFrom sep s cur <> [].
Proof.
  induction s as [|c s IH]; intros cur; simpl; [done|].
  destruct (N.eqb c sep); [done | apply IH].
Qed.

(** The pieces of [split] and the loop of [getLineColumn] count the
    same lines and measure the same last line. *)
Lemma splitOnFrom_getLineColumn_loop text : forall n cur l,
  Z.of_nat (length (Str.splitOnFrom LF (take n text) cur)) =
    fst (getLineColumn_loop text n l (Z.of_nat (length cur) + 1)) - l + 1 /\
  Z.of_nat (length (List.last (Str.splitOnFrom LF (take n text) cur) [])) + 1 =
    snd (getLineColumn_loop text n l (Z.of_nat (length cur) + 1)).
Proof.
  induction text as [|x text IH]; intros n cur l.
  - rewrite take_nil. destruct n; simpl; split; lia.
  - destruct n as [|n]; [simpl; split; lia|].
    cbn [take Str.splitOnFrom getLineColumn_loop].
    destruct (N.eqb x LF).
    + destruct (IH n [] (l + 1)) as [H1 H2]. cbn [length] in H1, H2.
      change (Z.of_nat 0 + 1) with 1 in H1, H2.
      split.
      * cbn [length]. lia.
      * rewrite <- H2. f_equal. f_equal.
        pose proof (splitOnFrom_nonempty LF (take n text) []) as Hne.
        by destruct (Str.splitOnFrom LF (take n text) []).
    + destruct (IH n (cur ++ [x]) l) as [H1 H2].
      rewrite length_app in H1, H2. cbn [length] in H1, H2.
      replace (Z.of_nat (length cur + 1) + 1) with (Z.of_nat (length cur) + 1 + 1)
        in H1, H2 by lia.
      done.
Qed.

Lemma getEndLine_loop_line text : forall n l c,
  BlameCommand.getEndLine_loop text n l = fst (getLineColumn_loop text n l c).
Proof.
  induction text as [|x text IH]; intros [|n] l c; simpl; try done.
  destruct (N.eqb x LF); apply IH.
Qed.

Lemma getLineColumn_loop_beyond text : forall n l c,
  (length text <= n)%nat ->
  getLineColumn_loop text n l c = getLineColumn_loop text (length text) l c.
Proof.
  induction text as [|x text IH]; intros n l c Hn.
  - by destruct n.
  - destruct n as [|n]; [simpl in Hn; lia|]. simpl in Hn |- *.
    destruct (N.eqb x LF); apply IH; lia.
Qed.

(** [X2] The three places that turn an offset into a line agree: for
    an offset that is not negative, the position that the lint rules
    report ([getPosition], which splits the text before the offset
    into lines) is the line and column that a source map with the same
    text gives ([getLineColumn], which walks the text), and the end
    line of the blame command ([getEndLine]) is that line. An offset
    beyond the end of the text counts as the end. *)
Theorem line_counts_agree (name text : JsString) (offset : Z) :
  0 <= offset ->
  HeuristicRules.getPosition text offset =
    getLineColumn (setRenderedText (new name) text) offset /\
  BlameCommand.getEndLine text offset =
    fst (getLineColumn (setRenderedText (new name) text) offset) /\
  (jsLength text <= offset ->
   getLineColumn (setRenderedText (new name) text) offset =
   getLineColumn (setRenderedText (new name) text) (jsLength text)).
Proof.
  intros Hoff. unfold getLineColumn. cbn [renderedText setRenderedText].
  split; [|split].
  - unfold HeuristicRules.getPosition, Str.sliceAny, Str.splitOn.
    rewrite (proj2 (Z.ltb_ge offset 0)) by lia.
    change (0 <? 0) with false. cbn beta iota.
    rewrite (Z.min_l 0 (Z.of_nat (length text))) by lia.
    change (Z.to_nat 0) with 0%nat.
    rewrite Nat.sub_0_r, drop_0.
    destruct (Z.le_gt_cases (Z.of_nat (length text)) offset) as [Hbig|Hsmall].
    + rewrite Z.min_r by lia. rewrite Nat2Z.id.
      rewrite (getLineColumn_loop_beyond text (Z.to_nat offset)) by lia.
      destruct (splitOnFrom_getLineColumn_loop text (length text) [] 1) as [H1 H2].
      cbn [length] in H1, H2. change (Z.of_nat 0 + 1) with 1 in H1, H2.
      destruct (getLineColumn_loop text (length text) 1 1) as [L C].
      cbn [fst snd] in *. f_equal; lia.
    + rewrite Z.min_l by lia.
      destruct (splitOnFrom_getLineColumn_loop text (Z.to_nat offset) [] 1) as [H1 H2].
      cbn [length] in H1, H2. change (Z.of_nat 0 + 1) with 1 in H1, H2.
      destruct (getLineColumn_loop text (Z.to_nat offset) 1 1) as [L C].
      cbn [fst snd] in *. f_equal; lia.
  - apply getEndLine_loop_line.
  - intros Hlen. unfold jsLength in *. rewrite Nat2Z.id.
    apply getLineColumn_loop_beyond. lia.
Qed.

Lemma line_counts_agree_witness :
  HeuristicRules.getPosition (js "ab" ++ [LF] ++ js "cd") 4 = (2, 2) /\
  BlameCommand.getEndLine (js "ab" ++ [LF] ++ js "cd") 4 = 2.
Proof.
  destruct (line_counts_agree (js "p") (js "ab" ++ [LF] ++ js "cd") 4) as (H1 & H2 & _).
  { lia. }
  split; [rewrite H1 | rewrite H2]; reflexivity.
Defined.

End PositionFacts.

(** ** Sets in insertion order *)

Section SetFacts.

Lemma JsSet_add_elem s y x : x ∈ JsSet.add s y <-> x ∈ s \/ x = y.
Proof.
  unfold JsSet.add. case_bool_decide as H.
  - split; [by left | intros [?| ->]; done].
  - rewrite elem_of_app, list_elem_of_singleton. tauto.
Qed.

Lemma JsSet_add_NoDup s y : NoDup s -> NoDup (JsSet.add s y).
Proof.
  intros Hs. unfold JsSet.add. case_bool_decide as H; [done|].
  apply NoDup_app. split; [done|]. split.
  - intros x Hx ->%list_elem_of_singleton. done.
  - apply NoDup_singleton.
Qed.

Lemma JsSet_fold_elem l : forall acc x,
  x ∈ fold_left JsSet.add l acc <-> x ∈ acc \/ x ∈ l.
Proof.
  induction l as [|y l IH]; intros acc x; simpl.
  - split; [by left | intros [?|H]; [done | by apply elem_of_nil in H]].
  - rewrite IH, JsSet_add_elem, elem_of_cons. tauto.
Qed.

Lemma JsSet_fold_NoDup l : forall acc,
  NoDup acc -> NoDup (fold_left JsSet.add l acc).
Proof.
  induction l as [|y l IH]; intros acc Hacc; simpl; [done|].
  by apply IH, JsSet_add_NoDup.
Qed.

Lemma JsSet_fold_prefix l : forall acc, acc `prefix_of` fold_left JsSet.add l acc.
Proof.
  induction l as [|y l IH]; intros acc; simpl; [done|].
  etrans; [|apply IH]. unfold JsSet.add. case_bool_decide; [done|].
  by apply prefix_app_r.
Qed.

Lemma JsSet_ofList_elem l x : x ∈ JsSet.ofList l <-> x ∈ l.
Proof.
  unfold JsSet.ofList. rewrite JsSet_fold_elem. split; [|by right].
  intros [H|H]; [by apply elem_of_nil in H | done].
Qed.

Lemma JsSet_ofList_NoDup l : NoDup (JsSet.ofList l).
Proof. apply JsSet_fold_NoDup, NoDup_nil_2. Qed.

Lemma JsSet_ofList_app l1 l2 :
  JsSet.ofList l1 `prefix_of` JsSet.ofList (l1 ++ l2).
Proof.
  unfold JsSet.ofList. rewrite fold_left_app. apply JsSet_fold_prefix.
Qed.

Lemma fold_left_pointwise {A B} (f g : A -> B -> A) l :
  (forall a b, f a b = g a b) ->
  forall acc, fold_left f l acc = fold_left g l acc.
Proof.
  intros H. induction l as [|b l IH]; intros acc; simpl; [done|].
  by rewrite H, IH.
Qed.

(** A loop that adds what [f] finds is the set of what [f] finds. *)
Lemma JsSet_fold_omap {A} (f : A -> option JsString) l : forall acc,
  fold_left (fun ids m => match f m with
                          | Some id => JsSet.add ids id
                          | None => ids
                          end) l acc =
  fold_left JsSet.add (omap f l) acc.
Proof.
  induction l as [|m l IH]; intros acc; simpl; [done|].
  destruct (f m); simpl; apply IH.
Qed.

End SetFacts.

(** ** Fragment ids and dependencies *)

Section FragmentIdFacts.
Import SourceMap.

(** The fragment id that a mapping contributes to [getFragmentIds]. *)
Lemma getFragmentIds_ofList sm :
  getFragmentIds sm =
  JsSet.ofList
    (omap (fun m => match fragmentId (source m) with
                    | Some (c :: fid) => Some (c :: fid)
                    | _ => None
                    end) (mappings sm)).
Proof.
  unfold getFragmentIds, JsSet.ofList. rewrite <- JsSet_fold_omap.
  apply fold_left_pointwise. intros ids m.
  by destruct (fragmentId (source m)) as [[|c fid]|].
Qed.

Lemma getFragmentIds_elem sm id :
  id ∈ getFragmentIds sm <->
  id <> [] /\ exists m, m ∈ mappings sm /\ fragmentId (source m) = Some id.
Proof.
  rewrite getFragmentIds_ofList, JsSet_ofList_elem, list_elem_of_omap. split.
  - intros (m & Hm & Hid).
    destruct (fragmentId (source m)) as [[|c fid]|] eqn:E; try done.
    injection Hid as <-. split; [done|]. by exists m.
  - intros (Hne & m & Hm & Hid). exists m. split; [done|]. rewrite Hid.
    by destruct id.
Qed.

(** [X3] [getFragmentIds] lists every fragment id once: it has no
    duplicates, it lists an id exactly when the id is not the empty
    string and some mapping carries it, and adding mappings keeps the
    ids listed so far in front, in their order (the order of the first
    mapping of each id). *)
Theorem getFragmentIds_spec (sm : SourceMap.SourceMap) :
  NoDup (getFragmentIds sm) /\
  (forall id,
     id ∈ getFragmentIds sm <->
     id <> [] /\ exists m, m ∈ mappings sm /\ fragmentId (source m) = Some id) /\
  (forall m, getFragmentIds sm `prefix_of` getFragmentIds (addMapping sm m)).
Proof.
  split; [|split].
  - rewrite getFragmentIds_ofList. apply JsSet_ofList_NoDup.
  - apply getFragmentIds_elem.
  - intros m. rewrite !getFragmentIds_ofList. cbn [mappings addMapping].
    rewrite omap_app. apply JsSet_ofList_app.
Qed.

End FragmentIdFacts.

(** ** Blame: the provenance table of a render, queried *)

Section BlameFacts.
Import SourceMap.

Lemma addSectionMapping_line sm s i a b :
  exists m,
    mappings (Prompt.addSectionMapping sm s i a b) = mappings sm ++ [m] /\
    start (output m) = a /\
    line (output m) = fst (getLineColumn sm a) /\
    column (output m) = snd (getLineColumn sm a) /\
    (forall id, fragmentId (source m) = Some id ->
       id <> [] /\
       type (source (RenderedSection.sourceMapping s)) <> SDynamic /\
       fragmentId (source (RenderedSection.sourceMapping s)) = Some id) /\
    renderedText (Prompt.addSectionMapping sm s i a b) = renderedText sm.
Proof.
  unfold Prompt.addSectionMapping.
  destruct (type _) eqn:Et;
    [destruct (fragmentId _) as [[|c fid]|] eqn:Ef | |
     destruct (fragmentId _) as [[|c fid]|] eqn:Ef |
     destruct (fragmentId _) as [[|c fid]|] eqn:Ef];
    unfold addFragmentMapping, addDynamicMapping, addLiteralMapping;
    simpl; destruct (getLineColumn sm a) as [l c'];
    eexists; simpl;
    (split; [reflexivity|]); (split; [reflexivity|]);
    (split; [reflexivity|]); (split; [reflexivity|]);
    (split; [|reflexivity]); intros id' Hid; try discriminate;
    injection Hid as <-; done.
Qed.

(** The line and the column of every mapping that [buildSourceMap]
    adds are those of its start in the text; a fragment id it records
    is the one of a static section. *)
Lemma buildSourceMapFrom_lines text secs : forall i offset sm,
  renderedText sm = text ->
  exists added,
    mappings (Prompt.buildSourceMapFrom text secs i offset sm) =
      mappings sm ++ added /\
    Forall (fun m =>
      line (output m) =
        fst (getLineColumn_loop text (Z.to_nat (start (output m))) 1 1) /\
      column (output m) =
        snd (getLineColumn_loop text (Z.to_nat (start (output m))) 1 1) /\
      forall id, fragmentId (source m) = Some id ->
        id <> [] /\
        exists s, s ∈ secs /\
          type (source (RenderedSection.sourceMapping s)) <> SDynamic /\
          fragmentId (source (RenderedSection.sourceMapping s)) = Some id) added.
Proof.
  induction secs as [|s secs IH]; intros i offset sm Htext; simpl.
  - exists []. by rewrite app_nil_r.
  - destruct (Z.eqb_spec (Str.indexOf text (RenderedSection.content s) offset) (-1)).
    + destruct (IH (i + 1) offset sm Htext) as (added & Hm & Hall).
      exists added. split; [done|].
      eapply Forall_impl; [exact Hall|]. simpl.
      intros m (Hl & Hc & Hid). split; [done|]. split; [done|].
      intros id Hf. destruct (Hid id Hf) as (Hne & s' & Hs' & H').
      split; [done|]. exists s'. split; [by right | done].
    + set (a := Str.indexOf text (RenderedSection.content s) offset) in *.
      set (b := a + jsLength (RenderedSection.content s)).
      destruct (addSectionMapping_line sm s i a b)
        as (m & Hm & Hs & Hl & Hc & Hid & Ht).
      destruct (IH (i + 1) b (Prompt.addSectionMapping sm s i a b))
        as (added & Hm' & Hall); [by rewrite Ht|].
      exists (m :: added). split.
      { rewrite Hm', Hm. by rewrite <- app_assoc. }
      constructor.
      * unfold getLineColumn in Hl, Hc. rewrite Htext, <- Hs in Hl, Hc.
        split; [done|]. split; [done|].
        intros id Hf. destruct (Hid id Hf) as (Hne & H').
        split; [done|]. exists s. split; [by left | done].
      * eapply Forall_impl; [exact Hall|]. simpl.
        intros m' (Hl' & Hc' & Hid'). split; [done|]. split; [done|].
        intros id Hf. destruct (Hid' id Hf) as (Hne & s' & Hs' & H').
        split; [done|]. exists s'. split; [by right | done].
Qed.

Lemma restore_mappings r :
  mappings (BlameCommand.restore r) =
  data_mappings (PromptMetadata.sourceMap (CompiledPrompt.meta r)).
Proof.
  unfold BlameCommand.restore, fromJSON. cbn [mappings setRenderedText].
  by rewrite mappings_fold_addMapping.
Qed.

Lemma restore_renderedText r :
  renderedText (BlameCommand.restore r) = CompiledPrompt.text r.
Proof. done. Qed.

(** What a render records about each of its mappings. *)
Lemma render_mappings_facts env p ctx r :
  Prompt.render env p ctx = Returns r ->
  exists resolved,
    Prompt.resolveSections p (Prompt.enrich env p ctx) = Returns resolved /\
    let ms := data_mappings (PromptMetadata.sourceMap (CompiledPrompt.meta r)) in
    let text := CompiledPrompt.text r in
    nonOverlapping ms = true /\
    Forall (fun m =>
      0 <= start (output m) <= end_ (output m) /\
      end_ (output m) <= jsLength text /\
      line (output m) =
        fst (getLineColumn_loop text (Z.to_nat (start (output m))) 1 1) /\
      column (output m) =
        snd (getLineColumn_loop text (Z.to_nat (start (output m))) 1 1) /\
      forall id, fragmentId (source m) = Some id ->
        id <> [] /\
        exists s, s ∈ resolved /\
          type (source (RenderedSection.sourceMapping s)) <> SDynamic /\
          fragmentId (source (RenderedSection.sourceMapping s)) = Some id) ms.
Proof.
  intros (resolved & Hres & Ht & Hm)%render_inv. exists resolved.
  split; [done|]. simpl in *. rewrite Hm, Ht. unfold Prompt.buildSourceMap.
  set (ordered := Prompt.orderSections p resolved).
  set (text := Prompt.formatterOf env p ordered).
  set (sm0 := setRenderedText (new (Prompt.name p)) text).
  destruct (buildSourceMapFrom_spec text ordered 0 0 sm0)
    as (added & Ha & Hfw & Hin & _).
  { unfold jsLength. lia. }
  destruct (buildSourceMapFrom_lines text ordered 0 0 sm0 eq_refl)
    as (added' & Ha' & Hlines).
  rewrite Ha in Ha'. apply app_inv_head in Ha' as <-.
  rewrite Ha. cbn [mappings sm0 setRenderedText new app].
  split; [by eapply forwardFrom_nonOverlapping|].
  pose proof (forwardFrom_Forall _ _ Hfw) as Hpos.
  apply Forall_forall. intros m Hmem.
  eapply Forall_forall in Hpos, Hin, Hlines; try exact Hmem.
  simpl in Hpos, Hin. destruct Hlines as (Hl & Hc & Hid).
  split; [lia|]. split; [lia|]. split; [done|]. split; [done|].
  intros id' Hf. destruct (Hid id' Hf) as (Hne & s & Hs & H').
  split; [done|]. exists s. split; [|done]. unfold ordered in Hs.
  by rewrite orderSections_perm in Hs.
Qed.

Lemma getEndLine_loop_mono text : forall a b l,
  (a <= b)%nat ->
  BlameCommand.getEndLine_loop text a l <= BlameCommand.getEndLine_loop text b l.
Proof.
  induction text as [|x text IH]; intros a b l Hle.
  - destruct a, b; simpl; lia.
  - destruct a as [|a].
    + rewrite (getEndLine_loop_line _ b l 1).
      cbn [BlameCommand.getEndLine_loop]. apply getLineColumn_loop_line_ge.
    + destruct b as [|b]; [lia|]. cbn [BlameCommand.getEndLine_loop].
      destruct (N.eqb x LF); apply IH; lia.
Qed.

(** [X4] Blame finds its own entries. On the provenance table of a
    render, restored from the metadata as the blame command does (the
    rendered text set on it again), [originAt] asked at the recorded
    line and column of a mapping whose range is not empty answers the
    origin of that very mapping; and its end line is not before its
    line. *)
Theorem blame_finds_own_mapping (env : Services) (p : Prompt.t)
    (ctx : RenderContext) (r : CompiledPrompt.t) (m : SourceMapping) :
  Prompt.render env p ctx = Returns r ->
  m ∈ data_mappings (PromptMetadata.sourceMap (CompiledPrompt.meta r)) ->
  start (output m) < end_ (output m) ->
  originAt (BlameCommand.restore r) (line (output m)) (column (output m)) =
    Some (source m) /\
  line (output m) <=
    BlameCommand.getEndLine (CompiledPrompt.text r) (end_ (output m)).
Proof.
  intros Hr Hm Hne.
  destruct (render_mappings_facts env p ctx r Hr) as (resolved & _ & Hno & Hall).
  simpl in Hno, Hall.
  eapply Forall_forall in Hall; [|exact Hm].
  destruct Hall as (Hpos & Hend & Hl & Hc & _).
  split.
  - unfold originAt. rewrite restore_mappings.
    assert (getCharOffset (BlameCommand.restore r) (line (output m))
              (column (output m)) = start (output m)) as ->.
    { rewrite Hl, Hc.
      pose proof (getCharOffset_getLineColumn_eq (BlameCommand.restore r)
                    (start (output m))) as H.
      unfold getLineColumn in H. rewrite restore_renderedText in H.
      apply H. lia. }
    apply firstCovering_member; [done | done |].
    apply covers_spec. lia.
  - rewrite Hl. unfold BlameCommand.getEndLine.
    rewrite <- (getEndLine_loop_line _ _ 1 1).
    apply getEndLine_loop_mono. lia.
Qed.

Lemma blame_finds_own_mapping_witness :
  exists r m,
    Prompt.render sampleServices twiceHelpful [] = Returns r /\
    data_mappings (PromptMetadata.sourceMap (CompiledPrompt.meta r)) !! 1%nat =
      Some m /\
    originAt (BlameCommand.restore r) (line (output m)) (column (output m)) =
      Some (source m) /\
    line (output m) <=
      BlameCommand.getEndLine (CompiledPrompt.text r) (end_ (output m)).
Proof.
  eexists _, _. split; [vm_compute; reflexivity|].
  split; [vm_compute; reflexivity|].
  eapply (blame_finds_own_mapping sampleServices twiceHelpful []).
  - vm_compute. reflexivity.
  - vm_compute. apply elem_of_cons. right. apply list_elem_of_here.
  - vm_compute. reflexivity.
Defined.

End BlameFacts.

(** ** The fragments a prompt depends on *)

Section DependencyFacts.
Import SourceMap.

Lemma dependencyOf_Some section id :
  PromptApi.dependencyOf section = Some id <->
  id <> [] /\
  exists f, Sections.getFragment section = Some f /\ FragmentDefinition.id f = id.
Proof.
  unfold PromptApi.dependencyOf.
  destruct (Sections.getFragment section) as [f|].
  - destruct (FragmentDefinition.id f) as [|c fid] eqn:Ef.
    + split; [done|]. intros (Hne & f' & [= <-] & Hid). congruence.
    + split.
      * intros [= <-]. split; [done|]. by exists f.
      * intros (_ & f' & [= <-] & Hid). congruence.
  - split; [done|]. by intros (_ & f' & ? & _).
Qed.

Lemma dependencies_elem p id :
  id ∈ PromptApi.dependencies p <->
  id <> [] /\
  exists section f,
    section ∈ Prompt.sections p /\
    Sections.getFragment section = Some f /\ FragmentDefinition.id f = id.
Proof.
  unfold PromptApi.dependencies.
  rewrite JsSet_ofList_elem, list_elem_of_omap. split.
  - intros (section & Hin & (Hne & f & Hf & Hid)%dependencyOf_Some).
    split; [done|]. by exists section, f.
  - intros (Hne & section & f & Hin & Hf & Hid).
    exists section. split; [done|]. apply dependencyOf_Some.
    split; [done|]. by exists f.
Qed.

(** [X5] The dependencies of a prompt hold no id twice and never the
    empty id; an id is among them exactly when it is the id of the
    fragment of one of the sections, where a section whose content is a
    plain text counts with the id [anonymous-<type>] and a dynamic
    section with none.  Extending a prompt keeps its dependencies as
    the first dependencies of the extension, in their order. *)
Theorem dependencies_spec (p : Prompt.t) :
  NoDup (PromptApi.dependencies p) /\
  (forall id,
     id ∈ PromptApi.dependencies p <->
     id <> [] /\
     exists section,
       section ∈ Prompt.sections p /\
       match SectionConfig.content section with
       | CFragment f => FragmentDefinition.id f = id
       | CString _ =>
           js "anonymous-" ++ sectionTypeName (SectionConfig.type section) = id
       | CDynamic _ => False
       end) /\
  (forall config,
     PromptApi.dependencies p `prefix_of`
     PromptApi.dependencies (PromptApi.extend p config)).
Proof.
  split; [apply JsSet_ofList_NoDup|]. split.
  - intros id. rewrite dependencies_elem. split.
    + intros (Hne & section & f & Hin & Hf & Hid). split; [done|].
      exists section. split; [done|]. unfold Sections.getFragment in Hf.
      destruct (SectionConfig.content section); [| done |];
        injection Hf as <-; done.
    + intros (Hne & section & Hin & Hc). split; [done|].
      unfold Sections.getFragment. exists section.
      destruct (SectionConfig.content section); [| done |]; eauto.
  - intros config. unfold PromptApi.dependencies, PromptApi.extend.
    cbn [Prompt.sections]. rewrite omap_app. apply JsSet_ofList_app.
Qed.

Lemma resolveSectionsFrom_sources ctx sections : forall i resolved s,
  Prompt.resolveSectionsFrom i sections ctx = Returns resolved ->
  s ∈ resolved ->
  exists section,
    section ∈ sections /\
    type (source (RenderedSection.sourceMapping s)) =
      (if Sections.isDynamic section then SDynamic else SFragment) /\
    fragmentId (source (RenderedSection.sourceMapping s)) =
      FragmentDefinition.id <$> Sections.getFragment section.
Proof.
  induction sections as [|section rest IH]; intros i resolved s Hres Hin.
  - injection Hres as <-. by apply elem_of_nil in Hin.
  - cbn [Prompt.resolveSectionsFrom] in Hres.
    apply bind_Returns_inv in Hres as (r & Hr & Hres).
    apply bind_Returns_inv in Hres as (rs & Hrs & [= <-]).
    apply elem_of_cons in Hin as [-> | Hin].
    + exists section. split; [by left|].
      unfold Prompt.resolveSection in Hr.
      apply bind_Returns_inv in Hr as (content & _ & [= <-]). done.
    + destruct (IH _ _ _ Hrs Hin) as (section' & Hin' & H').
      exists section'. split; [by right | done].
Qed.

(** [X6] The fragment ids in the provenance table of a render are
    dependencies of the prompt: whatever the context, the formatter and
    the order of the sections, [getFragmentIds] on the restored table
    answers only ids that [dependencies] lists. *)
Theorem render_fragment_ids_are_dependencies (env : Services) (p : Prompt.t)
    (ctx : RenderContext) (r : CompiledPrompt.t) :
  Prompt.render env p ctx = Returns r ->
  forall id,
    id ∈ getFragmentIds (BlameCommand.restore r) ->
    id ∈ PromptApi.dependencies p.
Proof.
  intros Hr id (Hne & m & Hm & Hf)%getFragmentIds_elem.
  rewrite restore_mappings in Hm.
  destruct (render_mappings_facts env p ctx r Hr) as (resolved & Hres & _ & Hall).
  simpl in Hall. eapply Forall_forall in Hall; [|exact Hm].
  destruct Hall as (_ & _ & _ & _ & Hid).
  destruct (Hid id Hf) as (_ & s & Hs & _ & Hsf).
  destruct (resolveSectionsFrom_sources _ _ _ _ _ Hres Hs)
    as (section & Hin & _ & Hsrc).
  rewrite Hsf in Hsrc. apply dependencies_elem. split; [done|].
  destruct (Sections.getFragment section) as [f|] eqn:Eg; [|done].
  injection Hsrc as ->. by exists section, f.
Qed.

Lemma render_fragment_ids_are_dependencies_witness :
  exists r,
    Prompt.render sampleServices greetingPrompt [] = Returns r /\
    js "greeting" ∈ getFragmentIds (BlameCommand.restore r) /\
    js "greeting" ∈ PromptApi.dependencies greetingPrompt.
Proof.
  eexists. split; [vm_compute; reflexivity|].
  split.
  - vm_compute. apply list_elem_of_here.
  - eapply (render_fragment_ids_are_dependencies sampleServices greetingPrompt []);
      [vm_compute; reflexivity|].
    vm_compute. apply list_elem_of_here.
Defined.

End DependencyFacts.

(** ** The order rules, and the quick validation of a prompt *)

Section OrderRuleFacts.

(** What [findIndex] answers: [-1] when no item satisfies the
    predicate, the length of the longest prefix without such an item
    otherwise. *)
Lemma findIndexFrom_spec {A} (P : A -> bool) l : forall i,
  (Forall (fun x => P x = false) l /\ JsArray.findIndexFrom P l i = -1) \/
  (exists pre x post,
     l = pre ++ x :: post /\ Forall (fun y => P y = false) pre /\ P x = true /\
     JsArray.findIndexFrom P l i = i + Z.of_nat (length pre)).
Proof.
  induction l as [|x l IH]; intros i; simpl.
  - left. by split.
  - destruct (P x) eqn:Ex.
    + right. exists [], x, l. repeat split; [constructor | done | simpl; lia].
    + destruct (IH (i + 1)) as [[Hall Hr] | (pre & y & post & -> & Hpre & Hy & Hr)].
      * left. split; [by constructor | done].
      * right. exists (x :: pre), y, post.
        repeat split; [by constructor | done | simpl length; lia].
Qed.

Lemma elem_of_rev_iff {A} (l : list A) x : x ∈ rev l <-> x ∈ l.
Proof.
  induction l as [|y l IH]; simpl; [done|].
  rewrite elem_of_app, IH, !elem_of_cons.
  split; [intros [?|[?|?%elem_of_nil]] | intros [?|?]]; tauto.
Qed.

Lemma findLastIndex_spec {A} (P : A -> bool) l :
  (Forall (fun x => P x = false) l /\ JsArray.findLastIndex P l = -1) \/
  (exists pre x post,
     l = pre ++ x :: post /\ Forall (fun y => P y = false) post /\ P x = true /\
     JsArray.findLastIndex P l = Z.of_nat (length pre)).
Proof.
  unfold JsArray.findLastIndex.
  assert (forall back i,
    (Forall (fun x => P x = false) back /\
     JsArray.findLastIndexFrom P back i = -1) \/
    (exists pre x post,
       back = pre ++ x :: post /\ Forall (fun y => P y = false) pre /\
       P x = true /\
       JsArray.findLastIndexFrom P back i = i - Z.of_nat (length pre))) as H.
  { induction back as [|x back IH]; intros i; simpl.
    - left. by split.
    - destruct (P x) eqn:Ex.
      + right. exists [], x, back.
        repeat split; [constructor | done | simpl; lia].
      + destruct (IH (i - 1))
          as [[Hall Hr] | (pre & y & post & -> & Hpre & Hy & Hr)].
        * left. split; [by constructor | done].
        * right. exists (x :: pre), y, post.
          repeat split; [by constructor | done | simpl length; lia]. }
  destruct (H (rev l) (Z.of_nat (length l) - 1))
    as [[Hall Hr] | (pre & x & post & Hl & Hpre & Hx & Hr)].
  - left. split; [|done]. apply Forall_forall. intros y Hy.
    eapply Forall_forall in Hall; [exact Hall|]. by apply elem_of_rev_iff.
  - right. exists (rev post), x, (rev pre).
    assert (l = rev post ++ x :: rev pre) as Hl'.
    { rewrite <- (rev_involutive l), Hl, rev_app_distr. simpl.
      by rewrite <- app_assoc. }
    split; [done|]. split.
    { apply Forall_forall. intros y Hy. apply (proj1 (elem_of_rev_iff _ _)) in Hy.
      eapply Forall_forall in Hpre; [|exact Hy]. done. }
    split; [done|]. rewrite Hr.
    assert (length l = length post + S (length pre))%nat as ->;
      [|rewrite length_rev; lia].
    by rewrite Hl', length_app, length_rev; cbn [length]; rewrite length_rev.
Qed.

(** In a list cut at two places, an item that stands in one of the
    cuts before the end of the prefix of the other is in that prefix. *)
Lemma cut_lookup {A} (pre pre' : list A) x x' post post' :
  pre ++ x :: post = pre' ++ x' :: post' ->
  (length pre < length pre')%nat -> x ∈ pre'.
Proof.
  intros H Hlt. apply (f_equal (fun l => l !! length pre)) in H.
  rewrite list_lookup_middle in H by done.
  rewrite lookup_app_l in H by lia. symmetry in H.
  by apply list_elem_of_lookup_2 in H.
Qed.

Lemma cut_lookup_after {A} (pre pre' : list A) x x' post post' :
  pre ++ x :: post = pre' ++ x' :: post' ->
  (length pre' < length pre)%nat -> x ∈ post'.
Proof.
  intros H Hlt. apply (f_equal (fun l => l !! length pre)) in H.
  rewrite list_lookup_middle in H by done.
  rewrite lookup_app_r in H by lia.
  destruct (length pre - length pre')%nat as [|n] eqn:En; [lia|].
  simpl in H. symmetry in H. by apply list_elem_of_lookup_2 in H.
Qed.

Lemma order_test_spec (sections : list SectionConfig.t) :
  let firstDynamicIdx :=
    JsArray.findIndex (fun s => negb (SectionConfig.cacheable s)) sections in
  let lastCacheableIdx := JsArray.findLastIndex SectionConfig.cacheable sections in
  negb (firstDynamicIdx =? -1) && negb (lastCacheableIdx =? -1) &&
    (firstDynamicIdx <? lastCacheableIdx) = true <->
  dynamicBeforeCacheable sections.
Proof.
  intros i j. rewrite !andb_true_iff, !negb_true_iff, !Z.eqb_neq, Z.ltb_lt.
  unfold i, j, JsArray.findIndex. clear i j.
  destruct (findIndexFrom_spec (fun s => negb (SectionConfig.cacheable s))
              sections 0)
    as [[Hall ->] | (p1 & x & q1 & Hs1 & Hp1 & Hx & ->)];
  destruct (findLastIndex_spec SectionConfig.cacheable sections)
    as [[Hall' ->] | (p2 & y & q2 & Hs2 & Hq2 & Hy & ->)].
  - split; [intros [[? _] _]; done|].
    intros (pre & a & mid & b & post & -> & Ha & Hb).
    eapply Forall_forall in Hall; [|apply elem_of_app; right; by left].
    simpl in Hall. rewrite Ha in Hall. done.
  - split; [intros [[? _] _]; done|].
    intros (pre & a & mid & b & post & -> & Ha & Hb).
    eapply Forall_forall in Hall; [|apply elem_of_app; right; by left].
    simpl in Hall. rewrite Ha in Hall. done.
  - split; [intros [[_ ?] _]; done|].
    intros (pre & a & mid & b & post & -> & Ha & Hb).
    eapply Forall_forall in Hall';
      [|apply elem_of_app; right; right; apply elem_of_app; right; by left].
    simpl in Hall'. congruence.
  - apply negb_true_iff in Hx. split.
    + intros [_ Hlt].
      assert (length p1 < length p2)%nat as Hl by lia.
      assert (p2 = p1 ++ x :: drop (S (length p1)) p2) as Hp.
      { rewrite Hs1 in Hs2.
        assert (take (length p1) p2 = p1) as Ht.
        { apply (f_equal (take (length p1))) in Hs2.
          rewrite take_app_length in Hs2. rewrite take_app_le in Hs2 by lia.
          done. }
        assert (p2 !! length p1 = Some x) as Hx'.
        { apply (f_equal (fun l => l !! length p1)) in Hs2.
          rewrite list_lookup_middle in Hs2 by done.
          rewrite lookup_app_l in Hs2 by lia. done. }
        rewrite <- (take_drop_middle _ _ _ Hx') at 1. by rewrite Ht. }
      exists p1, x, (drop (S (length p1)) p2), y, q2.
      split; [|done]. rewrite Hs2. rewrite Hp at 1. by rewrite <- app_assoc.
    + intros (pre & a & mid & b & post & Hs & Ha & Hb).
      split; [split; lia|].
      (* the first dynamic section is not after [a], the last cacheable
         one not before [b] *)
      assert (length p1 <= length pre)%nat as H1.
      { destruct (Nat.le_gt_cases (length p1) (length pre)) as [|Hgt]; [done|].
        exfalso. rewrite Hs in Hs1.
        pose proof (cut_lookup _ _ _ _ _ _ Hs1 Hgt) as Hin.
        eapply Forall_forall in Hp1; [|exact Hin]. simpl in Hp1.
        rewrite Ha in Hp1. done. }
      assert (length pre + 1 + length mid <= length p2)%nat as H2.
      { destruct (Nat.le_gt_cases (length pre + 1 + length mid) (length p2))
          as [|Hgt]; [done|]. exfalso.
        rewrite Hs in Hs2.
        replace (pre ++ a :: mid ++ b :: post)
          with ((pre ++ a :: mid) ++ b :: post) in Hs2
          by (by rewrite <- app_assoc).
        assert (length p2 < length (pre ++ a :: mid))%nat as Hlt.
        { rewrite length_app. simpl. lia. }
        pose proof (cut_lookup_after _ _ _ _ _ _ Hs2 Hlt) as Hin.
        eapply Forall_forall in Hq2; [|exact Hin]. simpl in Hq2. congruence. }
      lia.
Qed.

Lemma format_test_spec (sections : list SectionConfig.t) :
  let formatIdx :=
    JsArray.findIndex (fun s => bool_decide (SectionConfig.type s = TFormat))
      sections in
  negb (formatIdx =? -1) &&
    negb (formatIdx =? Z.of_nat (length sections) - 1) = true <->
  exists pre s post,
    sections = pre ++ s :: post /\ SectionConfig.type s = TFormat /\ post <> [].
Proof.
  intros i. rewrite andb_true_iff, !negb_true_iff, !Z.eqb_neq.
  unfold i, JsArray.findIndex. clear i.
  destruct (findIndexFrom_spec
              (fun s => bool_decide (SectionConfig.type s = TFormat)) sections 0)
    as [[Hall ->] | (p1 & x & q1 & Hs1 & Hp1 & Hx & ->)].
  - split; [by intros [? _]|].
    intros (pre & s & post & -> & Ht & _).
    eapply Forall_forall in Hall; [|apply elem_of_app; right; by left].
    simpl in Hall. by apply bool_decide_eq_false in Hall.
  - apply bool_decide_eq_true in Hx. split.
    + intros [_ Hlast]. exists p1, x, q1. split; [done|]. split; [done|].
      intros ->. rewrite Hs1, length_app in Hlast. simpl in Hlast. lia.
    + intros (pre & s & post & Hs & Ht & Hpost). split; [lia|].
      (* the first format section is not after [s] *)
      assert (length p1 <= length pre)%nat as H1.
      { destruct (Nat.le_gt_cases (length p1) (length pre)) as [|Hgt]; [done|].
        exfalso. rewrite Hs in Hs1.
        pose proof (cut_lookup _ _ _ _ _ _ Hs1 Hgt) as Hin.
        eapply Forall_forall in Hp1; [|exact Hin]. simpl in Hp1.
        by apply bool_decide_eq_false in Hp1. }
      rewrite Hs, length_app. simpl. destruct post; [done|]. simpl. lia.
Qed.

Lemma deprecatedWarning_id section w :
  w ∈ PromptApi.deprecatedWarning section ->
  LintWarning.id w = js "deprecated-fragment" /\
  LintWarning.severity w = SevWarning.
Proof.
  unfold PromptApi.deprecatedWarning.
  destruct (Sections.getFragment section) as [f|]; [|by intros ?%elem_of_nil].
  destruct (FragmentDefinition.metadata f) as [md|]; [|by intros ?%elem_of_nil].
  destruct (FragmentMetadata.deprecated md) as [[|]|];
    try by intros ?%elem_of_nil.
  intros ->%list_elem_of_singleton. done.
Qed.

(** [X7] The rule [dynamic-before-static] reports exactly when some
    section that is not cacheable stands before a cacheable one,
    wherever the two are; it reports one finding then, a warning, and
    none otherwise. *)
Theorem dynamicBeforeStatic_fires_iff (ctx : LintContext.t) :
  (HeuristicRules.dynamicBeforeStaticCheck ctx <> [] <->
   dynamicBeforeCacheable (LintContext.sections ctx)) /\
  (forall w, w ∈ HeuristicRules.dynamicBeforeStaticCheck ctx ->
     HeuristicRules.dynamicBeforeStaticCheck ctx = [w] /\
     LintWarning.id w = js "dynamic-before-static" /\
     LintWarning.severity w = SevWarning).
Proof.
  unfold HeuristicRules.dynamicBeforeStaticCheck.
  pose proof (order_test_spec (LintContext.sections ctx)) as H. cbv zeta in H.
  destruct (_ && _ && _).
  - split; [split; [intros _; by apply H | done]|].
    intros w ->%list_elem_of_singleton. done.
  - split; [split; [done | intros H'%H; done]|].
    by intros w ?%elem_of_nil.
Qed.

(** [X8] The rule [format-not-last] reports exactly when some format
    section is followed by another section: so with two format sections
    it reports even when the last section is a format section.  It
    reports one finding then, of severity info. *)
Theorem formatNotLast_fires_iff (ctx : LintContext.t) :
  (HeuristicRules.formatNotLastCheck ctx <> [] <->
   exists pre s post,
     LintContext.sections ctx = pre ++ s :: post /\
     SectionConfig.type s = TFormat /\ post <> []) /\
  (forall w, w ∈ HeuristicRules.formatNotLastCheck ctx ->
     HeuristicRules.formatNotLastCheck ctx = [w] /\
     LintWarning.id w = js "format-not-last" /\
     LintWarning.severity w = SevInfo).
Proof.
  unfold HeuristicRules.formatNotLastCheck.
  pose proof (format_test_spec (LintContext.sections ctx)) as H. cbv zeta in H.
  destruct (_ && _).
  - split; [split; [intros _; by apply H | done]|].
    intros w ->%list_elem_of_singleton. done.
  - split; [split; [done | intros H'%H; done]|].
    by intros w ?%elem_of_nil.
Qed.

(** [X9] The quick validation of a prompt ([Prompt.lint]) never reports
    an error.  Among the ids of its findings, [missing-identity] is
    there exactly when no section is an identity section,
    [format-not-last] exactly when a format section is followed by
    another section, [dynamic-before-static] exactly when a section that
    is not cacheable stands before a cacheable one, and
    [deprecated-fragment] exactly when the fragment of some section is
    marked as deprecated. *)
Theorem quick_lint_spec (p : Prompt.t) :
  let ids := map LintWarning.id (PromptApi.lint p) in
  Forall (fun w => LintWarning.severity w <> SevError) (PromptApi.lint p) /\
  (js "missing-identity" ∈ ids <->
   Forall (fun s => SectionConfig.type s <> TIdentity) (Prompt.sections p)) /\
  (js "format-not-last" ∈ ids <->
   exists pre s post,
     Prompt.sections p = pre ++ s :: post /\
     SectionConfig.type s = TFormat /\ post <> []) /\
  (js "dynamic-before-static" ∈ ids <->
   dynamicBeforeCacheable (Prompt.sections p)) /\
  (js "deprecated-fragment" ∈ ids <->
   exists s f md,
     s ∈ Prompt.sections p /\ Sections.getFragment s = Some f /\
     FragmentDefinition.metadata f = Some md /\
     FragmentMetadata.deprecated md = Some true).
Proof.
  intros ids. unfold ids, PromptApi.lint. clear ids.
  cbv zeta.
  set (missing := if negb _ then _ else []).
  set (formatNotLast := if _ && _ then _ else []).
  set (dynamic := if _ && _ && _ then _ else []).
  set (deprecated := flat_map _ _).
  assert (forall w, w ∈ missing ->
            LintWarning.id w = js "missing-identity" /\
            LintWarning.severity w = SevWarning) as Hm.
  { unfold missing. match goal with |- context [if ?c then _ else _] => destruct c end; [|by intros w ?%elem_of_nil].
    by intros w ->%list_elem_of_singleton. }
  assert (forall w, w ∈ formatNotLast ->
            LintWarning.id w = js "format-not-last" /\
            LintWarning.severity w = SevInfo) as Hf.
  { unfold formatNotLast. match goal with |- context [if ?c then _ else _] => destruct c end; [|by intros w ?%elem_of_nil].
    by intros w ->%list_elem_of_singleton. }
  assert (forall w, w ∈ dynamic ->
            LintWarning.id w = js "dynamic-before-static" /\
            LintWarning.severity w = SevWarning) as Hd.
  { unfold dynamic. match goal with |- context [if ?c then _ else _] => destruct c end; [|by intros w ?%elem_of_nil].
    by intros w ->%list_elem_of_singleton. }
  assert (forall w, w ∈ deprecated ->
            LintWarning.id w = js "deprecated-fragment" /\
            LintWarning.severity w = SevWarning) as Hp.
  { intros w (s & _ & Hw)%list_elem_of_In%in_flat_map.
    apply list_elem_of_In in Hw. by eapply deprecatedWarning_id. }
  assert (forall id,
            id ∈ map LintWarning.id
                   (missing ++ formatNotLast ++ deprecated ++ dynamic) <->
            (exists w, w ∈ missing /\ LintWarning.id w = id) \/
            (exists w, w ∈ formatNotLast /\ LintWarning.id w = id) \/
            (exists w, w ∈ deprecated /\ LintWarning.id w = id) \/
            (exists w, w ∈ dynamic /\ LintWarning.id w = id)) as Hids.
  { intros id. rewrite list_elem_of_fmap. setoid_rewrite elem_of_app.
    setoid_rewrite elem_of_app. setoid_rewrite elem_of_app. split.
    - intros (w & -> & [?|[?|[?|?]]]); eauto 8.
    - intros [(w & ? & <-)|[(w & ? & <-)|[(w & ? & <-)|(w & ? & <-)]]];
        exists w; eauto 8. }
  pose proof (order_test_spec (Prompt.sections p)) as Hord.
  pose proof (format_test_spec (Prompt.sections p)) as Hfmt.
  cbv zeta in Hord, Hfmt.
  split; [|split; [|split; [|split]]].
  - apply Forall_forall. intros w.
    rewrite !elem_of_app. intros [H|[H|[H|H]]];
      [apply Hm in H | apply Hf in H | apply Hp in H | apply Hd in H];
      destruct H as [_ ->]; done.
  - rewrite Hids. split.
    + intros [(w & Hw & _)|[(w & [E _]%Hf & E')|[(w & [E _]%Hp & E')|
                                               (w & [E _]%Hd & E')]]];
        try (rewrite E in E'; vm_compute in E'; discriminate).
      unfold missing in Hw.
      destruct (negb (existsb _ _)) eqn:En; [|by apply elem_of_nil in Hw].
      apply negb_true_iff in En. apply Forall_forall. intros s Hs Ht.
      assert (existsb (fun s => bool_decide (SectionConfig.type s = TIdentity))
                (Prompt.sections p) = true) as Hex; [|congruence].
      apply existsb_exists. exists s. split; [by apply list_elem_of_In|].
      by apply bool_decide_eq_true.
    + intros Hall. left. unfold missing.
      assert (existsb (fun s => bool_decide (SectionConfig.type s = TIdentity))
                (Prompt.sections p) = false) as ->.
      { apply not_true_is_false. intros (s & Hs & Ht)%existsb_exists.
        apply bool_decide_eq_true in Ht. apply list_elem_of_In in Hs.
        eapply Forall_forall in Hall; [|exact Hs]. done. }
      simpl. eexists. split; [apply list_elem_of_here | done].
  - rewrite Hids, <- Hfmt. split.
    + intros [(w & [E _]%Hm & E')|[(w & Hw & _)|[(w & [E _]%Hp & E')|
                                               (w & [E _]%Hd & E')]]];
        try (rewrite E in E'; vm_compute in E'; discriminate).
      unfold formatNotLast in Hw.
      destruct (negb _ && negb _); [done|].
      by apply elem_of_nil in Hw.
    + intros H. right. left. unfold formatNotLast. rewrite H.
      eexists. split; [apply list_elem_of_here | done].
  - rewrite Hids, <- Hord. split.
    + intros [(w & [E _]%Hm & E')|[(w & [E _]%Hf & E')|[(w & [E _]%Hp & E')|
                                               (w & Hw & _)]]];
        try (rewrite E in E'; vm_compute in E'; discriminate).
      unfold dynamic in Hw. destruct (_ && _ && _); [done|].
      by apply elem_of_nil in Hw.
    + intros H. right. right. right. unfold dynamic. rewrite H.
      eexists. split; [apply list_elem_of_here | done].
  - rewrite Hids. split.
    + intros [(w & [E _]%Hm & E')|[(w & [E _]%Hf & E')|[(w & Hw & _)|
                                               (w & [E _]%Hd & E')]]];
        try (rewrite E in E'; vm_compute in E'; discriminate).
      apply list_elem_of_In, in_flat_map in Hw as (s & Hs & Hw).
      apply list_elem_of_In in Hs. unfold PromptApi.deprecatedWarning in Hw.
      destruct (Sections.getFragment s) as [f|] eqn:Ef; [|done].
      destruct (FragmentDefinition.metadata f) as [md|] eqn:Emd; [|done].
      destruct (FragmentMetadata.deprecated md) as [[|]|] eqn:Ed; try done.
      by exists s, f, md.
    + intros (s & f & md & Hs & Ef & Emd & Ed). right. right. left.
      assert (exists w, w ∈ PromptApi.deprecatedWarning s) as (w & Hw).
      { unfold PromptApi.deprecatedWarning. rewrite Ef, Emd, Ed.
        eexists. apply list_elem_of_here. }
      exists w. split; [|by apply (deprecatedWarning_id s)].
      apply list_elem_of_In, in_flat_map. exists s.
      split; by apply list_elem_of_In.
Qed.

End OrderRuleFacts.

(** ** Overriding sections *)

Section OverrideFacts.

(** [X10] When every override has the section type it is filed under,
    [override] is idempotent, and in its result every section of an
    overridden type is the override itself.  The number of sections
    does not change: an override for a type the prompt has no section
    of adds nothing. *)
Theorem override_idempotent (p : Prompt.t)
    (overrides : SectionType -> option SectionConfig.t) :
  (forall t s, overrides t = Some s -> SectionConfig.type s = t) ->
  PromptApi.override (PromptApi.override p overrides) overrides =
    PromptApi.override p overrides /\
  length (Prompt.sections (PromptApi.override p overrides)) =
    length (Prompt.sections p) /\
  (forall s s',
     s ∈ Prompt.sections (PromptApi.override p overrides) ->
     overrides (SectionConfig.type s) = Some s' -> s = s').
Proof.
  intros Hty.
  assert (forall s,
            overrides (SectionConfig.type
                         (default s (overrides (SectionConfig.type s)))) =
            overrides (SectionConfig.type s)) as Hsame.
  { intros s. destruct (overrides (SectionConfig.type s)) as [s'|] eqn:E;
      simpl; [|done]. by rewrite (Hty _ _ E). }
  unfold PromptApi.override. cbn [Prompt.sections Prompt.name Prompt.model
                                   Prompt.options].
  split; [|split].
  - f_equal. rewrite map_map. apply map_ext. intros s.
    rewrite Hsame. by destruct (overrides (SectionConfig.type s)).
  - by rewrite length_map.
  - intros s s' (s0 & -> & _)%list_elem_of_fmap. rewrite Hsame.
    by intros ->.
Qed.

Lemma override_idempotent_witness :
  PromptApi.override (PromptApi.override twiceHelpful terseIdentity)
    terseIdentity =
  PromptApi.override twiceHelpful terseIdentity.
Proof.
  apply (override_idempotent twiceHelpful terseIdentity).
  intros t s. destruct t; simpl; try discriminate. by intros [= <-].
Defined.

End OverrideFacts.

(** ** The result of a lint run *)

Section ResultFacts.
Import Linter.
Variable env : Services.
Variable elapsed : Z.

Lemma filter_by_severity (l : list LintWarning.t) :
  List.filter (hasSeverity SevError) l ++
  List.filter (hasSeverity SevWarning) l ++
  List.filter (hasSeverity SevInfo) l ≡ₚ l.
Proof.
  induction l as [|w l IH]; [done|].
  cbn [List.filter].
  assert (forall s, hasSeverity s w = bool_decide (LintWarning.severity w = s))
    as Hs by done.
  destruct (LintWarning.severity w) eqn:E; rewrite !Hs;
    repeat (case_bool_decide; try done).
  - cbn [app]. apply perm_skip, IH.
  - cbn [app]. rewrite <- Permutation_middle. apply perm_skip, IH.
  - rewrite app_assoc, <- Permutation_middle, <- app_assoc. apply perm_skip, IH.
Qed.

Lemma runRule_counts L ia ign ctx st entry :
  Z.of_nat (length (failed st)) <= rulesChecked st ->
  Z.of_nat (length (failed (runRule L ia ign ctx st entry))) <=
    rulesChecked (runRule L ia ign ctx st entry) <= rulesChecked st + 1.
Proof.
  intros H. destruct entry as [ruleId rule]. unfold runRule.
  destruct (ruleConfig L !! ruleId) as [rc|]; [|lia].
  destruct (parseRuleConfig rc) as [severity options].
  case_bool_decide; [lia|]. destruct (ia || _); [lia|].
  destruct (LintRule.check rule _); simpl; [lia|].
  rewrite length_app. simpl. lia.
Qed.

Lemma fold_runRule_counts L ia ign ctx rules : forall st,
  Z.of_nat (length (failed st)) <= rulesChecked st ->
  Z.of_nat (length (failed (fold_left (runRule L ia ign ctx) rules st))) <=
    rulesChecked (fold_left (runRule L ia ign ctx) rules st) <=
    rulesChecked st + Z.of_nat (length rules).
Proof.
  induction rules as [|e rules IH]; intros st H; simpl fold_left.
  - simpl. lia.
  - pose proof (runRule_counts L ia ign ctx st e H) as H1.
    specialize (IH (runRule L ia ign ctx st e) ltac:(lia)).
    simpl length. lia.
Qed.

(** [X11] The result of a lint run loses and doubles nothing: its
    errors, warnings and infos together are the findings of the run up
    to their order, each list holds the findings of its severity only,
    and [passed] says that there is no error.  The count of rules
    checked is at most the number of registered rules, and a rule whose
    check throws is counted. *)
Theorem lint_result_partition (L : Linter.t) (p : Prompt.t)
    (result : LintResult.t) :
  Linter.lint env elapsed L p = Returns result ->
  exists r,
    Prompt.render env p [] = Returns r /\
    LintResult.errors result ++ LintResult.warnings result ++
      LintResult.info result ≡ₚ allWarnings (runRules env L p r) /\
    Forall (fun w => LintWarning.severity w = SevError)
      (LintResult.errors result) /\
    Forall (fun w => LintWarning.severity w = SevWarning)
      (LintResult.warnings result) /\
    Forall (fun w => LintWarning.severity w = SevInfo)
      (LintResult.info result) /\
    (LintResult.passed result = true <-> LintResult.errors result = []) /\
    Z.of_nat (length (failed (runRules env L p r))) <=
      LintStats.rulesChecked (LintResult.stats result) <=
      Z.of_nat (length (rules L)).
Proof.
  unfold Linter.lint. intros (r & Hr & [= <-])%bind_Returns_inv.
  exists r. split; [done|]. unfold resultOf.
  cbn [LintResult.errors LintResult.warnings LintResult.info LintResult.passed
       LintResult.stats LintStats.rulesChecked].
  split; [apply filter_by_severity|].
  assert (forall s l,
            Forall (fun w => LintWarning.severity w = s)
              (List.filter (hasSeverity s) l)) as Hsev.
  { intros s l. apply Forall_forall.
    intros w [_ Hw]%list_elem_of_In%filter_In.
    by apply bool_decide_eq_true in Hw. }
  split; [apply Hsev|]. split; [apply Hsev|]. split; [apply Hsev|].
  split.
  - rewrite bool_decide_eq_true. split.
    + by intros ?%length_zero_iff_nil.
    + by intros ->.
  - unfold runRules.
    pose proof (fold_runRule_counts L
      (bool_decide (js "*" ∈ parseIgnoredRules (CompiledPrompt.text r)))
      (parseIgnoredRules (CompiledPrompt.text r)) (contextOf env p r)
      (rules L) (mkRun [] 0 []) ltac:(simpl; lia)) as H.
    simpl rulesChecked in H at 3. lia.
Qed.

End ResultFacts.

Lemma lint_result_partition_witness :
  exists result,
    Linter.lint sampleServices 0 (Linter.new quietChecks missingIdentityIsError)
      formatOnly = Returns result /\
    LintResult.passed result = false /\
    LintResult.errors result <> [].
Proof.
  eexists. split; [vm_compute; reflexivity|].
  destruct (lint_result_partition sampleServices 0
              (Linter.new quietChecks missingIdentityIsError) formatOnly
              (match Linter.lint sampleServices 0
                       (Linter.new quietChecks missingIdentityIsError)
                       formatOnly with
               | Returns result => result
               | Throws _ => Linter.resultOf 0 (Linter.mkRun [] 0 [])
               end))
    as (r & _ & _ & _ & _ & _ & Hp & _); [vm_compute; reflexivity|].
  split; [vm_compute; reflexivity|].
  vm_compute. discriminate.
Defined.

(** ** The registry of rules *)

Section RegistryFacts.
Import Linter.

Lemma assocSet_keys {V} key (v : V) l :
  map fst (Js.assocSet key v l) = JsSet.add (map fst l) key.
Proof.
  induction l as [|[k x] l IH]; cbn [Js.assocSet map fst].
  - unfold JsSet.add. case_bool_decide as Hin; [|done].
    by apply elem_of_nil in Hin.
  - case_bool_decide as Hk; cbn [map fst].
    + subst k. unfold JsSet.add. rewrite bool_decide_eq_true_2; [done|].
      by left.
    + rewrite IH. unfold JsSet.add. case_bool_decide as Hin.
      * rewrite bool_decide_eq_true_2; [done|]. by right.
      * rewrite bool_decide_eq_false_2; [done|].
        intros [?|?]%elem_of_cons; [congruence | done].
Qed.

Lemma assocSet_elem {V} key (v : V) l k x :
  NoDup (map fst l) ->
  (k, x) ∈ Js.assocSet key v l <->
  (k = key /\ x = v) \/ (k <> key /\ (k, x) ∈ l).
Proof.
  induction l as [|[k' x'] l IH]; simpl; intros Hnd.
  - rewrite list_elem_of_singleton. split.
    + intros [= -> ->]. by left.
    + intros [[-> ->]|[_ ?%elem_of_nil]]; done.
  - apply NoDup_cons in Hnd as [Hk' Hnd]. case_bool_decide as Hk.
    + subst k'. rewrite !elem_of_cons. split.
      * intros [[= -> ->]|Hin]; [by left|]. right. split; [|by right].
        intros ->. apply Hk'. apply list_elem_of_fmap. by exists (key, x).
      * intros [[-> ->]|[Hne [[= ? ?]|Hin]]]; [by left | done | by right].
    + rewrite !elem_of_cons, IH by done. split.
      * intros [[= -> ->]|[[-> ->]|[Hne Hin]]].
        -- right. split; [done | by left].
        -- by left.
        -- right. split; [done | by right].
      * intros [[-> ->]|[Hne [[= -> ->]|Hin]]].
        -- right. by left.
        -- by left.
        -- right. right. by split.
Qed.

Lemma fold_register_keys configured rs : forall L,
  map fst (rules (fold_left (register configured) rs L)) =
  fold_left JsSet.add (map LintRule.id rs) (map fst (rules L)).
Proof.
  induction rs as [|r rs IH]; intros L; simpl; [done|].
  rewrite IH. simpl. by rewrite assocSet_keys.
Qed.

(** The entries of a registry filled from the empty one: under each id
    the rule registered last with it. *)
Lemma fold_register_elem configured rs id rule :
  (id, rule) ∈ rules (fold_left (register configured) rs (mk [] ∅)) <->
  exists pre post,
    rs = pre ++ rule :: post /\ LintRule.id rule = id /\
    Forall (fun r => LintRule.id r <> id) post.
Proof.
  revert id rule. induction rs as [|r rs IH] using rev_ind; intros id rule.
  - simpl. split; [by intros ?%elem_of_nil|].
    intros (pre & post & H & _). by destruct pre.
  - rewrite fold_left_app. simpl.
    rewrite assocSet_elem.
    2: { rewrite fold_register_keys. apply JsSet_fold_NoDup. constructor. }
    split.
    + intros [[-> ->]|[Hne (pre & post & -> & Hid & Hpost)%IH]].
      * exists rs, []. by repeat split.
      * exists pre, (post ++ [r]). rewrite <- app_assoc. split; [done|].
        split; [done|]. apply Forall_app. split; [done|].
        constructor; [congruence | constructor].
    + intros (pre & post & Heq & Hid & Hpost).
      destruct post as [|x post _] using rev_ind.
      * apply app_inj_tail in Heq as [_ ->]. by left.
      * rewrite app_comm_cons, app_assoc in Heq.
        apply app_inj_tail in Heq as [-> ->].
        apply Forall_app in Hpost as [Hpost Hx]. inversion Hx; subst.
        right. split; [congruence|]. apply IH. by exists pre, post.
Qed.

(** [X12] The registry of a new linter: its rule ids are the ids of the
    built-in rules followed by the ids of the custom rules, each id at
    the place of its first registration and only once; so the ids of
    the built-in rules come first, in their order.  Under each id stands
    the rule that was registered last with it: a custom rule with the
    id of a built-in rule (or of an earlier custom rule) replaces that
    rule, at its place. *)
Theorem registry_spec
    (checks : JsString -> LintContext.t -> Outcome (list LintWarning.t))
    (config : LinterConfig.t) :
  let registered :=
    HeuristicRules.heuristicRules checks ++
    default [] (LinterConfig.custom config) in
  getRuleIds (Linter.new checks config) =
    JsSet.ofList (map LintRule.id registered) /\
  NoDup (getRuleIds (Linter.new checks config)) /\
  map LintRule.id (HeuristicRules.heuristicRules checks) `prefix_of`
    getRuleIds (Linter.new checks config) /\
  (forall id rule,
     (id, rule) ∈ rules (Linter.new checks config) <->
     exists pre post,
       registered = pre ++ rule :: post /\ LintRule.id rule = id /\
       Forall (fun r => LintRule.id r <> id) post).
Proof.
  intros registered.
  assert (rules (Linter.new checks config) =
          rules (fold_left
                   (register (default ∅ (LinterConfig.rules config)))
                   registered (mk [] ∅))) as Hrules.
  { unfold Linter.new, registered. cbn [rules]. by rewrite fold_left_app. }
  assert (getRuleIds (Linter.new checks config) =
          JsSet.ofList (map LintRule.id registered)) as Hids.
  { unfold getRuleIds. rewrite Hrules. by rewrite fold_register_keys. }
  split; [done|]. split; [rewrite Hids; apply JsSet_ofList_NoDup|].
  split.
  - rewrite Hids. unfold registered. rewrite map_app.
    assert (map LintRule.id (HeuristicRules.heuristicRules checks) =
            JsSet.ofList (map LintRule.id (HeuristicRules.heuristicRules checks)))
      as Hb by (vm_compute; reflexivity).
    rewrite Hb at 1. apply JsSet_ofList_app.
  - intros id rule. rewrite Hrules. apply fold_register_elem.
Qed.

Lemma findingsOf_disableRule L ruleId ia ign ctx entry :
  findingsOf (disableRule L ruleId) ia ign ctx entry =
  if bool_decide (entry.1 = ruleId) then []
  else findingsOf L ia ign ctx entry.
Proof.
  destruct entry as [k rule]. unfold findingsOf, disableRule.
  cbn [ruleConfig fst snd]. destruct (decide (k = ruleId)) as [->|Hk].
  - rewrite (bool_decide_eq_true_2 (ruleId = ruleId)) by done.
    by rewrite (lookup_insert_eq (ruleConfig L)).
  - rewrite (bool_decide_eq_false_2 (k = ruleId)) by done.
    by rewrite (lookup_insert_ne (ruleConfig L)).
Qed.

(** [X13] After [disableRule(id)] the rule stays registered, at its
    place, but a run has no finding of an entry under this id, whatever
    the check of the rule would return: the findings of the run are
    those that the other entries had before, in the same order. *)
Theorem disableRule_run (env : Services) (L : Linter.t) (ruleId : JsString)
    (p : Prompt.t) (r : CompiledPrompt.t) :
  let ignored := parseIgnoredRules (CompiledPrompt.text r) in
  let ignoreAll := bool_decide (js "*" ∈ ignored) in
  getRuleIds (disableRule L ruleId) = getRuleIds L /\
  allWarnings (runRules env (disableRule L ruleId) p r) =
    flat_map (findingsOf L ignoreAll ignored (contextOf env p r))
      (List.filter (fun entry => negb (bool_decide (entry.1 = ruleId)))
         (rules L)).
Proof.
  intros ignored ignoreAll. split; [done|].
  rewrite runRules_allWarnings. fold ignored. fold ignoreAll.
  change (rules (disableRule L ruleId)) with (rules L).
  induction (rules L) as [|entry l IH]; [done|].
  cbn [flat_map List.filter]. rewrite IH, findingsOf_disableRule.
  by case_bool_decide.
Qed.

End RegistryFacts.

(** ** The metadata of a render *)

Section MetadataFacts.

Lemma render_meta env p ctx r :
  Prompt.render env p ctx = Returns r ->
  exists resolved,
    Prompt.resolveSections p (Prompt.enrich env p ctx) = Returns resolved /\
    PromptMetadata.name (CompiledPrompt.meta r) = Prompt.name p /\
    PromptMetadata.model (CompiledPrompt.meta r) = Prompt.model p /\
    PromptMetadata.fragments (CompiledPrompt.meta r) =
      Prompt.fragmentReferencesFrom 0 (Prompt.sections p) /\
    PromptMetadata.cacheablePrefix (CompiledPrompt.meta r) =
      fst (Prompt.cacheablePrefixOf
             (Prompt.tokensBySectionOf env p (Prompt.orderSections p resolved))
             (Prompt.orderSections p resolved) 0 0).
Proof.
  unfold Prompt.render. intros (resolved & Hres & Hr)%bind_Returns_inv.
  exists resolved. split; [done|]. injection Hr as <-.
  cbn [CompiledPrompt.meta]. unfold Prompt.buildMetadata.
  by destruct (Prompt.cacheablePrefixOf _ _ 0 0).
Qed.

Lemma fragmentReferencesFrom_spec sections : forall i ref,
  0 <= i ->
  ref ∈ Prompt.fragmentReferencesFrom i sections <->
  exists k s f,
    sections !! k = Some s /\ Sections.getFragment s = Some f /\
    ref = FragmentReference.mk (FragmentDefinition.id f)
            (FragmentDefinition.version f) (SectionConfig.type s)
            (i + Z.of_nat k).
Proof.
  induction sections as [|s sections IH]; intros i ref Hi;
    cbn [Prompt.fragmentReferencesFrom].
  - split; [by intros ?%elem_of_nil | by intros (k & s & f & ? & _)].
  - assert (ref ∈ Prompt.fragmentReferencesFrom (i + 1) sections <->
            exists k s' f,
              (s :: sections) !! S k = Some s' /\
              Sections.getFragment s' = Some f /\
              ref = FragmentReference.mk (FragmentDefinition.id f)
                      (FragmentDefinition.version f) (SectionConfig.type s')
                      (i + Z.of_nat (S k))) as Htail.
    { rewrite IH by lia. split; intros (k & s' & f & Hk & Hf & ->);
        exists k, s', f; (split; [done|]); (split; [done|]); f_equal; lia. }
    destruct (Sections.getFragment s) as [f|] eqn:Ef.
    + rewrite elem_of_cons, Htail. split.
      * intros [->|(k & s' & f' & H)].
        -- exists 0%nat, s, f. repeat split; [done | f_equal; lia].
        -- by exists (S k), s', f'.
      * intros ([|k] & s' & f' & Hk & Hf & ->).
        -- left. injection Hk as <-. rewrite Ef in Hf. injection Hf as <-.
           f_equal. lia.
        -- right. by exists k, s', f'.
    + rewrite Htail. split.
      * intros (k & s' & f' & H). by exists (S k), s', f'.
      * intros ([|k] & s' & f' & Hk & Hf & ->).
        -- injection Hk as <-. congruence.
        -- by exists k, s', f'.
Qed.

Lemma fragmentReferencesFrom_sorted sections : forall i,
  StronglySorted Z.lt
    (map FragmentReference.sectionIndex
       (Prompt.fragmentReferencesFrom i sections)) /\
  Forall (fun ref => i <= FragmentReference.sectionIndex ref)
    (Prompt.fragmentReferencesFrom i sections).
Proof.
  induction sections as [|s sections IH]; intros i;
    cbn [Prompt.fragmentReferencesFrom].
  - split; constructor.
  - destruct (IH (i + 1)) as [Hs Hall].
    assert (Forall (fun ref => i <= FragmentReference.sectionIndex ref)
              (Prompt.fragmentReferencesFrom (i + 1) sections)) as Hall'.
    { eapply Forall_impl; [exact Hall|]. simpl. lia. }
    destruct (Sections.getFragment s) as [f|]; [|done].
    split.
    + cbn [map FragmentReference.sectionIndex]. constructor; [done|].
      apply Forall_forall. intros x (ref & -> & Hin)%list_elem_of_fmap.
      eapply Forall_forall in Hall; [|exact Hin]. simpl in Hall. lia.
    + constructor; [simpl; lia | done].
Qed.

Lemma fragmentReferencesFrom_ids sections : forall i,
  omap PromptApi.dependencyOf sections =
  List.filter (fun id => negb (bool_decide (id = [])))
    (map FragmentReference.id (Prompt.fragmentReferencesFrom i sections)).
Proof.
  induction sections as [|s sections IH]; intros i; [done|].
  cbn [Prompt.fragmentReferencesFrom].
  assert (omap PromptApi.dependencyOf (s :: sections) =
          match PromptApi.dependencyOf s with
          | Some y => y :: omap PromptApi.dependencyOf sections
          | None => omap PromptApi.dependencyOf sections
          end) as -> by done.
  assert (PromptApi.dependencyOf s =
          match Sections.getFragment s with
          | Some f => match FragmentDefinition.id f with
                      | [] => None
                      | c :: fid => Some (c :: fid)
                      end
          | None => None
          end) as -> by done.
  destruct (Sections.getFragment s) as [f|]; [|apply IH].
  cbn [map FragmentReference.id List.filter].
  destruct (FragmentDefinition.id f) as [|c fid] eqn:Ef.
  - rewrite bool_decide_eq_true_2 by done. apply IH.
  - rewrite bool_decide_eq_false_2 by done. cbn [negb]. f_equal. apply IH.
Qed.

(** [X14] The fragment references in the metadata of a render: there is
    one for each section that is not dynamic, in the order of the
    sections; the section index of each is the position of its section
    in the prompt (before any reordering), and its id, version and
    section type are those of that section's fragment.  The ids that
    are not empty, each taken once, are the dependencies of the
    prompt. *)
Theorem metadata_fragments_spec (env : Services) (p : Prompt.t)
    (ctx : RenderContext) (r : CompiledPrompt.t) :
  Prompt.render env p ctx = Returns r ->
  let refs := PromptMetadata.fragments (CompiledPrompt.meta r) in
  (forall ref,
     ref ∈ refs <->
     exists k s f,
       Prompt.sections p !! k = Some s /\ Sections.getFragment s = Some f /\
       ref = FragmentReference.mk (FragmentDefinition.id f)
               (FragmentDefinition.version f) (SectionConfig.type s)
               (Z.of_nat k)) /\
  StronglySorted Z.lt (map FragmentReference.sectionIndex refs) /\
  PromptApi.dependencies p =
    JsSet.ofList
      (List.filter (fun id => negb (bool_decide (id = [])))
         (map FragmentReference.id refs)).
Proof.
  intros (resolved & _ & _ & _ & Hf & _)%render_meta. cbv zeta. rewrite Hf.
  split; [|split].
  - intros ref. by rewrite fragmentReferencesFrom_spec.
  - apply fragmentReferencesFrom_sorted.
  - unfold PromptApi.dependencies. f_equal. apply fragmentReferencesFrom_ids.
Qed.

Lemma metadata_fragments_spec_witness :
  exists r,
    Prompt.render sampleServices greetingPrompt [] = Returns r /\
    map FragmentReference.id (PromptMetadata.fragments (CompiledPrompt.meta r)) =
      [js "greeting"; js "anonymous-format"] /\
    PromptApi.dependencies greetingPrompt =
      [js "greeting"; js "anonymous-format"].
Proof.
  eexists. split; [vm_compute; reflexivity|].
  split; [vm_compute; reflexivity|].
  destruct (metadata_fragments_spec sampleServices greetingPrompt []
              (match Prompt.render sampleServices greetingPrompt [] with
               | Returns r => r
               | Throws _ =>
                   CompiledPrompt.mk []
                     (PromptMetadata.mk [] [] 0 ∅
                        (SourceMap.toJSON (SourceMap.new [])) 0 0 [])
               end)) as (_ & _ & ->); [vm_compute; reflexivity|].
  vm_compute. reflexivity.
Defined.

(** The sum that the loop of the cacheable prefix builds. *)
Lemma cacheablePrefixOf_all tokens sections : forall rest prefix toks,
  Forall (fun s => RenderedSection.cacheable s = true) sections ->
  match rest with
  | [] => True
  | s :: _ => RenderedSection.cacheable s = false
  end ->
  fst (Prompt.cacheablePrefixOf tokens (sections ++ rest) prefix toks) =
  prefix +
  foldr Z.add 0 (map (fun s => jsLength (RenderedSection.content s) + 4) sections).
Proof.
  induction sections as [|s sections IH]; intros rest prefix toks Hall Hrest.
  - simpl. destruct rest as [|s rest]; simpl; [lia|]. rewrite Hrest. simpl. lia.
  - apply Forall_cons in Hall as [Hs Hall].
    cbn [app Prompt.cacheablePrefixOf]. rewrite Hs.
    rewrite IH by done. cbn [map foldr]. lia.
Qed.

Lemma sum_perm (f : RenderedSection.t -> Z) l1 l2 :
  l1 ≡ₚ l2 -> foldr Z.add 0 (map f l1) = foldr Z.add 0 (map f l2).
Proof. induction 1; simpl; lia. Qed.

(** [X15] With the cache-aware order (the default), the cacheable
    prefix in the metadata of a render is the sum, over all cacheable
    sections, of the length of the resolved content plus 4, whatever
    the formatter adds around the sections; it is never negative. *)
Theorem cacheablePrefix_spec (env : Services) (p : Prompt.t)
    (ctx : RenderContext) (r : CompiledPrompt.t) :
  Prompt.render env p ctx = Returns r ->
  PromptOptions.cacheOptimize (Prompt.options p) <> Some false ->
  exists resolved,
    Prompt.resolveSections p (Prompt.enrich env p ctx) = Returns resolved /\
    PromptMetadata.cacheablePrefix (CompiledPrompt.meta r) =
      foldr Z.add 0
        (map (fun s => jsLength (RenderedSection.content s) + 4)
           (List.filter RenderedSection.cacheable resolved)) /\
    0 <= PromptMetadata.cacheablePrefix (CompiledPrompt.meta r).
Proof.
  intros (resolved & Hres & _ & _ & _ & Hc)%render_meta Hopt.
  exists resolved. split; [done|].
  assert (Prompt.orderSections p resolved = Prompt.optimizeForCaching resolved)
    as Hord.
  { unfold Prompt.orderSections.
    by destruct (PromptOptions.cacheOptimize (Prompt.options p)) as [[|]|]. }
  rewrite Hc, Hord. unfold Prompt.optimizeForCaching.
  set (cacheable := List.filter RenderedSection.cacheable resolved).
  set (nonCacheable :=
         List.filter (fun s => negb (RenderedSection.cacheable s)) resolved).
  assert (foldr Z.add 0
            (map (fun s => jsLength (RenderedSection.content s) + 4)
               (Prompt.sortByPriority cacheable)) =
          foldr Z.add 0
            (map (fun s => jsLength (RenderedSection.content s) + 4) cacheable))
    as Hsum by apply sum_perm, sortByPriority_perm.
  rewrite cacheablePrefixOf_all.
  - rewrite Hsum. split; [lia|].
    clear. induction cacheable as [|s l IH]; simpl; [lia|].
    unfold jsLength in *. lia.
  - apply Forall_forall. intros s Hs.
    rewrite sortByPriority_perm in Hs.
    by apply list_elem_of_In, filter_In in Hs as [_ Hs].
  - destruct (Prompt.sortByPriority nonCacheable) as [|s l] eqn:E; [done|].
    assert (s ∈ nonCacheable) as Hs.
    { rewrite <- (sortByPriority_perm nonCacheable), E. by left. }
    apply list_elem_of_In, filter_In in Hs as [_ Hs].
    by apply negb_true_iff in Hs.
Qed.

Lemma cacheablePrefix_spec_witness :
  exists r,
    Prompt.render sampleServices twiceHelpful [] = Returns r /\
    PromptMetadata.cacheablePrefix (CompiledPrompt.meta r) = 30.
Proof.
  eexists. split; [vm_compute; reflexivity|].
  destruct (cacheablePrefix_spec sampleServices twiceHelpful []
              (match Prompt.render sampleServices twiceHelpful [] with
               | Returns r => r
               | Throws _ =>
                   CompiledPrompt.mk []
                     (PromptMetadata.mk [] [] 0 ∅
                        (SourceMap.toJSON (SourceMap.new [])) 0 0 [])
               end)) as (resolved & Hres & Hc & _);
    [vm_compute; reflexivity | vm_compute; discriminate |].
  vm_compute. reflexivity.
Defined.

End MetadataFacts.

(** ** Interpolation *)

Section InterpolateFacts.
Import Regex.

Lemma assocGet_assocSet_eq {V} key (v : V) l :
  Js.assocGet key (Js.assocSet key v l) = Some v.
Proof.
  induction l as [|[k x] l IH]; simpl.
  - by rewrite bool_decide_eq_true_2.
  - case_bool_decide as Hk; simpl.
    + by rewrite bool_decide_eq_true_2.
    + by rewrite bool_decide_eq_false_2.
Qed.

Lemma assocGet_assocSet_ne {V} key key' (v : V) l :
  key <> key' ->
  Js.assocGet key' (Js.assocSet key v l) = Js.assocGet key' l.
Proof.
  intros Hne. induction l as [|[k x] l IH]; simpl.
  - by rewrite bool_decide_eq_false_2.
  - case_bool_decide as Hk; simpl.
    + subst k. by rewrite !bool_decide_eq_false_2.
    + by rewrite IH.
Qed.

Lemma placeholder_none content q :
  Str.includes content (js "{{") = false ->
  matchAt Prompt.placeholder (stateAt content q) = None.
Proof.
  unfold Str.includes, Str.indexOf. intros H.
  change (Z.to_nat 0 `min` length content)%nat with 0%nat in H.
  rewrite drop_0 in H.
  destruct (Str.indexOfFrom (js "{{") content 0) as [n|] eqn:E.
  { apply Z.leb_gt in H. lia. }
  pose proof (indexOfFrom_None _ _ _ E q) as Hq.
  unfold matchAt, Prompt.placeholder.
  change (seqOf [str "{{";
                 RGroup 1 (seqOf [opt (lit 36); plus word;
                                  star (RSeq (lit 46) (plus word))]);
                 str "}}"])
    with (RSeq (str "{{")
            (RSeq (RGroup 1 (seqOf [opt (lit 36); plus word;
                                    star (RSeq (lit 46) (plus word))]))
               (str "}}"))).
  rewrite rmatch_RSeq, rmatch_str_none; [done|]. by rewrite stateAt_rest.
Qed.

(** [X16] A text in which two opening braces never follow each other
    has no placeholder: [interpolate] returns it as it is, whatever the
    context holds, and does not throw. *)
Theorem interpolate_without_placeholder (content : JsString)
    (context : RenderContext) :
  Str.includes content (js "{{") = false ->
  Prompt.interpolate content context = Returns content /\
  Prompt.resolveContent (CString content) context = Returns content.
Proof.
  intros H.
  assert (Prompt.interpolate content context = Returns content) as Hi; [|done].
  unfold Prompt.interpolate, replaceAll, matchAll.
  cbn [matchAllFrom].
  destruct (exec Prompt.placeholder content 0) as [m|] eqn:E.
  - apply exec_sound in E as (q & _ & Hm & _).
    by rewrite placeholder_none in Hm.
  - simpl. by rewrite drop_0.
Qed.

Lemma interpolate_without_placeholder_witness :
  Prompt.interpolate (js "Use {braces} freely.")
    [(js "braces", VString (js "x"))] =
  Returns (js "Use {braces} freely.").
Proof.
  apply (interpolate_without_placeholder (js "Use {braces} freely.")
           [(js "braces", VString (js "x"))]).
  vm_compute. reflexivity.
Defined.


End InterpolateFacts.

(** ** What a mapping of a render says about its section *)

Section MappingSourceFacts.
Import SourceMap.

(** The origin that [buildSourceMap] records for a section. *)
Lemma addSectionMapping_source sm s i a b :
  exists m,
    mappings (Prompt.addSectionMapping sm s i a b) = mappings sm ++ [m] /\
    sectionIndex (source m) = Some i /\
    sectionType (source m) = Some (RenderedSection.type s) /\
    (type (source m) = SDynamic <->
     type (source (RenderedSection.sourceMapping s)) = SDynamic) /\
    (type (source m) = SFragment <->
     type (source (RenderedSection.sourceMapping s)) <> SDynamic /\
     exists c fid,
       fragmentId (source (RenderedSection.sourceMapping s)) = Some (c :: fid)) /\
    (type (source m) = SLiteral <->
     type (source (RenderedSection.sourceMapping s)) <> SDynamic /\
     (fragmentId (source (RenderedSection.sourceMapping s)) = None \/
      fragmentId (source (RenderedSection.sourceMapping s)) = Some [])) /\
    type (source m) <> SGenerated /\
    renderedText (Prompt.addSectionMapping sm s i a b) = renderedText sm.
Proof.
  unfold Prompt.addSectionMapping.
  destruct (type (source (RenderedSection.sourceMapping s))) eqn:Et;
    [destruct (fragmentId _) as [[|c fid]|] eqn:Ef | |
     destruct (fragmentId _) as [[|c fid]|] eqn:Ef |
     destruct (fragmentId _) as [[|c fid]|] eqn:Ef];
    unfold addFragmentMapping, addDynamicMapping, addLiteralMapping;
    simpl; destruct (getLineColumn sm a) as [l c'];
    eexists; simpl; (split; [reflexivity|]);
    repeat split; intros;
    repeat match goal with
           | H : _ /\ _ |- _ => destruct H
           | H : _ \/ _ |- _ => destruct H
           | H : exists _, _ |- _ => destruct H
           end;
    simpl in *; try congruence; eauto.
Qed.

Lemma buildSourceMapFrom_sources text secs : forall i offset sm,
  exists added,
    mappings (Prompt.buildSourceMapFrom text secs i offset sm) =
      mappings sm ++ added /\
    Forall (fun m => exists (j : nat) s,
      secs !! j = Some s /\
      sectionIndex (source m) = Some (i + Z.of_nat j) /\
      sectionType (source m) = Some (RenderedSection.type s) /\
      (type (source m) = SDynamic <->
       type (source (RenderedSection.sourceMapping s)) = SDynamic) /\
      (type (source m) = SLiteral <->
       type (source (RenderedSection.sourceMapping s)) <> SDynamic /\
       (fragmentId (source (RenderedSection.sourceMapping s)) = None \/
        fragmentId (source (RenderedSection.sourceMapping s)) = Some [])) /\
      type (source m) <> SGenerated) added.
Proof.
  induction secs as [|s secs IH]; intros i offset sm; simpl.
  - exists []. by rewrite app_nil_r.
  - assert (forall (added : list SourceMapping),
      Forall (fun m => exists (j : nat) s0,
        secs !! j = Some s0 /\
        sectionIndex (source m) = Some (i + 1 + Z.of_nat j) /\
        sectionType (source m) = Some (RenderedSection.type s0) /\
        (type (source m) = SDynamic <->
         type (source (RenderedSection.sourceMapping s0)) = SDynamic) /\
        (type (source m) = SLiteral <->
         type (source (RenderedSection.sourceMapping s0)) <> SDynamic /\
         (fragmentId (source (RenderedSection.sourceMapping s0)) = None \/
          fragmentId (source (RenderedSection.sourceMapping s0)) = Some [])) /\
        type (source m) <> SGenerated) added ->
      Forall (fun m => exists (j : nat) s0,
        (s :: secs) !! j = Some s0 /\
        sectionIndex (source m) = Some (i + Z.of_nat j) /\
        sectionType (source m) = Some (RenderedSection.type s0) /\
        (type (source m) = SDynamic <->
         type (source (RenderedSection.sourceMapping s0)) = SDynamic) /\
        (type (source m) = SLiteral <->
         type (source (RenderedSection.sourceMapping s0)) <> SDynamic /\
         (fragmentId (source (RenderedSection.sourceMapping s0)) = None \/
          fragmentId (source (RenderedSection.sourceMapping s0)) = Some [])) /\
        type (source m) <> SGenerated) added) as Hshift.
    { intros added Hall. eapply Forall_impl; [exact Hall|]. simpl.
      intros m (j & s0 & Hj & Hi & H'). exists (S j), s0.
      split; [done|]. split; [|done]. rewrite Hi. f_equal. lia. }
    destruct (Str.indexOf text (RenderedSection.content s) offset =? -1).
    + destruct (IH (i + 1) offset sm) as (added & Hm & Hall).
      exists added. split; [done|]. by apply Hshift.
    + set (a := Str.indexOf text (RenderedSection.content s) offset).
      set (b := a + jsLength (RenderedSection.content s)).
      destruct (addSectionMapping_source sm s i a b)
        as (m & Hm & Hi & Hty & Hd & _ & Hl & Hg & _).
      destruct (IH (i + 1) b (Prompt.addSectionMapping sm s i a b))
        as (added & Hm' & Hall).
      exists (m :: added). split.
      { rewrite Hm', Hm. by rewrite <- app_assoc. }
      constructor; [|by apply Hshift].
      exists 0%nat, s. split; [done|]. split; [by rewrite Z.add_0_r|]. done.
Qed.

Lemma resolveSectionsFrom_source ctx sections : forall i resolved s,
  Prompt.resolveSectionsFrom i sections ctx = Returns resolved ->
  s ∈ resolved ->
  exists section,
    section ∈ sections /\
    RenderedSection.type s = SectionConfig.type section /\
    type (source (RenderedSection.sourceMapping s)) =
      (if Sections.isDynamic section then SDynamic else SFragment) /\
    fragmentId (source (RenderedSection.sourceMapping s)) =
      FragmentDefinition.id <$> Sections.getFragment section.
Proof.
  induction sections as [|section rest IH]; intros i resolved s Hres Hin.
  - injection Hres as <-. by apply elem_of_nil in Hin.
  - cbn [Prompt.resolveSectionsFrom] in Hres.
    apply bind_Returns_inv in Hres as (r & Hr & Hres).
    apply bind_Returns_inv in Hres as (rs & Hrs & [= <-]).
    apply elem_of_cons in Hin as [-> | Hin].
    + exists section. split; [by left|].
      unfold Prompt.resolveSection in Hr.
      apply bind_Returns_inv in Hr as (content & _ & [= <-]). done.
    + destruct (IH _ _ _ Hrs Hin) as (section' & Hin' & H').
      exists section'. split; [by right | done].
Qed.

(** [X18] The kind of origin in the mappings of a render.  No mapping
    is of the kind [generated].  A mapping is [dynamic] exactly for a
    section whose content is a function; the text of a section with a
    plain string is recorded as a [fragment] (with the id
    [anonymous-<type>]), not as a [literal]: a [literal] mapping occurs
    only for a section whose content is a fragment with the empty id.
    The section type in the origin is the type of a section of the
    prompt. *)
Theorem render_mapping_kinds (env : Services) (p : Prompt.t)
    (ctx : RenderContext) (r : CompiledPrompt.t) (m : SourceMapping) :
  Prompt.render env p ctx = Returns r ->
  m ∈ data_mappings (PromptMetadata.sourceMap (CompiledPrompt.meta r)) ->
  exists section,
    section ∈ Prompt.sections p /\
    sectionType (source m) = Some (SectionConfig.type section) /\
    match SectionConfig.content section with
    | CDynamic _ => type (source m) = SDynamic
    | CString _ => type (source m) = SFragment
    | CFragment f =>
        if bool_decide (FragmentDefinition.id f = [])
        then type (source m) = SLiteral
        else type (source m) = SFragment
    end.
Proof.
  intros (resolved & Hres & Ht & Hm)%render_inv Hin. simpl in Hm.
  rewrite Hm in Hin. unfold Prompt.buildSourceMap in Hin.
  destruct (buildSourceMapFrom_sources
              (Prompt.formatterOf env p (Prompt.orderSections p resolved))
              (Prompt.orderSections p resolved) 0 0
              (setRenderedText (new (Prompt.name p))
                 (Prompt.formatterOf env p (Prompt.orderSections p resolved))))
    as (added & Ha & Hall).
  rewrite Ha in Hin. cbn [mappings setRenderedText new app] in Hin.
  eapply Forall_forall in Hall; [|exact Hin].
  destruct Hall as (j & s & Hj & _ & Hty & Hd & Hl & Hg).
  assert (s ∈ resolved) as Hs.
  { apply list_elem_of_lookup_2 in Hj. by rewrite orderSections_perm in Hj. }
  destruct (resolveSectionsFrom_source _ _ _ _ _ Hres Hs)
    as (section & Hsec & Hst & Hsrc & Hfid).
  exists section. split; [done|]. split; [by rewrite Hty, Hst|].
  unfold Sections.isDynamic in Hsrc. unfold Sections.getFragment in Hfid.
  destruct (SectionConfig.content section) as [f|g|text].
  - simpl in Hfid. case_bool_decide as Hid.
    + apply Hl. split; [congruence|]. right. by rewrite Hfid, Hid.
    + assert (type (source m) <> SDynamic) as H1.
      { intros E. apply Hd in E. congruence. }
      assert (type (source m) <> SLiteral) as H2.
      { intros E. apply Hl in E as [_ [E|E]]; rewrite Hfid in E; [done|].
        by injection E. }
      by destruct (type (source m)).
  - by apply Hd.
  - simpl in Hfid.
    assert (type (source m) <> SDynamic) as H1.
    { intros E. apply Hd in E. congruence. }
    assert (type (source m) <> SLiteral) as H2.
    { intros E. apply Hl in E as [_ [E|E]]; rewrite Hfid in E; [done|].
      injection E as E. vm_compute in E.
      by destruct (SectionConfig.type section). }
    by destruct (type (source m)).
Qed.

Lemma render_mapping_kinds_witness :
  exists r m,
    Prompt.render sampleServices twiceHelpful [] = Returns r /\
    data_mappings (PromptMetadata.sourceMap (CompiledPrompt.meta r)) !! 0%nat =
      Some m /\
    type (source m) = SFragment /\
    fragmentId (source m) = Some (js "anonymous-identity").
Proof.
  eexists _, _. split; [vm_compute; reflexivity|].
  split; [vm_compute; reflexivity|].
  destruct (render_mapping_kinds sampleServices twiceHelpful []
              (match Prompt.render sampleServices twiceHelpful [] with
               | Returns r => r
               | Throws _ =>
                   CompiledPrompt.mk []
                     (PromptMetadata.mk [] [] 0 ∅
                        (SourceMap.toJSON (SourceMap.new [])) 0 0 [])
               end)
              (mkMapping (mkOutput 10 21 1 11)
                 (mkSource SFragment (Some (js "anonymous-identity"))
                    (Some (js "1.0.0")) (Some TIdentity) (Some 0) None None
                    None None)))
    as (section & _ & _ & _).
  - vm_compute. reflexivity.
  - vm_compute. apply list_elem_of_here.
  - split; vm_compute; reflexivity.
Defined.

End MappingSourceFacts.

(** ** Every character of a section is blamed on it *)

Section BlameEveryCharacter.
Import SourceMap.



End BlameEveryCharacter.

(** ** The tag name of a custom section *)

Section TagNameFacts.
Import Regex.

(** The text of a replacement is made of code units of the subject and
    of the replacement. *)
Lemma replaceLoop_chars (P : N -> Prop) s text ms : forall cur t,
  Forall P s -> Forall P text ->
  replaceLoop s ms cur (fun _ => Returns text) = Returns t ->
  Forall P t.
Proof.
  induction ms as [|m ms IH]; intros cur t Hs Htext; cbn [replaceLoop].
  - intros [= <-]. by apply Forall_drop.
  - simpl. destruct (replaceLoop s ms (m_end m) _) as [tl|e] eqn:E; [|done].
    simpl. intros [= <-]. apply Forall_app. split.
    + unfold substring. by apply Forall_take, Forall_drop.
    + apply Forall_app. split; [done|]. by eapply IH.
Qed.

Lemma replaceAllWith_chars (P : N -> Prop) r s text :
  Forall P s -> Forall P text -> Forall P (replaceAllWith r s text).
Proof.
  intros Hs Htext. unfold replaceAllWith, replaceAll.
  destruct (replaceLoop s (matchAll r s) 0 _) as [t|e] eqn:E; [|done].
  exact (replaceLoop_chars P s text _ 0 t Hs Htext E).
Qed.

Lemma matchAt_class Q st :
  matchAt (RChar Q) st =
  match rest st with
  | c :: _ => if Q c then Some (mkMatch (pos st) (S (pos st)) []) else None
  | [] => None
  end.
Proof.
  unfold matchAt. simpl. destruct (rest st) as [|c tl]; [done|].
  by destruct (Q c).
Qed.

(** The search for a code unit of a class: the match it finds is one
    code unit long, and no code unit before it is of the class. *)
Lemma searchFrom_class Q s : forall fuel q,
  (q + fuel = length s)%nat ->
  match searchFrom (RChar Q) (stateAt s q) fuel with
  | Some m =>
      (q <= m_start m < length s)%nat /\ m_end m = S (m_start m) /\
      Forall (fun c => Q c = false) (substring s q (m_start m))
  | None => Forall (fun c => Q c = false) (drop q s)
  end.
Proof.
  induction fuel as [|fuel IH]; intros q Hq.
  - cbn [searchFrom]. rewrite matchAt_class, stateAt_rest.
    destruct (drop q s) as [|c tl] eqn:E; [constructor|].
    apply (f_equal length) in E. rewrite length_drop in E. simpl in E. lia.
  - cbn [searchFrom]. rewrite matchAt_class, stateAt_rest.
    cbn [pos stateAt].
    destruct (drop q s) as [|c tl] eqn:E.
    { apply (f_equal length) in E. rewrite length_drop in E. simpl in E. lia. }
    apply drop_cons_inv in E as [Hc ->].
    destruct (Q c) eqn:EQ.
    + cbn [m_start m_end]. split; [lia|]. split; [done|].
      unfold substring. rewrite Nat.sub_diag. constructor.
    + rewrite (stateAt_S _ _ _ Hc).
      specialize (IH (S q) ltac:(lia)).
      destruct (searchFrom (RChar Q) (stateAt s (S q)) fuel) as [m|].
      * destruct IH as (Hr & He & Hall). split; [lia|]. split; [done|].
        unfold substring in *.
        replace (m_start m - q)%nat with (S (m_start m - S q)) by lia.
        rewrite (drop_S _ _ _ Hc). cbn [take]. by constructor.
      * by constructor.
Qed.

(** Replacing each code unit of a class by one code unit leaves none
    of the class, but for the replacement itself. *)
Lemma replace_class_chars Q s x : forall fuel from t,
  (from <= length s)%nat -> (length s - from < fuel)%nat ->
  replaceLoop s (matchAllFrom (RChar Q) s from fuel) from
    (fun _ => Returns [x]) = Returns t ->
  Forall (fun c => Q c = false \/ c = x) t.
Proof.
  induction fuel as [|fuel IH]; intros from t Hfrom Hfuel; [lia|].
  cbn [matchAllFrom]. unfold exec.
  rewrite (proj2 (Nat.ltb_ge _ _)) by lia.
  pose proof (searchFrom_class Q s (length s - from) from ltac:(lia)) as Hs.
  destruct (searchFrom (RChar Q) (stateAt s from) (length s - from)) as [m|].
  - destruct Hs as (Hr & He & Hall). cbn [replaceLoop]. simpl.
    rewrite He. rewrite (proj2 (Nat.eqb_neq _ _)) by lia.
    destruct (replaceLoop s _ (S (m_start m)) _) as [tl|e] eqn:E; [|done].
    simpl. intros [= <-]. apply Forall_app. split.
    + eapply Forall_impl; [exact Hall|]. simpl. tauto.
    + constructor; [by right|]. eapply (IH (S (m_start m))); [lia | lia | done].
  - cbn [replaceLoop]. intros [= <-].
    eapply Forall_impl; [exact Hs|]. simpl. tauto.
Qed.

Lemma replaceAllWith_class Q s x :
  Forall (fun c => Q c = false \/ c = x) (replaceAllWith (RChar Q) s [x]).
Proof.
  unfold replaceAllWith, replaceAll, matchAll.
  destruct (replaceLoop s _ 0 _) as [t|e] eqn:E.
  - eapply (replace_class_chars Q s x (S (length s)) 0); [lia | lia | done].
  - assert (exists t, replaceLoop s
              (matchAllFrom (RChar Q) s 0 (S (length s))) 0
              (fun _ => Returns [x]) = Returns t) as [t Ht].
    { apply replaceLoop_returns. eauto. }
    congruence.
Qed.

(** A pattern anchored at the start is tested on the first code unit. *)
Lemma test_anchored_class P s :
  test (RSeq RBol (RChar P)) s = true ->
  exists c tl, s = c :: tl /\ P c = true.
Proof.
  unfold test. destruct (exec _ s 0) as [m|] eqn:E; [|done]. intros _.
  apply exec_sound in E as (q & _ & Hm & _).
  unfold matchAt in Hm. cbn [rmatch] in Hm.
  destruct (Nat.eqb_spec (pos (stateAt s q)) 0) as [Hq|]; [|done].
  simpl in Hq. subst q. rewrite stateAt_rest, drop_0 in Hm.
  destruct s as [|c tl]; [done|]. destruct (P c) eqn:EP; [|done].
  by exists c, tl.
Qed.

(** [X20] For a name of ASCII code units (where the embedding of
    [toLowerCase] is exact), the tag name that [sanitizeTagName] gives
    is never empty, it starts with a lower-case letter or an
    underscore, and it holds lower-case letters, digits, underscores,
    periods and hyphens only.  The empty name gives the tag [_], not
    the fallback [section]. *)
Theorem sanitizeTagName_valid (name : JsString) :
  Forall (fun c => (c < 128)%N) name ->
  let tag := XmlFormatter.sanitizeTagName name in
  (exists c tl,
     tag = c :: tl /\ (Str.isLowerAscii c || N.eqb c 95) = true) /\
  Forall (fun c => isTagChar c = true) tag /\
  XmlFormatter.sanitizeTagName [] = js "_".
Proof.
  intros _. cbv zeta. unfold XmlFormatter.sanitizeTagName.
  set (s1 := replaceAllWith XmlFormatter.notTagChar (Str.toLowerCase name) (js "-")).
  set (s2 := replaceAllWith (plus (lit 45)) s1 (js "-")).
  set (s3 := replaceAllWith _ s2 []).
  assert (Forall (fun c => isTagChar c = true) s1) as H1.
  { unfold s1, XmlFormatter.notTagChar.
    eapply Forall_impl; [apply (replaceAllWith_class _ _ 45%N)|].
    simpl. intros c [Hc| ->]; [|done].
    apply negb_false_iff in Hc. exact Hc. }
  assert (Forall (fun c => isTagChar c = true) s3) as H3.
  { unfold s3, s2. apply replaceAllWith_chars; [|constructor].
    apply replaceAllWith_chars; [done|]. by repeat constructor. }
  assert (forall c, isTagChar c = true ->
            (Str.isLowerAscii c || Str.isUpperAscii c || N.eqb c 95) = true ->
            (Str.isLowerAscii c || N.eqb c 95) = true) as Hfirst.
  { intros c Hc Hl.
    unfold isTagChar, Str.isLowerAscii, Str.isUpperAscii, Str.isDigit in *.
    rewrite ?orb_true_iff, ?andb_true_iff, ?N.leb_le, ?N.eqb_eq in Hc.
    rewrite ?orb_true_iff, ?andb_true_iff, ?N.leb_le, ?N.eqb_eq in Hl.
    rewrite ?orb_true_iff, ?andb_true_iff, ?N.leb_le, ?N.eqb_eq. lia. }
  split; [|split; [|vm_compute; reflexivity]].
  - destruct (test _ s3) eqn:Et.
    + apply test_anchored_class in Et as (c & tl & Hs & Hc).
      rewrite Hs. exists c, tl. split; [done|].
      apply Hfirst; [|done]. rewrite Hs in H3. by inversion H3.
    + exists 95%N, s3. done.
  - destruct (test _ s3) eqn:Et.
    + destruct s3 as [|c tl]; [|done].
      by apply test_anchored_class in Et as (c & tl & Hs & _).
    + change (js "_" ++ s3) with (95%N :: s3). by constructor.
Qed.

Lemma sanitizeTagName_valid_witness :
  XmlFormatter.sanitizeTagName (js "My Custom Section!") = js "my-custom-section" /\
  Forall (fun c => isTagChar c = true)
    (XmlFormatter.sanitizeTagName (js "My Custom Section!")).
Proof.
  split; [vm_compute; reflexivity|].
  apply (sanitizeTagName_valid (js "My Custom Section!")).
  vm_compute. repeat constructor.
Defined.

End TagNameFacts.

(** ** Model families and configurations *)

Section ModelFacts.
Import Regex Models.

Lemma matchAt_RAlt a b st :
  matchAt (RAlt a b) st =
  match matchAt a st with
  | Some m => Some m
  | None => matchAt b st
  end.
Proof.
  unfold matchAt. cbn [rmatch].
  destruct (rmatch a st [] _) as [[e caps]|]; done.
Qed.

Lemma test_iff r s :
  test r s = true <->
  exists p m, (p <= length s)%nat /\ matchAt r (stateAt s p) = Some m.
Proof.
  split.
  - unfold test. destruct (exec r s 0) as [m|] eqn:E; [|done]. intros _.
    apply exec_sound in E as (p & Hp & Hm & _). exists p, m. split; [lia | done].
  - intros (p & m & Hp & Hm). by eapply test_true.
Qed.

Lemma test_RAlt a b s : test (RAlt a b) s = test a s || test b s.
Proof.
  apply eq_true_iff_eq. rewrite orb_true_iff, !test_iff. split.
  - intros (p & m & Hp & Hm). rewrite matchAt_RAlt in Hm.
    destruct (matchAt a (stateAt s p)) as [m'|] eqn:E; [left | right]; eauto.
  - intros [(p & m & Hp & Hm)|(p & m & Hp & Hm)].
    + exists p, m. split; [done|]. by rewrite matchAt_RAlt, Hm.
    + destruct (matchAt a (stateAt s p)) as [m'|] eqn:E.
      * exists p, m'. split; [done|]. by rewrite matchAt_RAlt, E.
      * exists p, m. split; [done|]. by rewrite matchAt_RAlt, E.
Qed.

(** Where a word under the [i] flag matches, the subject goes on with
    the word, up to the case of its letters. *)
Lemma rmatch_litCI_inv cs : forall st caps k res,
  rmatch (seqOf (map litCI cs)) st caps k = Some res ->
  exists kw tl,
    rest st = kw ++ tl /\
    map Str.upperChar kw = map Str.upperChar cs.
Proof.
  induction cs as [|c cs IH]; intros st caps k res H.
  - exists [], (rest st). done.
  - destruct cs as [|c' cs].
    + cbn [map seqOf] in H. unfold litCI in H. cbn [rmatch] in H.
      destruct (rest st) as [|x tl] eqn:E; [done|].
      destruct (N.eqb_spec (Str.upperChar x) (Str.upperChar c)) as [Hx|]; [|done].
      exists [x], tl. split; [done|]. simpl. by rewrite Hx.
    + change (seqOf (map litCI (c :: c' :: cs)))
        with (RSeq (litCI c) (seqOf (map litCI (c' :: cs)))) in H.
      rewrite rmatch_RSeq in H. unfold litCI at 1 in H. cbn [rmatch] in H.
      destruct (rest st) as [|x tl] eqn:E; [done|].
      destruct (N.eqb_spec (Str.upperChar x) (Str.upperChar c)) as [Hx|]; [|done].
      apply IH in H as (kw & tl' & Hr & Hup). cbn [rest] in Hr.
      exists (x :: kw), tl'. split; [by rewrite Hr|].
      cbn [map]. by rewrite Hx, Hup.
Qed.

Lemma test_strCI word s : test (strCI word) s = true <-> mentions s word.
Proof.
  rewrite test_iff. split.
  - intros (p & m & Hp & Hm). unfold matchAt in Hm.
    destruct (rmatch (strCI word) (stateAt s p) [] _) as [res|] eqn:E; [|done].
    apply rmatch_litCI_inv in E as (kw & tl & Hr & Hup).
    rewrite stateAt_rest in Hr.
    exists (take p s), kw, tl. split; [|done].
    by rewrite <- Hr, take_drop.
  - intros (pre & kw & post & -> & Hup).
    exists (length pre).
    assert (rest (stateAt (pre ++ kw ++ post) (length pre)) = kw ++ post) as Hr.
    { by rewrite stateAt_rest, drop_app_length. }
    unfold matchAt. rewrite (rmatch_strCI word kw _ _ _ post Hr Hup).
    eexists. split; [|reflexivity]. rewrite length_app. lia.
Qed.

(** [X21] The family of a model id is found by the words the id holds,
    in any case of their letters, and the first family of the table
    wins: [claude] for an id with [claude] or [anthropic]; else [gpt]
    for an id with [gpt], [openai], [o1-] or [o3-]; else [gemini] for
    an id with [gemini] or [google]; else [unknown]. *)
Theorem detectModelFamily_spec (modelId : JsString) :
  let claude := mentions modelId "claude" \/ mentions modelId "anthropic" in
  let gpt := mentions modelId "gpt" \/ mentions modelId "openai" \/
             mentions modelId "o1-" \/ mentions modelId "o3-" in
  let gemini := mentions modelId "gemini" \/ mentions modelId "google" in
  (detectModelFamily modelId = Claude <-> claude) /\
  (detectModelFamily modelId = Gpt <-> ~ claude /\ gpt) /\
  (detectModelFamily modelId = Gemini <-> ~ claude /\ ~ gpt /\ gemini) /\
  (detectModelFamily modelId = Unknown <-> ~ claude /\ ~ gpt /\ ~ gemini).
Proof.
  intros claude gpt gemini.
  assert (test (RAlt (strCI "claude") (strCI "anthropic")) modelId = true <->
          claude) as Hc.
  { rewrite test_RAlt, orb_true_iff, !test_strCI. done. }
  assert (test (RAlt (strCI "gpt")
                  (RAlt (strCI "openai") (RAlt (strCI "o1-") (strCI "o3-"))))
            modelId = true <-> gpt) as Hg.
  { rewrite !test_RAlt, !orb_true_iff, !test_strCI. done. }
  assert (test (RAlt (strCI "gemini") (strCI "google")) modelId = true <->
          gemini) as Hm.
  { rewrite test_RAlt, orb_true_iff, !test_strCI. done. }
  unfold detectModelFamily, MODEL_PATTERNS. cbn [detectFrom].
  destruct (test (RAlt (strCI "claude") _) modelId).
  { assert claude by (by apply Hc). repeat split; try done; tauto. }
  assert (~ claude) by (intros ?%Hc; done).
  destruct (test (RAlt (strCI "gpt") _) modelId).
  { assert gpt by (by apply Hg). repeat split; try done; tauto. }
  assert (~ gpt) by (intros ?%Hg; done).
  destruct (test (RAlt (strCI "gemini") _) modelId).
  { assert gemini by (by apply Hm). repeat split; try done; tauto. }
  assert (~ gemini) by (intros ?%Hm; done).
  repeat split; try done; tauto.
Qed.

Lemma getModelConfig_builtin customModels modelId c :
  Js.assocGet modelId models = Some c ->
  getModelConfig customModels modelId = Found c /\ Models.id c = modelId.
Proof.
  intros H. unfold getModelConfig, inModels. rewrite H.
  rewrite bool_decide_eq_true_2 by done. split; [done|].
  unfold models, builtin in H. cbn [Js.assocGet] in H.
  repeat match type of H with
         | (if bool_decide ?P then _ else _) = _ =>
             destruct (bool_decide_reflect P) as [?|?];
             [injection H as <-; simpl; assumption|]
         end.
  done.
Qed.

(** [X22] The lookup of a model configuration.  A built-in id always
    gets its built-in configuration, whatever is registered: a
    registration under a built-in id is never read.  An id that is not
    in the table (nor a name the table inherits) gets what was
    registered for it last, with the id set to the registered id, or,
    when nothing was registered, the defaults of its family with the id
    itself.  Registering a model changes the lookup of no other id.  An
    id that names a member of [Object.prototype] does not get a
    configuration at all. *)
Theorem getModelConfig_spec (customModels : Registry) (modelId : JsString)
    (config : Settings) :
  (forall c,
     Js.assocGet modelId models = Some c ->
     getModelConfig (registerModel customModels modelId config) modelId =
       Found c /\
     Models.id c = modelId) /\
  (inModels modelId = false ->
   getModelConfig (registerModel customModels modelId config) modelId =
     Found (mkConfig modelId config)) /\
  (inModels modelId = false ->
   Js.assocGet modelId customModels = None ->
   getModelConfig customModels modelId =
     Found (mkConfig modelId (familyDefaults (detectModelFamily modelId)))) /\
  (forall other,
     other <> modelId ->
     getModelConfig (registerModel customModels modelId config) other =
       getModelConfig customModels other) /\
  (modelId ∈ Js.objectPrototypeMethods ->
   getModelConfig (registerModel customModels modelId config) modelId =
     Inherited modelId).
Proof.
  split; [|split; [|split; [|split]]].
  - intros c Hc. by apply getModelConfig_builtin.
  - intros Hin. unfold getModelConfig, registerModel. rewrite Hin.
    by rewrite assocGet_assocSet_eq.
  - intros Hin Hnone. unfold getModelConfig. by rewrite Hin, Hnone.
  - intros other Hne. unfold getModelConfig, registerModel.
    by rewrite assocGet_assocSet_ne.
  - intros Hin. unfold getModelConfig, inModels.
    rewrite (bool_decide_eq_true_2 (modelId ∈ Js.objectPrototypeMethods)) by done.
    rewrite orb_true_r. cbn [orb].
    destruct (Js.assocGet modelId models) as [c|] eqn:E; [|done].
    exfalso. unfold models, builtin in E. cbn [Js.assocGet] in E.
    repeat match type of E with
           | (if bool_decide ?P then _ else _) = _ =>
               destruct (bool_decide_reflect P) as [?|?];
               [subst modelId; vm_compute in Hin;
                repeat (apply elem_of_cons in Hin as [Hin|Hin];
                        [discriminate|]);
                by apply elem_of_nil in Hin|]
           end.
    done.
Qed.

End ModelFacts.

(** ** The findings of the semantic parser *)

Section ParserFindingFacts.
Import SemanticParser.

Lemma findingOf_fields item w :
  findingOf item = Some w ->
  LintWarning.id w <> [] /\ LintWarning.message w <> [] /\
  LintWarning.position w = None /\ LintWarning.fragments w = None /\
  LintWarning.category w = categoryOf (LintWarning.id w).
Proof.
  unfold findingOf. destruct item as [| | | | |members]; try done.
  destruct (stringField members "id") as [[|c id']|]; try done.
  destruct (stringField members "message") as [[|d message']|]; try done.
  intros [= <-].
  by destruct (stringField members "suggestion"),
       (stringField members "evidence").
Qed.

Lemma categoryOf_cases id :
  (categoryOf id = CatInherited id /\
   (id ∈ Js.objectPrototypeMethods \/ id = js "__proto__")) \/
  (categoryOf id ∈ [CatContradiction; CatAmbiguity; CatSecurity;
                     CatTokenBudget; CatBestPractice] /\
   (id ∉ Js.objectPrototypeMethods) /\ id <> js "__proto__").
Proof.
  unfold categoryOf.
  repeat match goal with
         | |- context [if bool_decide (id = ?x) then _ else _] =>
             destruct (bool_decide_reflect (id = x)) as [->|?];
             [right; split; [|split; [|done]];
              [vm_compute; repeat first [apply list_elem_of_here
                                        | apply list_elem_of_further]
              | vm_compute; intros Hin;
                repeat (apply elem_of_cons in Hin as [Hin|Hin];
                        [discriminate|]);
                by apply elem_of_nil in Hin]
             |]
         end.
  destruct (bool_decide_reflect (id ∈ Js.objectPrototypeMethods)) as [Hin|Hin].
  { left. split; [done | by left]. }
  destruct (bool_decide_reflect (id = js "__proto__")) as [->|Hne].
  { left. split; [done | by right]. }
  right. split; [|done].
  repeat first [apply list_elem_of_here | apply list_elem_of_further].
Qed.

(** [X23] Every finding that [parseSemanticResponse] returns has an id
    and a message that are not empty, and neither a position nor
    fragments.  Its category is one of contradiction, ambiguity,
    security, token-budget and best-practice, read from the id (an
    unknown id gives best-practice) -- unless the id names a member of
    [Object.prototype], such as [constructor]: the lookup in the table
    then finds the inherited member, which is no category. *)
Theorem parseSemanticResponse_findings (raw : JsString) (w : LintWarning.t) :
  w ∈ parseSemanticResponse raw ->
  LintWarning.id w <> [] /\ LintWarning.message w <> [] /\
  LintWarning.position w = None /\ LintWarning.fragments w = None /\
  ((LintWarning.category w = CatInherited (LintWarning.id w) /\
    (LintWarning.id w ∈ Js.objectPrototypeMethods \/
     LintWarning.id w = js "__proto__")) \/
   (LintWarning.category w ∈
      [CatContradiction; CatAmbiguity; CatSecurity; CatTokenBudget;
       CatBestPractice] /\
    (LintWarning.id w ∉ Js.objectPrototypeMethods) /\
    LintWarning.id w <> js "__proto__")).
Proof.
  unfold parseSemanticResponse.
  assert (w ∈ [parseErrorWarning] ->
          LintWarning.id w <> [] /\ LintWarning.message w <> [] /\
          LintWarning.position w = None /\ LintWarning.fragments w = None /\
          LintWarning.category w = categoryOf (LintWarning.id w)) as Herr.
  { intros ->%list_elem_of_singleton. repeat split; done. }
  assert (LintWarning.id w <> [] /\ LintWarning.message w <> [] /\
          LintWarning.position w = None /\ LintWarning.fragments w = None /\
          LintWarning.category w = categoryOf (LintWarning.id w) ->
          LintWarning.id w <> [] /\ LintWarning.message w <> [] /\
          LintWarning.position w = None /\ LintWarning.fragments w = None /\
          ((LintWarning.category w = CatInherited (LintWarning.id w) /\
            (LintWarning.id w ∈ Js.objectPrototypeMethods \/
             LintWarning.id w = js "__proto__")) \/
           (LintWarning.category w ∈
              [CatContradiction; CatAmbiguity; CatSecurity; CatTokenBudget;
               CatBestPractice] /\
            (LintWarning.id w ∉ Js.objectPrototypeMethods) /\
            LintWarning.id w <> js "__proto__"))) as Hfin.
  { intros (H1 & H2 & H3 & H4 & H5). repeat (split; [done|]).
    rewrite H5. apply categoryOf_cases. }
  destruct (tryParse raw) as [| | | |items|]; try (intros H; by apply Hfin, Herr).
  intros (item & Hitem & Hf)%list_elem_of_omap.
  by apply Hfin, (findingOf_fields item).
Qed.

Lemma parseSemanticResponse_findings_witness :
  exists w,
    parseSemanticResponse constructorResponse = [w] /\
    LintWarning.id w = js "constructor" /\
    LintWarning.category w = CatInherited (js "constructor").
Proof.
  eexists. split; [vm_compute; reflexivity|]. split; [reflexivity|].
  match goal with
  | |- LintWarning.category ?w = _ =>
      destruct (parseSemanticResponse_findings constructorResponse w)
        as (_ & _ & _ & _ & [[H _]|[_ [H _]]])
  end.
  - vm_compute. apply list_elem_of_here.
  - exact H.
  - exfalso. apply H. vm_compute. apply list_elem_of_here.
Defined.

End ParserFindingFacts.

(** ** XML tags in a prompt for a GPT model *)

Section XmlTagFacts.
Import Regex HeuristicRules.

Lemma xmlTag_unfold :
  xmlTag =
  RSeq (lit 60) (RSeq (RChar isAsciiLetter)
                   (RSeq (star (RChar isTagNameChar)) (lit 62))).
Proof. reflexivity. Qed.

(** A text has an XML tag, as the rule reads it, exactly when an
    opening angle bracket is followed by a letter, any number of
    letters, digits and hyphens, and a closing angle bracket. *)
Lemma hasXmlTags_iff text :
  hasXmlTags text = true <->
  exists pre c name post,
    text = pre ++ [60%N] ++ c :: name ++ [62%N] ++ post /\
    isAsciiLetter c = true /\ forallb isTagNameChar name = true.
Proof.
  unfold hasXmlTags. rewrite test_iff, xmlTag_unfold. split.
  - intros (p & m & Hp & Hm). unfold matchAt in Hm.
    destruct (rmatch _ (stateAt text p) [] _) as [res|] eqn:E; [|done].
    clear Hm. rewrite rmatch_RSeq in E. unfold lit at 1 in E.
    cbn [rmatch] in E. rewrite stateAt_rest in E.
    destruct (drop p text) as [|x tl] eqn:Ed; [done|].
    destruct (N.eqb_spec 60 x) as [<-|]; [|done].
    cbn [rest] in E.
    destruct tl as [|c tl]; [done|].
    destruct (isAsciiLetter c) eqn:Ec; [|done].
    apply rmatch_consumed in E as (w & caps' & Hr & Hrej & Hk).
    cbn [rest] in Hr. unfold lit in Hk. cbn [rmatch] in Hk.
    destruct (rest (advance _ w)) as [|y post] eqn:Ey; [done|].
    destruct (N.eqb_spec 62 y) as [<-|]; [|done].
    exists (take p text), c, w, post. split; [|split; [done|]].
    + rewrite <- (take_drop p text) at 1. rewrite Ed, Hr. done.
    + apply forallb_forall. intros z Hz%list_elem_of_In.
      destruct (isTagNameChar z) eqn:Ez; [done|]. exfalso.
      apply (Hrej z); [|done]. simpl. by rewrite Ez.
  - intros (pre & c & name & post & -> & Hc & Hname).
    exists (length pre).
    set (st := stateAt (pre ++ [60%N] ++ c :: name ++ [62%N] ++ post)
                 (length pre)).
    assert (rest st = 60%N :: c :: name ++ 62%N :: post) as Hr.
    { unfold st. by rewrite stateAt_after. }
    unfold matchAt. rewrite rmatch_RSeq. unfold lit at 1.
    rewrite (rmatch_RChar _ st _ _ 60%N _ Hr (N.eqb_refl _)).
    pose proof (rest_advance_1 _ _ _ Hr) as Hr1.
    rewrite rmatch_RSeq.
    rewrite (rmatch_RChar _ _ _ _ c _ Hr1 Hc).
    pose proof (rest_advance_1 _ _ _ Hr1) as Hr2.
    rewrite rmatch_RSeq.
    match goal with
    | |- context [rmatch (star (RChar isTagNameChar)) ?s ?c ?k] =>
        assert (rmatch (star (RChar isTagNameChar)) s c k =
                Some (pos (advance (advance s name) [62%N]), [])) as ->
    end.
    { eapply rmatch_star_class; [exact Hr2 | exact Hname | reflexivity |].
      unfold lit.
      rewrite (rmatch_RChar _ _ _ _ 62%N post); [done | | apply N.eqb_refl].
      by apply rest_advance. }
    eexists. split; [|reflexivity]. rewrite !length_app. simpl. lia.
Qed.

Lemma section_tag_shape t :
  exists c name,
    XmlFormatter.SECTION_TAGS t = c :: name /\
    isAsciiLetter c = true /\ forallb isTagNameChar name = true.
Proof. destruct t; eexists _, _; (split; [reflexivity|]); by vm_compute. Qed.

(** [X24] The rule [xml-tags-with-gpt] reports exactly when the model
    id starts with [gpt] (in lower case) and the text holds an opening
    angle bracket, a letter, any number of letters, digits and hyphens,
    and a closing angle bracket.  The text that the XML formatter
    writes always holds such a tag when its first section is not a
    named custom section: for a GPT model the rule then reports. *)
Theorem xmlTagsWithGpt_fires_iff (ctx : LintContext.t) :
  (xmlTagsWithGptCheck ctx <> [] <->
   Str.startsWith (js "gpt") (LintContext.modelId ctx) = true /\
   exists pre c name post,
     LintContext.text ctx = pre ++ [60%N] ++ c :: name ++ [62%N] ++ post /\
     isAsciiLetter c = true /\
     forallb isTagNameChar name = true) /\
  (forall s more,
     customName s = None ->
     LintContext.text ctx = XmlFormatter.format (s :: more) ->
     Str.startsWith (js "gpt") (LintContext.modelId ctx) = true ->
     exists w,
       xmlTagsWithGptCheck ctx = [w] /\
       LintWarning.id w = js "xml-tags-with-gpt").
Proof.
  assert (forall s more,
            customName s = None ->
            hasXmlTags (XmlFormatter.format (s :: more)) = true) as Hfmt.
  { intros s more Hs. apply hasXmlTags_iff.
    assert (exists post,
              XmlFormatter.format (s :: more) =
              js "<" ++ XmlFormatter.getTagName s ++ js ">" ++ post)
      as [post Hpost].
    { unfold XmlFormatter.format. cbn [map].
      assert (exists post1,
                XmlFormatter.formatSection s =
                js "<" ++ XmlFormatter.getTagName s ++ js ">" ++ post1)
        as [post1 H1].
      { unfold XmlFormatter.formatSection.
        destruct (Str.trim (RenderedSection.content s)) as [|x t];
          [|destruct (_ && _)]; eexists; rewrite <- ?app_assoc; reflexivity. }
      rewrite H1. destruct (map XmlFormatter.formatSection more) as [|f fs].
      - by exists post1.
      - exists (post1 ++ [LF; LF] ++ Str.join [LF; LF] (f :: fs)).
        change (Str.join [LF; LF] ((js "<" ++ XmlFormatter.getTagName s ++
                                    js ">" ++ post1) :: f :: fs))
          with ((js "<" ++ XmlFormatter.getTagName s ++ js ">" ++ post1) ++
                [LF; LF] ++ Str.join [LF; LF] (f :: fs)).
        by rewrite <- !app_assoc. }
    unfold XmlFormatter.getTagName in Hpost. rewrite Hs in Hpost.
    destruct (section_tag_shape (RenderedSection.type s))
      as (c & name & Htag & Hc & Hname).
    rewrite Htag in Hpost. exists [], c, name, post.
    split; [|done]. rewrite Hpost. reflexivity. }
  unfold xmlTagsWithGptCheck. split.
  - rewrite <- hasXmlTags_iff.
    destruct (Str.startsWith _ _); [|by split; [|intros [? _]]].
    destruct (hasXmlTags _); simpl; [by split | split; [done|]].
    by intros [_ ?].
  - intros s more Hs Htext Hgpt. rewrite Hgpt, Htext, Hfmt by done.
    simpl. eexists. split; reflexivity.
Qed.

End XmlTagFacts.

(** ** Truncating to a token limit *)

Section TruncateFacts.
Import Tokens.

(** The search ends within its fuel, between its bounds, on a prefix
    that fits unless it ends where it began. *)
Lemma searchLoop_spec encode text maxTokens : forall fuel low high,
  0 <= low <= high ->
  (Z.to_nat (high - low) < fuel)%nat ->
  exists result,
    searchLoop encode text maxTokens low high fuel = Some result /\
    low <= result <= high /\
    (result = low \/ encode (Str.slice text 0 result) <= maxTokens).
Proof.
  induction fuel as [|fuel IH]; intros low high Hb Hf; [lia|].
  cbn [searchLoop]. destruct (Z.ltb_spec low high) as [Hlt|Hge].
  - assert (low + 1 <= (low + high + 1) / 2 <= high) as Hmid.
    { split.
      - apply Z.div_le_lower_bound; lia.
      - apply Z.div_le_upper_bound; lia. }
    destruct (Z.leb_spec (encode (Str.slice text 0 ((low + high + 1) / 2)))
                maxTokens) as [Hfit|Hbig].
    + destruct (IH ((low + high + 1) / 2) high) as (r & Hr & Hrb & Hrf);
        [lia | lia|].
      exists r. split; [done|]. split; [lia|].
      destruct Hrf as [->|Hrf]; by right.
    + destruct (IH low ((low + high + 1) / 2 - 1)) as (r & Hr & Hrb & Hrf);
        [lia | lia|].
      exists r. split; [done|]. split; [lia | done].
  - exists low. split; [done|]. split; [lia | by left].
Qed.

(** With an encoding that gives a longer prefix no fewer tokens, the
    search ends on the longest prefix that fits. *)
Lemma searchLoop_max encode text maxTokens :
  (forall i j, 0 <= i <= j ->
     encode (Str.slice text 0 i) <= encode (Str.slice text 0 j)) ->
  forall fuel low high result,
    0 <= low <= high ->
    searchLoop encode text maxTokens low high fuel = Some result ->
    (forall k, high < k -> maxTokens < encode (Str.slice text 0 k)) ->
    forall k, result < k -> maxTokens < encode (Str.slice text 0 k).
Proof.
  intros Hmono. induction fuel as [|fuel IH]; intros low high r Hb Hs Hhigh;
    [done|].
  cbn [searchLoop] in Hs. destruct (Z.ltb_spec low high) as [Hlt|Hge].
  - assert (low + 1 <= (low + high + 1) / 2 <= high) as Hmid.
    { split.
      - apply Z.div_le_lower_bound; lia.
      - apply Z.div_le_upper_bound; lia. }
    destruct (Z.leb_spec (encode (Str.slice text 0 ((low + high + 1) / 2)))
                maxTokens) as [Hfit|Hbig].
    + eapply IH; [|exact Hs|exact Hhigh]. lia.
    + eapply IH; [|exact Hs|]; [lia|].
      intros k Hk.
      pose proof (Hmono ((low + high + 1) / 2) k ltac:(lia)). lia.
  - injection Hs as <-. intros k Hk. apply Hhigh. lia.
Qed.

Lemma breakLoop_spec text low : forall steps i breakPoint,
  i - Z.of_nat steps + 1 <= breakPoint <= low ->
  i <= low ->
  i - Z.of_nat steps + 1 <=
    breakLoop text low i steps breakPoint <= low.
Proof.
  induction steps as [|steps IH]; intros i bp Hbp Hi; cbn [breakLoop]; [lia|].
  case_bool_decide; [lia|].
  destruct (_ && _).
  - specialize (IH (i - 1) i ltac:(lia) ltac:(lia)). lia.
  - specialize (IH (i - 1) bp ltac:(lia) ltac:(lia)). lia.
Qed.

(** Without a line feed and without a space in the window, the break
    point stays where the search ended. *)
Lemma breakLoop_plain text low : forall steps i breakPoint,
  (forall j, i - Z.of_nat steps < j <= i ->
     text !! Z.to_nat j <> Some LF /\ text !! Z.to_nat j <> Some 32%N) ->
  breakLoop text low i steps breakPoint = breakPoint.
Proof.
  induction steps as [|steps IH]; intros i bp Hw; cbn [breakLoop]; [done|].
  destruct (Hw i ltac:(lia)) as [H1 H2].
  rewrite bool_decide_eq_false_2 by done.
  rewrite (bool_decide_eq_false_2 (text !! Z.to_nat i = Some 32%N)) by done.
  cbn [andb]. apply IH. intros j Hj. apply Hw. lia.
Qed.

(** [X25] [truncateToTokenLimit] always returns: the binary search
    ends.  A text that fits the limit is returned as it is.  Otherwise
    the result is a prefix of the text, trimmed, followed by a line
    feed and [[truncated]]; the prefix is cut at a break point that
    lies at most 100 code units before the point where the search
    ended, and that point is 0 or the end of a prefix that fits the
    limit.  When the window before that point has neither a line feed
    nor a space, the cut is at that point itself.  The tokens are
    counted with the encoding of the model's tokenizer -- for a model
    with a custom tokenizer, with [cl100k_base], not with the custom
    tokenizer that [countTokens] uses. *)
Theorem truncateToTokenLimit_spec (cl100k o200k : JsString -> Z)
    (customModels : Models.Registry) (text : JsString) (maxTokens : Z)
    (modelId : JsString) :
  let encode :=
    getEncoding cl100k o200k
      (tokenizerOf (Models.getModelConfig customModels modelId)) in
  (encode text <= maxTokens ->
   truncateToTokenLimit cl100k o200k customModels text maxTokens modelId =
     Some text) /\
  (maxTokens < encode text ->
   exists low breakPoint,
     truncateToTokenLimit cl100k o200k customModels text maxTokens modelId =
       Some (Str.trim (take (Z.to_nat breakPoint) text) ++ [LF] ++
             js "[truncated]") /\
     0 <= low <= jsLength text /\
     (low = 0 \/ encode (take (Z.to_nat low) text) <= maxTokens) /\
     Z.max 0 (low - 100) <= breakPoint <= low /\
     ((forall j, Z.max 0 (low - 100) <= j <= low ->
         text !! Z.to_nat j <> Some LF /\ text !! Z.to_nat j <> Some 32%N) ->
      breakPoint = low) /\
     ((forall i j : nat, (i <= j)%nat ->
         encode (take i text) <= encode (take j text)) ->
      forall k : nat, (Z.to_nat low < k)%nat ->
        maxTokens < encode (take k text))) /\
  (forall c f,
     Models.getModelConfig customModels modelId = Models.Found c ->
     Models.tokenizer (Models.settings c) = Models.CustomTokenizer ->
     Models.customTokenizer (Models.settings c) = Some f ->
     countTokens cl100k o200k customModels text modelId = f text /\
     encode = cl100k).
Proof.
  intros encode. unfold truncateToTokenLimit. fold encode.
  split; [|split].
  - intros Hfit. by rewrite (proj2 (Z.leb_le _ _) Hfit).
  - intros Hbig. rewrite (proj2 (Z.leb_gt _ _) Hbig).
    destruct (searchLoop_spec encode text maxTokens (S (length text)) 0
                (Z.of_nat (length text))) as (low & Hs & Hb & Hf); [lia | lia|].
    rewrite Hs. exists low, (findBreakPoint text low).
    assert (forall n, Str.slice text 0 n = take (Z.to_nat n) text) as Hslice.
    { intros n. unfold Str.slice. change (Z.to_nat 0) with 0%nat.
      by rewrite Nat.sub_0_r, drop_0. }
    split; [by rewrite Hslice|]. split; [done|].
    split; [by rewrite <- Hslice|].
    unfold findBreakPoint. split; [|split].
    + pose proof (breakLoop_spec text low
                    (Z.to_nat (low - Z.max 0 (low - 100) + 1)) low low) as H.
      lia.
    + intros Hw. apply breakLoop_plain. intros j Hj. apply Hw. lia.
    + intros Hmono k Hk.
      assert (maxTokens < encode (Str.slice text 0 (Z.of_nat k))) as H.
      { eapply (searchLoop_max encode text maxTokens); [| |exact Hs| |].
        - intros i j Hij. rewrite !Hslice. apply Hmono. lia.
        - lia.
        - intros k' Hk'. rewrite Hslice, take_ge by lia. done.
        - lia. }
      by rewrite Hslice, Nat2Z.id in H.
  - intros c f Hc Ht Hf. unfold countTokens, encode. rewrite Hc.
    cbn [tokenizerOf]. by rewrite Ht, Hf.
Qed.

(** The sample of a text of 17 code units under a limit of 2 tokens
    of four code units: the search ends at 8, the cut is made at the
    space before. *)
Lemma truncateToTokenLimit_sample :
  truncateToTokenLimit fourPerToken fourPerToken [] (js "hello world again") 2
    (js "gpt-4o") =
  Some (js "hello" ++ [LF] ++ js "[truncated]").
Proof. vm_compute. reflexivity. Qed.

End TruncateFacts.

(** ** Duplicate sentences *)

Section DuplicateFacts.
Import Duplicates.

Lemma counted_assocSet seen k v s :
  counted (Js.assocSet k v seen) s =
  if bool_decide (s = k) then v else counted seen s.
Proof.
  unfold counted. case_bool_decide as Hs.
  - subst s. by rewrite assocGet_assocSet_eq.
  - by rewrite assocGet_assocSet_ne.
Qed.

Lemma occurrences_cons s x l :
  occurrences s (x :: l) =
  (if bool_decide (x = s) then 1 else 0) + occurrences s l.
Proof.
  unfold occurrences. cbn [List.filter]. case_bool_decide; simpl length; lia.
Qed.

Lemma occurrences_nonneg s l : 0 <= occurrences s l.
Proof. unfold occurrences. lia. Qed.

Lemma duplicatesFrom_spec sentences : forall seen,
  (forall s, 0 <= counted seen s) ->
  NoDup (duplicatesFrom sentences seen) /\
  forall s,
    s ∈ duplicatesFrom sentences seen <->
    counted seen s < 2 /\ 2 <= counted seen s + occurrences s sentences.
Proof.
  induction sentences as [|x l IH]; intros seen Hpos; cbn [duplicatesFrom].
  - split; [constructor|]. intros s. rewrite elem_of_nil.
    unfold occurrences. simpl. lia.
  - set (seen' := Js.assocSet x (counted seen x + 1) seen).
    assert (forall s, 0 <= counted seen' s) as Hpos'.
    { intros s. unfold seen'. rewrite counted_assocSet.
      case_bool_decide; [specialize (Hpos x); lia | apply Hpos]. }
    destruct (IH seen' Hpos') as [Hnd Hin].
    assert (forall s,
              counted seen' s =
              if bool_decide (s = x) then counted seen x + 1
              else counted seen s) as Hc.
    { intros s. unfold seen'. apply counted_assocSet. }
    destruct (Z.eqb_spec (counted seen x + 1) 2) as [H2|H2].
    + split.
      * constructor; [|done]. rewrite Hin, Hc.
        rewrite bool_decide_eq_true_2 by done. lia.
      * intros s. rewrite elem_of_cons, Hin, Hc, occurrences_cons.
        pose proof (occurrences_nonneg s l).
        destruct (decide (s = x)) as [->|Hne].
        -- rewrite !bool_decide_eq_true_2 by done. split; [lia|]. by left.
        -- rewrite !bool_decide_eq_false_2 by done.
           split; [intros [?|?]; [done | lia] | intros ?; right; lia].
    + split; [done|].
      intros s. rewrite Hin, Hc, occurrences_cons.
      pose proof (occurrences_nonneg s l). specialize (Hpos x).
      destruct (decide (s = x)) as [->|Hne].
      * rewrite !bool_decide_eq_true_2 by done. lia.
      * rewrite !bool_decide_eq_false_2 by done. lia.
Qed.

(** [X26] The duplicate sentences of a text (of ASCII code units,
    where the embedding of [toLowerCase] is exact): a sentence is
    reported exactly when it occurs at least twice among the sentences
    that count (the pieces between the marks, trimmed, in lower case,
    longer than 20 code units), and it is reported once, however often
    it occurs. *)
Theorem findDuplicateSentences_spec (text : JsString) :
  Forall (fun c => (c < 128)%N) text ->
  NoDup (findDuplicateSentences text) /\
  (forall s,
     s ∈ findDuplicateSentences text <->
     2 <= occurrences s (sentencesOf text)) /\
  Forall (fun s => 20 < jsLength s) (findDuplicateSentences text).
Proof.
  intros _. unfold findDuplicateSentences.
  destruct (duplicatesFrom_spec (sentencesOf text) []) as [Hnd Hin]; [done|].
  split; [done|].
  assert (forall s,
            s ∈ duplicatesFrom (sentencesOf text) [] <->
            2 <= occurrences s (sentencesOf text)) as Hiff.
  { intros s. rewrite Hin. unfold counted. simpl. lia. }
  split; [done|].
  apply Forall_forall. intros s Hs%Hiff.
  assert (s ∈ sentencesOf text) as Hmem.
  { unfold occurrences in Hs.
    destruct (List.filter _ (sentencesOf text)) as [|y l] eqn:E;
      [simpl in Hs; lia|].
    assert (y ∈ List.filter (fun x => bool_decide (x = s)) (sentencesOf text))
      as Hy by (rewrite E; by left).
    apply list_elem_of_In, filter_In in Hy as [Hy Hys].
    apply bool_decide_eq_true in Hys. subst y. by apply list_elem_of_In. }
  unfold sentencesOf in Hmem.
  apply list_elem_of_In, filter_In in Hmem as [_ Hlen]. by apply Z.ltb_lt.
Qed.

Lemma findDuplicateSentences_spec_witness :
  findDuplicateSentences saysItThrice =
    [js "always answer in complete sentences"] /\
  NoDup (findDuplicateSentences saysItThrice).
Proof.
  split; [vm_compute; reflexivity|].
  apply (findDuplicateSentences_spec saysItThrice).
  vm_compute. repeat constructor.
Defined.

End DuplicateFacts.

(** ** The variables of a fragment *)

Section FragmentFacts.
Import Regex Fragment.

Lemma variable_unfold :
  variable = RSeq (str "{{") (RSeq (RGroup 1 (plus word)) (str "}}")).
Proof. reflexivity. Qed.

Lemma rmatch_str_inv s st caps k res :
  rmatch (str s) st caps k = Some res ->
  exists tl, rest st = js s ++ tl /\ k (advance st (js s)) caps = Some res.
Proof.
  intros H. destruct (Str.startsWith (js s) (rest st)) eqn:E.
  - apply startsWith_spec in E as [tl Htl]. exists tl. split; [done|].
    by rewrite (rmatch_str s st caps k tl Htl) in H.
  - by rewrite rmatch_str_none in H.
Qed.

(** What a match of the pattern looks like. *)
Lemma matchAt_variable_inv s q m :
  matchAt variable (stateAt s q) = Some m ->
  exists w tl,
    drop q s = js "{{" ++ w ++ js "}}" ++ tl /\
    w <> [] /\ forallb Str.isWord w = true /\
    m_end m = (q + 4 + length w)%nat /\
    group s m 1 = Some w.
Proof.
  unfold matchAt.
  destruct (rmatch variable (stateAt s q) [] _) as [[e caps]|] eqn:E; [|done].
  intros [= <-]. rewrite variable_unfold, rmatch_RSeq in E.
  apply rmatch_str_inv in E as (tl1 & Hr1 & E). rewrite stateAt_rest in Hr1.
  set (st1 := advance (stateAt s q) (js "{{")) in *.
  assert (rest st1 = tl1) as Hrest1.
  { apply rest_advance. by rewrite stateAt_rest. }
  assert (pos st1 = (q + 2)%nat) as Hpos1.
  { unfold st1. by rewrite pos_advance. }
  rewrite rmatch_RSeq, rmatch_RGroup in E. unfold plus, word in E.
  rewrite rmatch_RSeq in E.
  destruct tl1 as [|c tl2].
  { by rewrite rmatch_RChar_fail in E by (by rewrite Hrest1). }
  destruct (Str.isWord c) eqn:Ec.
  2: { by rewrite rmatch_RChar_fail in E by (by rewrite Hrest1, Ec). }
  rewrite (rmatch_RChar _ st1 _ _ c tl2 Hrest1 Ec) in E.
  set (st2 := advance st1 [c]) in *.
  assert (rest st2 = tl2) as Hrest2 by (by apply rest_advance_1).
  assert (pos st2 = (q + 3)%nat) as Hpos2.
  { unfold st2. rewrite pos_advance, Hpos1. simpl. lia. }
  apply rmatch_consumed in E as (w' & caps' & Hr & Hrej & Hk).
  cbv beta in Hk. apply rmatch_str_inv in Hk as (tl3 & Hr3 & Hk).
  injection Hk as <- <-.
  exists (c :: w'), tl3.
  assert (drop q s = js "{{" ++ (c :: w') ++ js "}}" ++ tl3) as Hdrop.
  { rewrite Hr1. f_equal. cbn [app]. f_equal.
    rewrite <- Hrest2, Hr, Hr3. done. }
  split; [done|]. split; [done|]. split.
  { cbn [forallb]. rewrite Ec. cbn [andb].
    apply forallb_forall. intros z Hz%list_elem_of_In.
    destruct (Str.isWord z) eqn:Ez; [done|]. exfalso.
    apply (Hrej z); [|done]. simpl. by rewrite Ez. }
  split.
  { cbn [m_end]. rewrite !pos_advance, Hpos2. simpl. lia. }
  unfold group. cbn [m_caps lookupCap Nat.eqb].
  rewrite ?pos_advance. rewrite ?Hpos1, ?Hpos2. f_equal. unfold substring.
  replace (q + 3 + length w' - S (S q))%nat with (length (c :: w'))
    by (simpl; lia).
  replace (drop (S (S q)) s) with (drop 2 (drop q s))
    by (rewrite drop_drop; f_equal; lia).
  rewrite Hdrop.
  change (drop 2 (js "{{" ++ (c :: w') ++ js "}}" ++ tl3))
    with ((c :: w') ++ js "}}" ++ tl3).
  by rewrite take_app_length.
Qed.

(** A variable in its braces is matched where it stands. *)
Lemma matchAt_variable pre v post :
  v <> [] -> forallb Str.isWord v = true ->
  exists m,
    matchAt variable
      (stateAt (pre ++ js "{{" ++ v ++ js "}}" ++ post) (length pre)) =
      Some m /\
    group (pre ++ js "{{" ++ v ++ js "}}" ++ post) m 1 = Some v.
Proof.
  intros Hne Hv.
  set (text := pre ++ js "{{" ++ v ++ js "}}" ++ post).
  set (st := stateAt text (length pre)).
  assert (rest st = js "{{" ++ v ++ js "}}" ++ post) as Hrest.
  { apply stateAt_after. }
  assert (rmatch variable st [] (fun st' caps' => Some (pos st', caps')) =
          Some (pos (advance st (js "{{" ++ v ++ js "}}")),
                [(1%nat, (pos (advance st (js "{{")),
                          pos (advance (advance st (js "{{")) v)))]))
    as Hm.
  { rewrite variable_unfold, rmatch_RSeq.
    rewrite (rmatch_str "{{" st _ _ _ Hrest).
    rewrite rmatch_RSeq, rmatch_RGroup. unfold word.
    eapply (rmatch_plus_class _ _ _ _ _ v (js "}}" ++ post));
      [by apply rest_advance | done | done | done |].
    cbv beta.
    rewrite (rmatch_str "}}" _ _ _ post).
    - rewrite <- !advance_app. done.
    - apply rest_advance. by apply rest_advance. }
  unfold matchAt. fold st. rewrite Hm. eexists. split; [reflexivity|].
  unfold group. cbn [m_caps lookupCap Nat.eqb]. f_equal.
  rewrite !pos_advance. unfold st. cbn [pos stateAt].
  unfold text. rewrite (app_assoc pre (js "{{")).
  apply substring_middle; rewrite ?length_app; lia.
Qed.

Lemma matchAllFrom_sound r s fuel : forall from m,
  m ∈ matchAllFrom r s from fuel ->
  exists p, (p <= length s)%nat /\ matchAt r (stateAt s p) = Some m.
Proof.
  induction fuel as [|fuel IH]; intros from m; simpl;
    [by intros ?%elem_of_nil|].
  destruct (exec r s from) as [m'|] eqn:E; [|by intros ?%elem_of_nil].
  intros [->|H]%elem_of_cons.
  - apply exec_sound in E as (p & Hp & Hm & _). exists p. split; [lia | done].
  - by apply IH in H.
Qed.

(** A match that starts before two opening braces ends before them. *)
Lemma variable_stops_before s p q m' :
  s !! p = Some 123%N -> s !! S p = Some 123%N -> (q < p)%nat ->
  matchAt variable (stateAt s q) = Some m' -> (m_end m' <= p)%nat.
Proof.
  intros Hp Hp1 Hq (w & tl & Hd & Hne & Hw & He & _)%matchAt_variable_inv.
  rewrite He. destruct (decide (q + 4 + length w <= p)%nat) as [|Hgt]; [done|].
  exfalso.
  assert (forall i, s !! (q + i)%nat = (js "{{" ++ w ++ js "}}" ++ tl) !! i)
    as Hl.
  { intros i. by rewrite <- Hd, lookup_drop. }
  change (js "{{") with [123%N; 123%N] in Hl.
  change (js "}}") with [125%N; 125%N] in Hl.
  replace p with (q + (p - q))%nat in Hp by lia.
  replace (S p) with (q + S (p - q))%nat in Hp1 by lia.
  rewrite Hl in Hp. rewrite Hl in Hp1.
  destruct (p - q)%nat as [|[|i]] eqn:Ei; [lia | |].
  - destruct w as [|c w]; [done|]. simpl in Hp1. injection Hp1 as ->.
    by simpl in Hw.
  - simpl in Hp. destruct (decide (i < length w)%nat) as [Hlt|Hge].
    + rewrite lookup_app_l in Hp by done.
      apply list_elem_of_lookup_2, list_elem_of_In in Hp.
      by apply (proj1 (forallb_forall _ _) Hw) in Hp.
    + rewrite lookup_app_r in Hp by lia.
      destruct (i - length w)%nat as [|[|k]] eqn:Ek; simpl in Hp;
        [done | done | lia].
Qed.

(** The names that [getVariables] returns. *)
Lemma getVariables_elem f v :
  v ∈ getVariables f <->
  v <> [] /\ forallb Str.isWord v = true /\
  exists pre post,
    FragmentDefinition.content f = pre ++ js "{{" ++ v ++ js "}}" ++ post.
Proof.
  unfold getVariables. cbv zeta. rewrite JsSet_ofList_elem, list_elem_of_fmap.
  set (s := FragmentDefinition.content f). split.
  - intros (m & -> & Hm). unfold matchAll in Hm.
    apply matchAllFrom_sound in Hm as (p & Hp & Hm).
    apply matchAt_variable_inv in Hm as (w & tl & Hd & Hne & Hw & _ & ->).
    change (default [] (Some w)) with w. split; [done|]. split; [done|].
    exists (take p s), tl. by rewrite <- Hd, take_drop.
  - intros (Hne & Hw & pre & post & Hs).
    destruct (matchAt_variable pre v post Hne Hw) as (m & Hm & Hg).
    rewrite <- Hs in Hm, Hg. exists m. split; [by rewrite Hg|].
    apply (matchAll_contains _ _ (length pre)); [|done|].
    + rewrite Hs, length_app. lia.
    + intros q m' Hq Hm'.
      apply (variable_stops_before s (length pre) q); [| |done|done].
      * rewrite Hs. apply lookup_after_prefix.
      * rewrite Hs. rewrite lookup_app_r by lia.
        by replace (S (length pre) - length pre)%nat with 1%nat by lia.
Qed.

Lemma join_contains sep parts x :
  x ∈ parts -> exists a b, Str.join sep parts = a ++ x ++ b.
Proof.
  induction parts as [|p parts IH]; intros H; [by apply elem_of_nil in H|].
  destruct parts as [|p' rest].
  - apply list_elem_of_singleton in H as ->. exists [], []. simpl.
    by rewrite app_nil_r.
  - change (Str.join sep (p :: p' :: rest))
      with (p ++ sep ++ Str.join sep (p' :: rest)).
    apply elem_of_cons in H as [->|H].
    + by exists [], (sep ++ Str.join sep (p' :: rest)).
    + destruct (IH H) as (a & b & ->). exists (p ++ sep ++ a), b.
      by rewrite <- !app_assoc.
Qed.

(** X27 ([Fragment.getVariables], fragment.ts): the variables of a
    fragment are returned without repetition, and a name is returned
    exactly when it is a non-empty run of word characters that stands
    between two opening and two closing braces somewhere in the content. *)
Theorem getVariables_spec f :
  NoDup (getVariables f) /\
  forall v,
    v ∈ getVariables f <->
    v <> [] /\ forallb Str.isWord v = true /\
    exists pre post,
      FragmentDefinition.content f = pre ++ js "{{" ++ v ++ js "}}" ++ post.
Proof.
  split; [apply JsSet_ofList_NoDup | apply getVariables_elem].
Qed.

(** X28 ([Fragment.compose] and [Fragment.getVariables], fragment.ts):
    a composition keeps the variables of its parts, whatever the
    separator. *)
Theorem compose_keeps_variables id fragments separator f v :
  f ∈ fragments -> v ∈ getVariables f ->
  v ∈ getVariables (compose id fragments separator).
Proof.
  intros Hf (Hne & Hw & pre & post & Hs)%getVariables_elem.
  apply getVariables_elem. split; [done|]. split; [done|].
  destruct (join_contains separator (map FragmentDefinition.content fragments)
              (FragmentDefinition.content f)) as (a & b & Hj).
  { apply list_elem_of_fmap. by exists f. }
  exists (a ++ pre), (post ++ b). cbn [compose FragmentDefinition.content].
  rewrite Hj, Hs. by rewrite <- !app_assoc.
Qed.

Lemma compose_keeps_variables_witness :
  askName ∈ [askName; askTopic] /\
  js "name" ∈ getVariables askName /\
  js "name" ∈ getVariables (compose (js "intro") [askName; askTopic] (js ", ")).
Proof.
  assert (askName ∈ [askName; askTopic]) as H1 by apply list_elem_of_here.
  assert (js "name" ∈ getVariables askName) as H2.
  { apply list_elem_of_In. vm_compute. by left. }
  split; [exact H1|]. split; [exact H2|].
  exact (compose_keeps_variables (js "intro") [askName; askTopic] (js ", ")
           askName (js "name") H1 H2).
Defined.

End FragmentFacts.
